(** * hocr-edit: layout reconstruction, hOCR transcoding and transcript accuracy

    A shallow embedding of the core of the repository:
    - [pkg/metrics/metrics.go]: the accuracy scorer;
    - [internal/services/ocr/worddetection.go]: the connected-component
      detector and the Words-to-Lines grouping stage;
    - [internal/services/hocr/converter.go]: the hOCR encoder;
    - [pkg/hocr/parser]: the hOCR decoder.

    Conventions.  Go strings are byte sequences and are modelled by [string]
    (a list of [ascii] bytes).  Go [int] is 64 bits wide; the integers of the
    modelled code are pixel coordinates, lengths and counters, they are
    modelled by [Z] or [nat] and never approach the word size, except in
    [strconv.Atoi], whose range check is written out.  The [float64] values
    of the accuracy scorer are IEEE 754 binary64 numbers (the primitive
    floats of the kernel, with their rounding).  The confidence of a word,
    which the code parses, scales and prints, is modelled by the rational
    it denotes ([Q]). *)

From stdpp Require Import base gmap sets list strings.
From Stdlib Require Import ZArith QArith Lia Bool Arith List Permutation Sorted.
From Stdlib Require Import Strings.String Strings.Ascii Numbers.DecimalString.
From Stdlib Require Import Numbers.DecimalN.
From Stdlib Require Import Floats.
From Stdlib Require Uint63.
Import ListNotations.

#[local] Open Scope string_scope.
#[local] Open Scope list_scope.
#[local] Open Scope nat_scope.

#[local] Arguments String.append !s1 s2 / : simpl nomatch.

(** ** Models of the Go standard library functions the code calls

    The functions of [strings], [unicode], [regexp], [strconv], [fmt] and
    [html] are not part of the repository.  They are modelled on bytes, which
    is exact for text in the ASCII range: white space and letter case of
    multi-byte UTF-8 runes are not modelled. *)

Module GoLib.

Definition byte_of (c : ascii) : nat := nat_of_ascii c.

Definition in_range (lo hi : nat) (c : ascii) : bool :=
  (lo <=? byte_of c) && (byte_of c <=? hi).

(** [unicode.IsSpace] on the ASCII range: tab, line feed, vertical tab, form
    feed, carriage return and space. *)
Definition IsSpace (c : ascii) : bool :=
  in_range 9 13 c || (byte_of c =? 32).

(** The class [\s] of Go regular expressions: tab, line feed, form feed,
    carriage return and space (no vertical tab). *)
Definition re_space (c : ascii) : bool :=
  (byte_of c =? 9) || (byte_of c =? 10) || (byte_of c =? 12) ||
  (byte_of c =? 13) || (byte_of c =? 32).

(** The class [\d] of Go regular expressions. *)
Definition re_digit (c : ascii) : bool := in_range 48 57 c.

Fixpoint TrimLeft (s : string) : string :=
  match s with
  | String c s' => if IsSpace c then TrimLeft s' else s
  | EmptyString => EmptyString
  end.

(** Drops the trailing white space; the result is empty when [s] is white
    space only. *)
Fixpoint TrimRight (s : string) : string :=
  match s with
  | String c s' =>
      match TrimRight s' with
      | EmptyString => if IsSpace c then EmptyString else String c EmptyString
      | t => String c t
      end
  | EmptyString => EmptyString
  end.

(** [strings.TrimSpace]. *)
Definition TrimSpace (s : string) : string := TrimRight (TrimLeft s).

Definition lower (c : ascii) : ascii :=
  if in_range 65 90 c then ascii_of_nat (byte_of c + 32) else c.

(** [strings.ToLower]. *)
Fixpoint ToLower (s : string) : string :=
  match s with
  | String c s' => String (lower c) (ToLower s')
  | EmptyString => EmptyString
  end.

(** [regexp.MustCompile(`\s+`).ReplaceAllString(s, " ")]: every maximal run
    of [\s] bytes becomes one space.  [inrun] tells that the previous byte
    belonged to a run that is already replaced. *)
Fixpoint collapse_spaces (inrun : bool) (s : string) : string :=
  match s with
  | String c s' =>
      if re_space c
      then if inrun then collapse_spaces true s'
           else String " " (collapse_spaces true s')
      else String c (collapse_spaces false s')
  | EmptyString => EmptyString
  end.

(** [strings.Fields]: the maximal runs of non-space bytes, in order.  [cur]
    is the field being read, in reverse. *)
Fixpoint fields_from (cur : list ascii) (s : string) : list string :=
  let close := match cur with
               | [] => []
               | _ => [string_of_list_ascii (rev cur)]
               end in
  match s with
  | String c s' =>
      if IsSpace c then close ++ fields_from [] s'
      else fields_from (c :: cur) s'
  | EmptyString => close
  end.

Definition Fields (s : string) : list string := fields_from [] s.

(** [strings.Join]. *)
Fixpoint Join (l : list string) (sep : string) : string :=
  match l with
  | [] => EmptyString
  | [x] => x
  | x :: l' => x +:+ sep +:+ Join l' sep
  end.

(** [len(s)] as a list of bytes, for indexing. *)
Definition bytes (s : string) : list ascii := list_ascii_of_string s.


(** *** Bytes, prefixes and substrings *)

(** The double quote, which a string literal of this file cannot hold. *)
Definition dquote : ascii := ascii_of_nat 34.
Definition dq : string := String dquote EmptyString.

(** The longest prefix of bytes satisfying [p], and the rest. *)
Fixpoint span (p : ascii -> bool) (s : string) : string * string :=
  match s with
  | String c s' =>
      if p c then let '(a, b) := span p s' in (String c a, b) else (EmptyString, s)
  | EmptyString => (EmptyString, EmptyString)
  end.

(** [s] without the prefix [lit], when it has it. *)
Fixpoint skip_lit (lit s : string) : option string :=
  match lit, s with
  | EmptyString, _ => Some s
  | String a lit', String c s' => if Ascii.eqb a c then skip_lit lit' s' else None
  | String _ _, EmptyString => None
  end.

(** [strings.Contains]. *)
Fixpoint Contains (s substr : string) : bool :=
  match skip_lit substr s with
  | Some _ => true
  | None =>
      match s with
      | String _ s' => Contains s' substr
      | EmptyString => false
      end
  end.

Definition is_ascii (s : string) : bool :=
  forallb (fun c => byte_of c <? 128) (bytes s).

(** *** [fmt] and [strconv] *)

(** [%d] of an [int]. *)
Definition itoa (z : Z) : string :=
  if (z <? 0)%Z
  then String "-" (NilEmpty.string_of_uint (N.to_uint (Z.to_N (- z))))
  else NilEmpty.string_of_uint (N.to_uint (Z.to_N z)).

Inductive NumError := ErrSyntax | ErrRange.

Definition maxInt64 : Z := 2 ^ 63 - 1.
Definition minInt64 : Z := - 2 ^ 63.

(** [strconv.Atoi] on a 64-bit platform: an optional sign and decimal
    digits; out of range it returns the nearest bound and [ErrRange]. *)
Definition Atoi (s : string) : Z * option NumError :=
  let '(neg, body) :=
    match s with
    | String "+" r => (false, r)
    | String "-" r => (true, r)
    | _ => (false, s)
    end in
  match body with
  | EmptyString => (0%Z, Some ErrSyntax)
  | _ =>
      match NilEmpty.uint_of_string body with
      | None => (0%Z, Some ErrSyntax)
      | Some d =>
          let v := Z.of_N (N.of_uint d) in
          if neg
          then if (v <=? 2 ^ 63)%Z then ((- v)%Z, None)
               else (minInt64, Some ErrRange)
          else if (v <=? maxInt64)%Z then (v, None)
               else (maxInt64, Some ErrRange)
      end
  end.

(** [html.EscapeString]. *)
Fixpoint EscapeString (s : string) : string :=
  match s with
  | String c s' =>
      (if Ascii.eqb c "&" then "&amp;"
       else if Ascii.eqb c "'" then "&#39;"
       else if Ascii.eqb c "<" then "&lt;"
       else if Ascii.eqb c ">" then "&gt;"
       else if Ascii.eqb c dquote then "&#34;"
       else String c EmptyString) +:+ EscapeString s'
  | EmptyString => EmptyString
  end.

(** *** The two regular expressions of the title attribute

    Both are searched with [FindStringSubmatch], which returns the leftmost
    match.  In these expressions every repetition is of a class that the
    next item excludes, so at a given start the greedy match is the only
    one. *)

Definition re_spaces1 (s : string) : option string :=
  match span re_space s with
  | (EmptyString, _) => None
  | (_, r) => Some r
  end.

Definition re_digits1 (s : string) : option (string * string) :=
  match span re_digit s with
  | (EmptyString, _) => None
  | (d, r) => Some (d, r)
  end.

(** A match of [bbox\s+(\d+)\s+(\d+)\s+(\d+)\s+(\d+)] at the start of [s]:
    the four groups. *)
Definition match_bbox_here (s : string)
  : option (string * string * string * string) :=
  match skip_lit "bbox" s with
  | None => None
  | Some r0 =>
  match re_spaces1 r0 with
  | None => None
  | Some r1 =>
  match re_digits1 r1 with
  | None => None
  | Some (d1, r2) =>
  match re_spaces1 r2 with
  | None => None
  | Some r3 =>
  match re_digits1 r3 with
  | None => None
  | Some (d2, r4) =>
  match re_spaces1 r4 with
  | None => None
  | Some r5 =>
  match re_digits1 r5 with
  | None => None
  | Some (d3, r6) =>
  match re_spaces1 r6 with
  | None => None
  | Some r7 =>
  match re_digits1 r7 with
  | None => None
  | Some (d4, _) => Some (d1, d2, d3, d4)
  end end end end end end end end end.

Fixpoint find_bbox (s : string) : option (string * string * string * string) :=
  match match_bbox_here s with
  | Some m => Some m
  | None =>
      match s with
      | String _ s' => find_bbox s'
      | EmptyString => None
      end
  end.

(** A match of [x_wconf\s+(\d+(?:\.\d+)?)] at the start of [s]: the integer
    digits of the group and, when it has them, its fraction digits. *)
Definition match_wconf_here (s : string) : option (string * option string) :=
  match skip_lit "x_wconf" s with
  | None => None
  | Some r0 =>
  match re_spaces1 r0 with
  | None => None
  | Some r1 =>
  match re_digits1 r1 with
  | None => None
  | Some (d, r2) =>
      match r2 with
      | String "." r3 =>
          match re_digits1 r3 with
          | Some (f, _) => Some (d, Some f)
          | None => Some (d, None)
          end
      | _ => Some (d, None)
      end
  end end end.

Fixpoint find_wconf (s : string) : option (string * option string) :=
  match match_wconf_here s with
  | Some m => Some m
  | None =>
      match s with
      | String _ s' => find_wconf s'
      | EmptyString => None
      end
  end.

(** The number a string of decimal digits denotes. *)
Definition digits_value (d : string) : Z :=
  match NilEmpty.uint_of_string d with
  | Some u => Z.of_N (N.of_uint u)
  | None => 0%Z
  end.

(** The value of the decimal [d.f]. *)
Definition decimal_value (d : string) (f : option string) : Q :=
  match f with
  | None => inject_Z (digits_value d)
  | Some f =>
      let scale := (10 ^ Z.of_nat (String.length f))%Z in
      Qmake (digits_value d * scale + digits_value f) (Z.to_pos scale)
  end.

(** The least real that [float64] rounds to infinity: half an ulp above the
    largest finite value. *)
Definition float64_overflow : Z := (2 ^ 1024 - 2 ^ 970)%Z.

(** A [float64]: a finite value is the rational it approximates (rounding
    is abstracted), besides the two infinities and NaN. *)
Inductive float64 :=
| Finite (q : Q)
| Inf (negative : bool)
| NaN.

(** [strconv.ParseFloat(s, 64)] on the decimal [d.f], the only strings the
    code passes to it: the value, or infinity and [ErrRange] when the value
    rounds to infinity. *)
Definition ParseFloat (d : string) (f : option string)
  : float64 * option NumError :=
  let q := decimal_value d f in
  if Qle_bool (inject_Z float64_overflow) q
  then (Inf false, Some ErrRange)
  else (Finite q, None).

(** Rounding of a non-negative rational to the nearest integer, ties to
    even. *)
Definition round_half_even (q : Q) : Z :=
  let n := Qnum q in
  let d := Zpos (Qden q) in
  let fl := (n / d)%Z in
  let r2 := (2 * (n mod d))%Z in
  if (r2 <? d)%Z then fl
  else if (d <? r2)%Z then (fl + 1)%Z
  else if Z.even fl then fl else (fl + 1)%Z.

(** [%.0f] of a [float64]. *)
Definition format_f0 (x : float64) : string :=
  match x with
  | Finite q =>
      if (Qnum q <? 0)%Z then String "-" (itoa (round_half_even (- q)))
      else itoa (round_half_even q)
  | Inf false => "+Inf"
  | Inf true => "-Inf"
  | NaN => "NaN"
  end.

(** *** [sort.Slice]

    [sort.Slice] sorts in place with an unspecified, unstable algorithm.
    What its documentation promises is captured by [sort_contract]: the
    result is a permutation of the slice, and for a comparison that is a
    strict weak order no element is less than one that precedes it.  The
    code that sorts takes the function as a parameter; [insertion_sort] is
    an implementation of the contract to run it with. *)
Definition sorter : Type := forall A : Type, (A -> A -> bool) -> list A -> list A.

Record strict_weak_order {A : Type} (less : A -> A -> bool) : Prop := {
  swo_irrefl : forall a, less a a = false;
  swo_trans : forall a b c, less a b = true -> less b c = true -> less a c = true;
  swo_incomp : forall a b c,
    less b a = false -> less c b = false -> less c a = false
}.

Definition sort_contract (sort_Slice : sorter) : Prop :=
  forall (A : Type) (less : A -> A -> bool) (l : list A),
    Permutation l (sort_Slice A less l) /\
    (strict_weak_order less ->
     StronglySorted (fun a b => less b a = false) (sort_Slice A less l)).

Fixpoint insert_sorted {A : Type} (less : A -> A -> bool) (x : A) (l : list A)
  : list A :=
  match l with
  | [] => [x]
  | y :: l' => if less x y then x :: l else y :: insert_sorted less x l'
  end.

Definition insertion_sort : sorter :=
  fun A less l => fold_left (fun acc x => insert_sorted less x acc) l [].

End GoLib.

(** ** The accuracy scorer ([pkg/metrics/metrics.go]) *)

Module Metrics.
Import GoLib.

#[local] Open Scope nat_scope.

(** [float64(n)] of a non-negative [int]: the IEEE 754 binary64 number
    nearest to [n] (the conversion is exact below [2^53]). *)
Definition float64_of (n : nat) : float :=
  PrimFloat.of_uint63 (Uint63.of_Z (Z.of_nat n)).

Record EvalResult := mkEvalResult {
  Identifier : string;
  ImagePath : string;
  TranscriptPath : string;
  Public : bool;
  OpenAIResponse : string;
  CharacterSimilarity : float;
  WordSimilarity : float;
  WordAccuracy : float;
  WordErrorRate : float;
  TotalWordsOriginal : nat;
  TotalWordsTranscribed : nat;
  CorrectWords : nat;
  Substitutions : nat;
  Deletions : nat;
  Insertions : nat
}.

(** [normalizeText]. *)
Definition normalizeText (text : string) : string :=
  ToLower (collapse_spaces false (TrimSpace text)).

(** *** The dynamic-programming tables

    Both distance functions allocate an [(m+1) x (n+1)] matrix, set row 0 to
    [0..n] and column 0 to [0..m], and fill the rest row by row, left to
    right, each cell from its upper, left and diagonal neighbours.  [cell a b
    up left diag] is the value the loop body stores for the elements [a] and
    [b] being compared. *)
Section Table.
Context {A : Type}.
Variable cell : A -> A -> nat -> nat -> nat -> nat.

(** The cells [1..n] of the row of [a], from the row above ([prev], from
    column [j-1] on) and the cell to the left. *)
Fixpoint fill_row (a : A) (s2 : list A) (prev : list nat) (left : nat)
  : list nat :=
  match s2, prev with
  | b :: s2', diag :: prev' =>
      let v := cell a b (hd 0 prev') left diag in
      v :: fill_row a s2' prev' v
  | _, _ => []
  end.

(** The rows [i, i+1, ...] for the elements of [s1], [prev] being row
    [i-1]. *)
Fixpoint fill_rows (i : nat) (s1 s2 : list A) (prev : list nat)
  : list (list nat) :=
  match s1 with
  | [] => []
  | a :: s1' =>
      let row := i :: fill_row a s2 prev i in
      row :: fill_rows (S i) s1' s2 row
  end.

Definition table (s1 s2 : list A) : list (list nat) :=
  let row0 := seq 0 (S (List.length s2)) in
  row0 :: fill_rows 1 s1 s2 row0.

(** [matrix[i][j]]. *)
Definition at_ (t : list (list nat)) (i j : nat) : nat :=
  nth j (nth i t []) 0.
End Table.

(** [levenshteinDistance], on the bytes of the two strings. *)
Definition lev_cell (a b : ascii) (up left diag : nat) : nat :=
  let cost := if Ascii.eqb a b then 0 else 1 in
  Nat.min (Nat.min (up + 1) (left + 1)) (diag + cost).

Definition levenshteinDistance (s1 s2 : string) : nat :=
  let len1 := String.length s1 in
  let len2 := String.length s2 in
  if len1 =? 0 then len2
  else if len2 =? 0 then len1
  else at_ (table lev_cell (bytes s1) (bytes s2)) len1 len2.

(** [calculateSimilarity]; the subtraction and the division are those of
    binary64. *)
Definition calculateSimilarity (s1 s2 : string) : float :=
  let maxLen := Nat.max (String.length s1) (String.length s2) in
  if maxLen =? 0 then 1%float
  else (1 - float64_of (levenshteinDistance s1 s2) / float64_of maxLen)%float.

(** The cell of [calculateWordLevelMetrics]. *)
Definition word_cell (a b : string) (up left diag : nat) : nat :=
  if String.eqb a b then diag
  else 1 + Nat.min (Nat.min up left) diag.

(** The four branches of the backtracking loop. *)
Inductive EditOp := OpMatch | OpSubst | OpDel | OpIns.

Section Backtrack.
Variables orig trans : list string.
Variable dp : list (list nat).

Definition word_at (l : list string) (k : nat) : string := nth k l "".

(** The conditions of the four branches, each on its own. *)
Definition admissible (op : EditOp) (i j : nat) : bool :=
  match op with
  | OpMatch =>
      (0 <? i) && (0 <? j) &&
      String.eqb (word_at orig (i - 1)) (word_at trans (j - 1))
  | OpSubst =>
      (0 <? i) && (0 <? j) && (at_ dp i j =? at_ dp (i - 1) (j - 1) + 1)
  | OpDel => (0 <? i) && (at_ dp i j =? at_ dp (i - 1) j + 1)
  | OpIns => (0 <? j) && (at_ dp i j =? at_ dp i (j - 1) + 1)
  end.

(** The [if ... else if ...] chain of the loop body: the branch taken at
    [(i, j)], if any. *)
Definition choose_op (i j : nat) : option EditOp :=
  if admissible OpMatch i j then Some OpMatch
  else if admissible OpSubst i j then Some OpSubst
  else if admissible OpDel i j then Some OpDel
  else if admissible OpIns i j then Some OpIns
  else None.

(** The counters [(correct, substitutions, deletions, insertions)]. *)
Definition counters : Type := nat * nat * nat * nat.

(** The loop [for i > 0 || j > 0].  An iteration in which no branch is
    taken leaves [i] and [j] as they are, so the loop runs on; [fuel]
    bounds the number of iterations, [None] is a loop that has not ended
    within it. *)
Fixpoint backtrack (fuel : nat) (i j : nat) (c : counters)
  : option counters :=
  if (0 <? i) || (0 <? j) then
    match fuel with
    | O => None
    | S fuel' =>
        let '(correct, substitutions, deletions, insertions) := c in
        match choose_op i j with
        | Some OpMatch =>
            backtrack fuel' (i - 1) (j - 1)
              (S correct, substitutions, deletions, insertions)
        | Some OpSubst =>
            backtrack fuel' (i - 1) (j - 1)
              (correct, S substitutions, deletions, insertions)
        | Some OpDel =>
            backtrack fuel' (i - 1) j
              (correct, substitutions, S deletions, insertions)
        | Some OpIns =>
            backtrack fuel' i (j - 1)
              (correct, substitutions, deletions, S insertions)
        | None => backtrack fuel' i j c
        end
    end
  else Some c.
End Backtrack.

(** [calculateWordLevelMetrics]: the word accuracy and the four counters.
    Every iteration of the backtracking loop that takes a branch decreases
    [i + j], so [m + n] iterations are given. *)
Definition calculateWordLevelMetrics (orig trans : list string)
  : option (float * nat * nat * nat * nat) :=
  let m := List.length orig in
  let n := List.length trans in
  let dp := table word_cell orig trans in
  match backtrack orig trans dp (m + n) m n (0, 0, 0, 0) with
  | Some (correct, substitutions, deletions, insertions) =>
      let totalEdits := substitutions + deletions + insertions in
      let wer :=
        if 0 <? m then (float64_of totalEdits / float64_of m)%float
        else 0%float in
      let wordAccuracy := (1 - wer)%float in
      Some (wordAccuracy, correct, substitutions, deletions, insertions)
  | None => None
  end.

(** [CalculateAccuracyMetrics]. *)
Definition CalculateAccuracyMetrics (original transcribed : string)
  : option EvalResult :=
  let origNorm := normalizeText original in
  let transNorm := normalizeText transcribed in
  let charSim := calculateSimilarity origNorm transNorm in
  let origWords := Fields origNorm in
  let transWords := Fields transNorm in
  let wordSim :=
    calculateSimilarity (Join origWords " ") (Join transWords " ") in
  match calculateWordLevelMetrics origWords transWords with
  | Some (wordAcc, correct, subs, dels, ins) =>
      let wer := (1 - wordAcc)%float in
      Some {| Identifier := ""; ImagePath := ""; TranscriptPath := "";
              Public := false; OpenAIResponse := "";
              CharacterSimilarity := charSim;
              WordSimilarity := wordSim;
              WordAccuracy := wordAcc;
              WordErrorRate := wer;
              TotalWordsOriginal := List.length origWords;
              TotalWordsTranscribed := List.length transWords;
              CorrectWords := correct;
              Substitutions := subs;
              Deletions := dels;
              Insertions := ins |}
  | None => None
  end.

End Metrics.


(** ** The data model ([internal/models])

    A field is named after its struct and its Go name.  A Go pointer that
    may be [nil] is an [option]. *)

Module Models.
Import GoLib.

Record Vertex := mkVertex {
  Vertex_X : Z;
  Vertex_Y : Z
}.

Record BoundingPoly := mkBoundingPoly {
  Vertices : list Vertex
}.

Record DetectedBreak := mkDetectedBreak {
  DetectedBreak_Type : string
}.

Record DetectedLanguage := mkDetectedLanguage {
  LanguageCode : string;
  DetectedLanguage_Confidence : float64
}.

Record Property := mkProperty {
  DetectedLanguages : list DetectedLanguage;
  Property_DetectedBreak : option DetectedBreak
}.

Record Symbol := mkSymbol {
  Symbol_Property : option Property;
  Symbol_BoundingBox : BoundingPoly;
  Symbol_Text : string
}.

Record Word := mkWord {
  Word_Property : option Property;
  Word_BoundingBox : BoundingPoly;
  Word_Symbols : list Symbol
}.

Record Paragraph := mkParagraph {
  Paragraph_BoundingBox : BoundingPoly;
  Paragraph_Words : list Word
}.

Record BBox := mkBBox {
  X1 : Z;
  Y1 : Z;
  X2 : Z;
  Y2 : Z
}.

Record HOCRWord := mkHOCRWord {
  HOCRWord_ID : string;
  HOCRWord_Text : string;
  HOCRWord_BBox : BBox;
  HOCRWord_Confidence : float64;
  HOCRWord_LineID : string
}.

Record HOCRLine := mkHOCRLine {
  HOCRLine_ID : string;
  HOCRLine_BBox : BBox;
  HOCRLine_Words : list HOCRWord
}.

(** The zero values of [BBox] and [HOCRWord]. *)
Definition zero_BBox : BBox := mkBBox 0 0 0 0.

Definition zero_HOCRWord : HOCRWord :=
  mkHOCRWord "" "" zero_BBox (Finite 0) "".

End Models.

(** ** The component detector and the structural grouper
    ([internal/services/ocr/worddetection.go]) *)

Module Detector.
Import GoLib Models.

#[local] Open Scope Z_scope.

(** What [color.Color.RGBA] returns: four [uint32] channels. *)
Record Color := mkColor {
  Color_R : Z;
  Color_G : Z;
  Color_B : Z;
  Color_A : Z
}.

(** A decoded [image.Image]: the extent of its bounds and the colour [At]
    returns. *)
Record Image := mkImage {
  Dx : Z;
  Dy : Z;
  At : Z -> Z -> Color
}.

Record BoundingBox := mkBoundingBox {
  X : Z;
  Y : Z;
  Width : Z;
  Height : Z
}.

(** [isTextPixel]: the mean of the three channels, in [uint32] arithmetic,
    below half of the 16-bit range. *)
Definition isTextPixel (c : Color) : bool :=
  let gray := ((Color_R c + Color_G c + Color_B c) mod 2 ^ 32) / 3 in
  gray <? 32768.

(** The [visited] matrix, as the set of the marked [(x, y)], and the four
    bounds [floodFill] updates through pointers. *)
Record fill_state := mkFill {
  visited : gset (Z * Z);
  minX : Z;
  minY : Z;
  maxX : Z;
  maxY : Z
}.

Definition directions : list (Z * Z) :=
  [(-1, -1); (-1, 0); (-1, 1); (0, -1); (0, 1); (1, -1); (1, 0); (1, 1)].

(** The guard of [floodFill]: outside the image, visited, or not a text
    pixel. *)
Definition stops (img : Image) (vis : gset (Z * Z)) (x y : Z) : bool :=
  (x <? 0) || (Dx img <=? x) || (y <? 0) || (Dy img <=? y) ||
  bool_decide ((x, y) ∈ vis) || negb (isTextPixel (At img x y)).

(** [floodFill].  [fuel] bounds the depth of the recursion; [None] is a
    recursion deeper than that. *)
Fixpoint floodFill (fuel : nat) (img : Image) (st : fill_state) (x y : Z)
  : option fill_state :=
  if stops img (visited st) x y then Some st
  else
    match fuel with
    | O => None
    | S fuel' =>
        let st1 :=
          {| visited := {[ (x, y) ]} ∪ visited st;
             minX := if x <? minX st then x else minX st;
             minY := if y <? minY st then y else minY st;
             maxX := if maxX st <? x then x else maxX st;
             maxY := if maxY st <? y then y else maxY st |} in
        fold_left
          (fun acc dir =>
             match acc with
             | Some s => floodFill fuel' img s (x + fst dir) (y + snd dir)
             | None => None
             end)
          directions (Some st1)
    end.

(** The body of the two scanning loops of [findConnectedComponents], at the
    pixel [(x, y)]. *)
Definition scan_pixel (fuel : nat) (img : Image)
    (acc : gset (Z * Z) * list BoundingBox) (x y : Z)
  : option (gset (Z * Z) * list BoundingBox) :=
  let '(vis, components) := acc in
  let width := Dx img in
  let height := Dy img in
  if negb (bool_decide ((x, y) ∈ vis)) && isTextPixel (At img x y) then
    match floodFill fuel img (mkFill vis x y x y) x y with
    | Some st =>
        let w := maxX st - minX st + 1 in
        let h := maxY st - minY st + 1 in
        if (5 <=? w) && (8 <=? h) && (w <=? width `quot` 2) &&
           (h <=? height `quot` 4)
        then Some (visited st,
                   components ++ [mkBoundingBox (minX st) (minY st) w h])
        else Some (visited st, components)
    | None => None
    end
  else Some acc.

Definition scan_row (fuel : nat) (img : Image)
    (acc : option (gset (Z * Z) * list BoundingBox)) (y : Z)
  : option (gset (Z * Z) * list BoundingBox) :=
  fold_left
    (fun acc x =>
       match acc with
       | Some a => scan_pixel fuel img a x y
       | None => None
       end)
    (seqZ 0 (Dx img)) acc.

(** [findConnectedComponents].  A flood fill marks a pixel in every call
    that goes on, so its recursion is never deeper than the number of
    pixels, which is the fuel given. *)
Definition findConnectedComponents (img : Image) : option (list BoundingBox) :=
  let fuel := Z.to_nat (Dx img * Dy img) in
  match fold_left (scan_row fuel img) (seqZ 0 (Dy img)) (Some (∅, [])) with
  | Some (_, components) => Some components
  | None => None
  end.

(** The vertices [convertToGCVResponse] gives the box of a word: top left,
    top right, bottom right, bottom left. *)
Definition box_vertices (box : BoundingBox) : list Vertex :=
  [ mkVertex (X box) (Y box);
    mkVertex (X box + Width box) (Y box);
    mkVertex (X box + Width box) (Y box + Height box);
    mkVertex (X box) (Y box + Height box) ].

(** *** Words to lines *)

(** [word.BoundingBox.Vertices[k]]; [None] is the index out of range, a
    run-time panic. *)
Definition vertex (w : Word) (k : nat) : option Vertex :=
  nth_error (Vertices (Word_BoundingBox w)) k.

Definition vertex_or_zero (w : Word) (k : nat) : Vertex :=
  nth k (Vertices (Word_BoundingBox w)) (mkVertex 0 0).

(** The comparison of the first sort: by the [Y] of the first vertex, then
    by its [X].  (An index out of range in a comparison shows as [None] in
    the loop that follows, which reads the same vertex of every word.) *)
Definition less_YX (a b : Word) : bool :=
  let yI := Vertex_Y (vertex_or_zero a 0) in
  let yJ := Vertex_Y (vertex_or_zero b 0) in
  if yI =? yJ
  then Vertex_X (vertex_or_zero a 0) <? Vertex_X (vertex_or_zero b 0)
  else yI <? yJ.

(** The comparison of the sort within a line. *)
Definition less_X (a b : Word) : bool :=
  Vertex_X (vertex_or_zero a 0) <? Vertex_X (vertex_or_zero b 0).

(** The loop over the words of a line that widens [lineTop] and
    [lineBottom]. *)
Fixpoint widen (line : list Word) (lineTop lineBottom : Z) : option (Z * Z) :=
  match line with
  | [] => Some (lineTop, lineBottom)
  | lineWord :: rest =>
      match vertex lineWord 0, vertex lineWord 2 with
      | Some v0, Some v2 =>
          let wordLineTop := Vertex_Y v0 in
          let wordLineBottom := Vertex_Y v2 in
          widen rest
            (if wordLineTop <? lineTop then wordLineTop else lineTop)
            (if lineBottom <? wordLineBottom then wordLineBottom
             else lineBottom)
      | _, _ => None
      end
  end.

(** The Y-range of a non-empty line. *)
Definition line_range (line : list Word) : option (Z * Z) :=
  match line with
  | [] => None
  | first :: _ =>
      match vertex first 0, vertex first 2 with
      | Some v0, Some v2 => widen line (Vertex_Y v0) (Vertex_Y v2)
      | _, _ => None
      end
  end.

(** The loop over the existing lines: the lines with the word appended to
    the first line it overlaps, or [None] when it overlaps none.  The outer
    [option] is the panic. *)
Fixpoint add_to_line (lines : list (list Word)) (word : Word)
    (wordTop wordBottom : Z) : option (option (list (list Word))) :=
  match lines with
  | [] => Some None
  | line :: rest =>
      let skip :=
        match add_to_line rest word wordTop wordBottom with
        | Some (Some rest') => Some (Some (line :: rest'))
        | other => other
        end in
      match line with
      | [] => skip
      | _ :: _ =>
          match line_range line with
          | Some (lineTop, lineBottom) =>
              let wordHeight := wordBottom - wordTop in
              let tolerance := wordHeight `quot` 2 in
              let wordOverlapsLine :=
                (lineTop - tolerance <=? wordBottom) &&
                (wordTop <=? lineBottom + tolerance) in
              if wordOverlapsLine
              then Some (Some ((line ++ [word]) :: rest))
              else skip
          | None => None
          end
      end
  end.

(** The body of the loop over the sorted words. *)
Definition place_word (lines : list (list Word)) (word : Word)
  : option (list (list Word)) :=
  match vertex word 0, vertex word 2 with
  | Some v0, Some v2 =>
      let wordTop := Vertex_Y v0 in
      let wordBottom := Vertex_Y v2 in
      match add_to_line lines word wordTop wordBottom with
      | Some (Some lines') => Some lines'
      | Some None => Some (lines ++ [[word]])
      | None => None
      end
  | _, _ => None
  end.

Section WithSort.
Variable sort_Slice : sorter.

(** [groupWordsIntoLines]; [None] is a run-time panic. *)
Definition groupWordsIntoLines (words : list Word)
  : option (list (list Word)) :=
  match words with
  | [] => Some []
  | _ :: _ =>
      let sortedWords := sort_Slice Word less_YX words in
      match
        fold_left
          (fun acc word =>
             match acc with
             | Some lines => place_word lines word
             | None => None
             end)
          sortedWords (Some [])
      with
      | Some lines => Some (map (sort_Slice Word less_X) lines)
      | None => None
      end
  end.

End WithSort.

End Detector.

(** ** A model of the XML decoder ([encoding/xml], strict mode)

    [xml.Decoder] is not part of the repository.  It is modelled for
    documents in the ASCII range: tags with quoted attributes, text with the
    predefined and the numeric character references, comments, CDATA
    sections, processing instructions and directives.  Where the model
    gives no verdict the outcome is [Unmodelled]: bytes outside ASCII,
    markup nested in a directive, names with a misplaced colon, an XML
    declaration whose pseudo-attribute is not quoted, elements nested 5000
    deep, or a run of the model that reaches its bound on steps.  A name
    keeps its prefix in [Space] as it is written (the decoder resolves it to
    a namespace; the parser reads only [Local]). *)

Module Xml.
Import GoLib.

Inductive outcome (A : Type) : Type :=
| Got (a : A)
| Fail
| Unmodelled.
Arguments Got {A} a.
Arguments Fail {A}.
Arguments Unmodelled {A}.

Definition bind {A B : Type} (x : outcome A) (f : A -> outcome B) : outcome B :=
  match x with
  | Got a => f a
  | Fail => Fail
  | Unmodelled => Unmodelled
  end.

Notation "'let*' x ':=' e 'in' k" := (bind e (fun x => k))
  (at level 10, x pattern, e at level 100, k at level 200).

Record Name := mkName {
  Space : string;
  Local : string
}.

Record Attr := mkAttr {
  Attr_Name : Name;
  Value : string
}.

(** A [StartElement] carries whether the tag closed itself ([<a/>]); the
    decoder then delivers the matching [EndElement] next. *)
Inductive Token :=
| StartElement (name : Name) (attr : list Attr) (empty : bool)
| EndElement (name : Name)
| CharData (data : string)
| Comment
| ProcInst
| Directive.

Definition LF : ascii := ascii_of_nat 10.
Definition CR : ascii := ascii_of_nat 13.
Definition NUL : ascii := ascii_of_nat 0.

(** [d.space]. *)
Definition is_xml_space (c : ascii) : bool :=
  Ascii.eqb c " " || (byte_of c =? 13) || (byte_of c =? 10) || (byte_of c =? 9).

Fixpoint space (s : string) : string :=
  match s with
  | String c s' => if is_xml_space c then space s' else s
  | EmptyString => EmptyString
  end.

Definition isNameStart (c : ascii) : bool :=
  in_range 65 90 c || in_range 97 122 c || Ascii.eqb c "_" || Ascii.eqb c ":".

Definition isNameByte (c : ascii) : bool :=
  isNameStart c || in_range 48 57 c || Ascii.eqb c "." || Ascii.eqb c "-".

(** [d.name]: the longest run of name bytes, which must start as a name does
    and must not run to the end of the input. *)
Definition name (s : string) : outcome (string * string) :=
  match span isNameByte s with
  | (String c n, String r rest) =>
      if isNameStart c then Got (String c n, String r rest) else Fail
  | _ => Fail
  end.

(** [d.nsname]: the name, split at its colon. *)
Definition nsname (s : string) : outcome (Name * string) :=
  let* (n, rest) := name s in
  match span (fun c => negb (Ascii.eqb c ":")) n with
  | (_, EmptyString) => Got (mkName "" n, rest)
  | (String a sp, String _ (String b lo)) =>
      if Contains (String b lo) ":" then Unmodelled
      else Got (mkName (String a sp) (String b lo), rest)
  | _ => Unmodelled
  end.

(** *** Text and attribute values ([d.text]) *)

Definition hex_value (c : ascii) : option N :=
  if in_range 48 57 c then Some (N.of_nat (byte_of c - 48))
  else if in_range 97 102 c then Some (N.of_nat (byte_of c - 87))
  else if in_range 65 70 c then Some (N.of_nat (byte_of c - 55))
  else None.

Definition dec_value (c : ascii) : option N :=
  if in_range 48 57 c then Some (N.of_nat (byte_of c - 48)) else None.

(** The number a non-empty string of digits denotes in the base. *)
Fixpoint number (base : N) (digit : ascii -> option N) (acc : N) (s : string)
  : option N :=
  match s with
  | EmptyString => Some acc
  | String c s' =>
      match digit c with
      | Some v => number base digit (acc * base + v)%N s'
      | None => None
      end
  end.

(** The character a numeric reference denotes. *)
Definition char_of_code (n : option N) : outcome ascii :=
  match n with
  | Some n =>
      if (n <? 128)%N then Got (ascii_of_N n)
      else if (n <=? 1114111)%N then Unmodelled
      else Fail
  | None => Fail
  end.

(** The character a reference [&body;] stands for: one of the five
    predefined entities, or a decimal or hexadecimal character code. *)
Definition resolve (body : string) : outcome ascii :=
  match body with
  | String "#" (String "x" (String h hs)) =>
      char_of_code (number 16 hex_value 0 (String h hs))
  | String "#" (String d ds) =>
      char_of_code (number 10 dec_value 0 (String d ds))
  | _ =>
      if String.eqb body "lt" then Got "<"%char
      else if String.eqb body "gt" then Got ">"%char
      else if String.eqb body "amp" then Got "&"%char
      else if String.eqb body "apos" then Got "'"%char
      else if String.eqb body "quot" then Got dquote
      else Fail
  end.

(** The state of the reading loop: in plain text, with the two bytes read
    last, or inside a reference, with its bytes so far, last first. *)
Inductive text_state :=
| TPlain (b0 b1 : ascii)
| TEntity (body : list ascii).

(** The check that ends [d.text]: every character must be in the range XML
    allows. *)
Definition in_character_range (c : ascii) : bool :=
  (byte_of c =? 9) || (byte_of c =? 10) || (byte_of c =? 13) ||
  in_range 32 127 c.

Definition finish_text (acc : list ascii) (rest : string)
  : outcome (string * string) :=
  if forallb in_character_range acc
  then Got (string_of_list_ascii (rev acc), rest)
  else Fail.

(** [d.text(quote, cdata)]: the text up to the next tag, the closing quote
    or the end of the CDATA section, with references replaced and line ends
    normalized.  [acc] is the text so far, last byte first. *)
Fixpoint text_loop (quote : option ascii) (cdata : bool) (st : text_state)
    (acc : list ascii) (s : string) : outcome (string * string) :=
  match s with
  | EmptyString =>
      match st with
      | TPlain _ _ => if cdata then Fail else finish_text acc EmptyString
      | TEntity _ => Fail
      end
  | String c s' =>
      match st with
      | TEntity body =>
          if Ascii.eqb c ";" then
            let* ch := resolve (string_of_list_ascii (rev body)) in
            text_loop quote cdata (TPlain NUL NUL) (ch :: acc) s'
          else text_loop quote cdata (TEntity (c :: body)) acc s'
      | TPlain b0 b1 =>
          if Ascii.eqb b0 "]" && Ascii.eqb b1 "]" && Ascii.eqb c ">" then
            if cdata then finish_text (tl (tl acc)) s' else Fail
          else if Ascii.eqb c "<" && negb cdata then
            match quote with
            | Some _ => Fail
            | None => finish_text acc s
            end
          else if match quote with
                  | Some q => Ascii.eqb c q
                  | None => false
                  end then finish_text acc s'
          else if Ascii.eqb c "&" && negb cdata then
            text_loop quote cdata (TEntity []) acc s'
          else
            let acc' :=
              if Ascii.eqb c CR then LF :: acc
              else if Ascii.eqb b1 CR && Ascii.eqb c LF then acc
              else c :: acc in
            text_loop quote cdata (TPlain b1 c) acc' s'
      end
  end.

Definition text (quote : option ascii) (cdata : bool) (s : string)
  : outcome (string * string) :=
  text_loop quote cdata (TPlain NUL NUL) [] s.

(** *** Markup *)

(** The attributes of a start tag, up to its [>] or [/>]. *)
Fixpoint attrs_loop (fuel : nat) (acc : list Attr) (s : string)
  : outcome (list Attr * bool * string) :=
  match fuel with
  | O => Unmodelled
  | S fuel' =>
      match space s with
      | EmptyString => Fail
      | String c s1 =>
          if Ascii.eqb c "/" then
            match s1 with
            | String c1 s2 => if Ascii.eqb c1 ">" then Got (acc, true, s2) else Fail
            | EmptyString => Fail
            end
          else if Ascii.eqb c ">" then Got (acc, false, s1)
          else
            let* (n, r1) := nsname (String c s1) in
            match space r1 with
            | EmptyString => Fail
            | String e r2 =>
                if Ascii.eqb e "=" then
                  match space r2 with
                  | EmptyString => Fail
                  | String q r3 =>
                      if Ascii.eqb q "'" || Ascii.eqb q dquote then
                        let* (v, r4) := text (Some q) false r3 in
                        attrs_loop fuel' (acc ++ [mkAttr n v]) r4
                      else Fail
                  end
                else Fail
            end
      end
  end.

(** The body of a comment, after [<!--]. *)
Fixpoint comment_loop (b0 b1 : ascii) (s : string) : outcome string :=
  match s with
  | EmptyString => Fail
  | String c s' =>
      if Ascii.eqb b0 "-" && Ascii.eqb b1 "-" then
        if Ascii.eqb c ">" then Got s' else Fail
      else comment_loop b1 c s'
  end.

(** The body of a processing instruction, up to [?>]: the body, last byte
    first, and the rest. *)
Fixpoint procinst_loop (b0 : ascii) (acc : list ascii) (s : string)
  : outcome (string * string) :=
  match s with
  | EmptyString => Fail
  | String c s' =>
      if Ascii.eqb b0 "?" && Ascii.eqb c ">"
      then Got (string_of_list_ascii (rev (tl acc)), s')
      else procinst_loop c (c :: acc) s'
  end.

(** The rest of [s] after the first occurrence of [lit]. *)
Fixpoint after_first (lit s : string) : option string :=
  match skip_lit lit s with
  | Some r => Some r
  | None =>
      match s with
      | String _ s' => after_first lit s'
      | EmptyString => None
      end
  end.

(** [procInst(param, s)]: the quoted value of [param=] in an XML
    declaration, empty when there is none. *)
Definition procInst (param s : string) : outcome string :=
  match after_first (param +:+ "=") s with
  | None => Got EmptyString
  | Some EmptyString => Got EmptyString
  | Some (String q r) =>
      if Ascii.eqb q "'" || Ascii.eqb q dquote then
        match span (fun c => negb (Ascii.eqb c q)) r with
        | (_, EmptyString) => Got EmptyString
        | (v, _) => Got v
        end
      else Unmodelled
  end.

(** The check of an XML declaration: version 1.0 and UTF-8 only. *)
Definition check_declaration (content : string) : outcome unit :=
  let* ver := procInst "version" content in
  if negb (String.eqb ver "") && negb (String.eqb ver "1.0") then Fail
  else
    let* enc := procInst "encoding" content in
    if negb (String.eqb enc "") && negb (String.eqb (ToLower enc) "utf-8")
    then Fail
    else Got tt.

(** The body of a directive, after [<!] and its first byte, up to the [>]
    outside quotes. *)
Fixpoint directive_loop (inquote : option ascii) (s : string) : outcome string :=
  match s with
  | EmptyString => Fail
  | String c s' =>
      match inquote with
      | Some q =>
          directive_loop (if Ascii.eqb c q then None else inquote) s'
      | None =>
          if Ascii.eqb c ">" then Got s'
          else if Ascii.eqb c "'" || Ascii.eqb c dquote
          then directive_loop (Some c) s'
          else if Ascii.eqb c "<" then Unmodelled
          else directive_loop None s'
      end
  end.

(** [d.rawToken]: the next token and the rest of the input, [None] at the
    end of the input. *)
Definition rawToken (s : string) : outcome (option (Token * string)) :=
  match s with
  | EmptyString => Got None
  | String c s1 =>
      if negb (Ascii.eqb c "<") then
        let* (data, rest) := text None false s in
        Got (Some (CharData data, rest))
      else
        match s1 with
        | EmptyString => Fail
        | String c1 s2 =>
            if Ascii.eqb c1 "/" then
              let* (n, r) := nsname s2 in
              match space r with
              | String e rest =>
                  if Ascii.eqb e ">" then Got (Some (EndElement n, rest))
                  else Fail
              | EmptyString => Fail
              end
            else if Ascii.eqb c1 "?" then
              let* (target, r) := name s2 in
              let* (content, rest) := procinst_loop NUL [] (space r) in
              let* _ :=
                if String.eqb target "xml" then check_declaration content
                else Got tt in
              Got (Some (ProcInst, rest))
            else if Ascii.eqb c1 "!" then
              match s2 with
              | EmptyString => Fail
              | String c2 s3 =>
                  if Ascii.eqb c2 "-" then
                    match s3 with
                    | String c3 s4 =>
                        if Ascii.eqb c3 "-" then
                          let* rest := comment_loop NUL NUL s4 in
                          Got (Some (Comment, rest))
                        else Fail
                    | EmptyString => Fail
                    end
                  else if Ascii.eqb c2 "[" then
                    match skip_lit "CDATA[" s3 with
                    | Some r =>
                        let* (data, rest) := text None true r in
                        Got (Some (CharData data, rest))
                    | None => Fail
                    end
                  else
                    let* rest := directive_loop None s3 in
                    Got (Some (Directive, rest))
              end
            else
              let* (n, r) := nsname s1 in
              let* (attr, empty, rest) := attrs_loop (String.length r) [] r in
              Got (Some (StartElement n attr empty, rest))
        end
  end.

End Xml.

(** ** The hOCR decoder ([pkg/hocr/parser]) *)

Module Parser.
Import GoLib Models Xml.

#[local] Set Warnings "-register-all".
Inductive XMLElement :=
| mkXMLElement (XMLName : Name) (Attrs : list Attr) (Content : string)
    (Children : list XMLElement).

Definition XMLName (e : XMLElement) : Name :=
  match e with mkXMLElement n _ _ _ => n end.
Definition Attrs (e : XMLElement) : list Attr :=
  match e with mkXMLElement _ a _ _ => a end.
Definition Content (e : XMLElement) : string :=
  match e with mkXMLElement _ _ c _ => c end.
Definition Children (e : XMLElement) : list XMLElement :=
  match e with mkXMLElement _ _ _ ch => ch end.

(** *** [decoder.Decode(&doc)]

    Unmarshalling into an [XMLElement] stores the attributes of the start
    tag in [Attrs], the concatenation of the character data directly inside
    the element in [Content], and the child elements in [Children]. *)

Definition name_eqb (a b : Name) : bool :=
  String.eqb (Space a) (Space b) && String.eqb (Local a) (Local b).

(** The loop of [d.unmarshal] over the tokens inside the element
    [name]: it ends at the end tag, which must match.  [fuel] bounds the
    number of tokens read on the way. *)
Fixpoint unmarshal (fuel : nat) (depth : N) (name : Name) (attrs : list Attr)
    (content : string) (children : list XMLElement) (s : string)
  : outcome (XMLElement * string) :=
  match fuel with
  | O => Unmodelled
  | S fuel' =>
      let* tok := rawToken s in
      match tok with
      | None => Fail
      | Some (StartElement n a empty, rest) =>
          if (5000 <=? depth + 1)%N then Unmodelled
          else
            let* (child, rest') :=
              if empty then Got (mkXMLElement n a "" [], rest)
              else unmarshal fuel' (depth + 1) n a "" [] rest in
            unmarshal fuel' depth name attrs content (children ++ [child])
              rest'
      | Some (EndElement n, rest) =>
          if name_eqb n name
          then Got (mkXMLElement name attrs content children, rest)
          else Fail
      | Some (CharData data, rest) =>
          unmarshal fuel' depth name attrs (content +:+ data) children rest
      | Some (_, rest) =>
          unmarshal fuel' depth name attrs content children rest
      end
  end.

(** The search for the first start tag, and the element it opens.  The
    input after that element is not read. *)
Fixpoint decode_from (fuel : nat) (s : string) : outcome (XMLElement * string) :=
  match fuel with
  | O => Unmodelled
  | S fuel' =>
      let* tok := rawToken s in
      match tok with
      | None => Fail
      | Some (StartElement n a empty, rest) =>
          if empty then Got (mkXMLElement n a "" [], rest)
          else unmarshal fuel' 0 n a "" [] rest
      | Some (EndElement _, _) => Fail
      | Some (_, rest) => decode_from fuel' rest
      end
  end.

Definition Decode (s : string) : outcome XMLElement :=
  if is_ascii s then
    let* (doc, _) := decode_from (S (String.length s)) s in
    Got doc
  else Unmodelled.

(** *** The parser *)

(** [isLineElement]. *)
Definition isLineElement (element : XMLElement) : bool :=
  existsb
    (fun attr =>
       String.eqb (Local (Attr_Name attr)) "class" &&
       Contains (Value attr) "ocr_line")
    (Attrs element).

(** [isWordElement]. *)
Definition isWordElement (element : XMLElement) : bool :=
  existsb
    (fun attr =>
       String.eqb (Local (Attr_Name attr)) "class" &&
       Contains (Value attr) "ocrx_word")
    (Attrs element).

Definition set_BBox (word : HOCRWord) (f : BBox -> BBox) : HOCRWord :=
  mkHOCRWord (HOCRWord_ID word) (HOCRWord_Text word) (f (HOCRWord_BBox word))
    (HOCRWord_Confidence word) (HOCRWord_LineID word).

Definition set_X1 (v : Z) (b : BBox) : BBox := mkBBox v (Y1 b) (X2 b) (Y2 b).
Definition set_Y1 (v : Z) (b : BBox) : BBox := mkBBox (X1 b) v (X2 b) (Y2 b).
Definition set_X2 (v : Z) (b : BBox) : BBox := mkBBox (X1 b) (Y1 b) v (Y2 b).
Definition set_Y2 (v : Z) (b : BBox) : BBox := mkBBox (X1 b) (Y1 b) (X2 b) v.

Definition set_Confidence (v : float64) (word : HOCRWord) : HOCRWord :=
  mkHOCRWord (HOCRWord_ID word) (HOCRWord_Text word) (HOCRWord_BBox word) v
    (HOCRWord_LineID word).

Definition set_ID (v : string) (word : HOCRWord) : HOCRWord :=
  mkHOCRWord v (HOCRWord_Text word) (HOCRWord_BBox word)
    (HOCRWord_Confidence word) (HOCRWord_LineID word).

Definition set_Text (v : string) (word : HOCRWord) : HOCRWord :=
  mkHOCRWord (HOCRWord_ID word) v (HOCRWord_BBox word)
    (HOCRWord_Confidence word) (HOCRWord_LineID word).

Definition set_LineID (v : string) (word : HOCRWord) : HOCRWord :=
  mkHOCRWord (HOCRWord_ID word) (HOCRWord_Text word) (HOCRWord_BBox word)
    (HOCRWord_Confidence word) v.

(** The errors of [parseTitleAttribute]. *)
Inductive TitleError :=
| InvalidX1 | InvalidY1 | InvalidX2 | InvalidY2 | InvalidConfidence.

(** [parseTitleAttribute]: the word as the function leaves it, and the
    error it returns.  A field is assigned before the error of its
    conversion is looked at. *)
Definition parseTitleAttribute (title : string) (word : HOCRWord)
  : HOCRWord * option TitleError :=
  let after_bbox : HOCRWord * option TitleError :=
    match find_bbox title with
    | Some (m1, m2, m3, m4) =>
        let '(v1, e1) := Atoi m1 in
        let word := set_BBox word (set_X1 v1) in
        match e1 with
        | Some _ => (word, Some InvalidX1)
        | None =>
        let '(v2, e2) := Atoi m2 in
        let word := set_BBox word (set_Y1 v2) in
        match e2 with
        | Some _ => (word, Some InvalidY1)
        | None =>
        let '(v3, e3) := Atoi m3 in
        let word := set_BBox word (set_X2 v3) in
        match e3 with
        | Some _ => (word, Some InvalidX2)
        | None =>
        let '(v4, e4) := Atoi m4 in
        let word := set_BBox word (set_Y2 v4) in
        match e4 with
        | Some _ => (word, Some InvalidY2)
        | None => (word, None)
        end end end end
    | None => (word, None)
    end in
  match after_bbox with
  | (word, Some e) => (word, Some e)
  | (word, None) =>
      match find_wconf title with
      | Some (d, f) =>
          let '(v, e) := ParseFloat d f in
          let word := set_Confidence v word in
          match e with
          | Some _ => (word, Some InvalidConfidence)
          | None => (word, None)
          end
      | None => (word, None)
      end
  end.

(** The loop of [parseWordElement] over the attributes. *)
Fixpoint parse_attrs (attrs : list Attr) (word : HOCRWord)
  : HOCRWord * option TitleError :=
  match attrs with
  | [] => (word, None)
  | attr :: rest =>
      if String.eqb (Local (Attr_Name attr)) "id" then
        parse_attrs rest (set_ID (Value attr) word)
      else if String.eqb (Local (Attr_Name attr)) "title" then
        match parseTitleAttribute (Value attr) word with
        | (word, Some e) => (word, Some e)
        | (word, None) => parse_attrs rest word
        end
      else parse_attrs rest word
  end.

(** [parseWordElement]. *)
Definition parseWordElement (element : XMLElement)
  : HOCRWord * option TitleError :=
  match parse_attrs (Attrs element) zero_HOCRWord with
  | (word, Some e) => (word, Some e)
  | (word, None) => (set_Text (TrimSpace (Content element)) word, None)
  end.

(** The value of the first [id] attribute, if any. *)
Fixpoint first_id (attrs : list Attr) : option string :=
  match attrs with
  | [] => None
  | attr :: rest =>
      if String.eqb (Local (Attr_Name attr)) "id" then Some (Value attr)
      else first_id rest
  end.

(** What [traverseElementsWithLineContext] does at the element itself: the
    line identifier its children are visited with, and the word it appends,
    if any. *)
Definition line_context (element : XMLElement) (currentLineID : string)
  : string :=
  if isLineElement element then
    match first_id (Attrs element) with
    | Some id => id
    | None => currentLineID
    end
  else currentLineID.

Definition word_here (element : XMLElement) (currentLineID : string)
  : list HOCRWord :=
  if isWordElement element then
    match parseWordElement element with
    | (word, None) =>
        if negb (String.eqb (HOCRWord_ID word) "")
        then [set_LineID currentLineID word]
        else []
    | (_, Some _) => []
    end
  else [].

(** [traverseElementsWithLineContext]: the words list after the visit. *)
Fixpoint traverseElementsWithLineContext (element : XMLElement)
    (words : list HOCRWord) (currentLineID : string) : list HOCRWord :=
  let currentLineID := line_context element currentLineID in
  let words := words ++ word_here element currentLineID in
  fold_left
    (fun words child =>
       traverseElementsWithLineContext child words currentLineID)
    (Children element) words.

(** [ParseHOCRWords]: [Got words] is [(words, nil)], [Fail] is [(nil, err)]. *)
Definition ParseHOCRWords (hocrXML : string) : outcome (list HOCRWord) :=
  let* doc := Decode hocrXML in
  Got (traverseElementsWithLineContext doc [] "").

End Parser.

(** ** The hOCR encoder ([internal/services/hocr/converter.go]) *)

Module Converter.
Import GoLib Models.

Definition nl : string := String (ascii_of_nat 10) EmptyString.

(** [fmt.Sprintf("bbox %d %d %d %d", ...)]. *)
Definition bbox_string (x1 y1 x2 y2 : Z) : string :=
  "bbox " +:+ itoa x1 +:+ " " +:+ itoa y1 +:+ " " +:+ itoa x2 +:+ " " +:+
  itoa y2.

(** *** Encoding a list of lines *)

(** [convertHOCRWordToXML]. *)
Definition convertHOCRWordToXML (word : HOCRWord) : string :=
  let bbox :=
    bbox_string (X1 (HOCRWord_BBox word)) (Y1 (HOCRWord_BBox word))
      (X2 (HOCRWord_BBox word)) (Y2 (HOCRWord_BBox word)) in
  let confidence := "; x_wconf " +:+ format_f0 (HOCRWord_Confidence word) in
  let title := bbox +:+ confidence in
  "<span class='ocrx_word' id='" +:+ HOCRWord_ID word +:+ "' title='" +:+
  title +:+ "'>" +:+ EscapeString (HOCRWord_Text word) +:+ "</span> ".

(** [convertHOCRLineToXML]. *)
Definition convertHOCRLineToXML (line : HOCRLine) : string :=
  let bbox :=
    bbox_string (X1 (HOCRLine_BBox line)) (Y1 (HOCRLine_BBox line))
      (X2 (HOCRLine_BBox line)) (Y2 (HOCRLine_BBox line)) in
  "<span class='ocr_line' id='" +:+ HOCRLine_ID line +:+ "' title='" +:+
  bbox +:+ "'>" +:+
  String.concat "" (map convertHOCRWordToXML (HOCRLine_Words line)) +:+
  "</span>" +:+ nl.



(** *** Encoding the recognizer's structure *)

Record Converter := mkConverter {
  pageCounter : Z;
  blockCounter : Z;
  paragraphCounter : Z;
  lineCounter : Z;
  wordCounter : Z
}.

(** [NewConverter]. *)
Definition NewConverter : Converter := mkConverter 1 1 1 1 1.

(** The loop of [boundingPolyToBBox] over the vertices. *)
Fixpoint bounds (vertices : list Vertex) (minX minY maxX maxY : Z)
  : Z * Z * Z * Z :=
  match vertices with
  | [] => (minX, minY, maxX, maxY)
  | vertex :: rest =>
      bounds rest
        (if (Vertex_X vertex <? minX)%Z then Vertex_X vertex else minX)
        (if (Vertex_Y vertex <? minY)%Z then Vertex_Y vertex else minY)
        (if (maxX <? Vertex_X vertex)%Z then Vertex_X vertex else maxX)
        (if (maxY <? Vertex_Y vertex)%Z then Vertex_Y vertex else maxY)
  end.

(** [boundingPolyToBBox]. *)
Definition boundingPolyToBBox (boundingPoly : BoundingPoly) : string :=
  match Vertices boundingPoly with
  | [] => "bbox 0 0 0 0"
  | vertices =>
      let '(minX, minY, maxX, maxY) :=
        bounds vertices maxInt64 maxInt64 0 0 in
      bbox_string minX minY maxX maxY
  end.

(** The text of a word: its symbols, concatenated. *)
Definition symbols_text (symbols : list Symbol) : string :=
  String.concat "" (map Symbol_Text symbols).

(** The break after a symbol is a line break. *)
Definition is_line_break (symbol : Symbol) : bool :=
  match Symbol_Property symbol with
  | Some property =>
      match Property_DetectedBreak property with
      | Some brk =>
          String.eqb (DetectedBreak_Type brk) "LINE_BREAK" ||
          String.eqb (DetectedBreak_Type brk) "EOL_SURE_SPACE"
      | None => false
      end
  | None => false
  end.

(** [convertWord]: the markup of the word and the converter with its word
    counter advanced. *)
Definition convertWord (h : Converter) (word : Word) : string * Converter :=
  let bbox := boundingPolyToBBox (Word_BoundingBox word) in
  let text := symbols_text (Word_Symbols word) in
  let confidence := "; x_wconf 95" in
  let lang :=
    match Word_Property word with
    | Some property =>
        match DetectedLanguages property with
        | language :: _ => "; x_lang " +:+ LanguageCode language
        | [] => ""
        end
    | None => ""
    end in
  let title := bbox +:+ confidence +:+ lang in
  let wordHOCR :=
    "<span class='ocrx_word' id='word_" +:+ itoa (wordCounter h) +:+
    "' title='" +:+ title +:+ "'>" +:+ EscapeString text +:+ "</span>" in
  let wordHOCR :=
    match last (map Some (Word_Symbols word)) None with
    | Some lastSymbol =>
        if negb (is_line_break lastSymbol) then wordHOCR +:+ " " else wordHOCR
    | None => wordHOCR
    end in
  (wordHOCR,
   mkConverter (pageCounter h) (blockCounter h) (paragraphCounter h)
     (lineCounter h) (wordCounter h + 1)).

End Converter.

(** ** The response of the recognizer ([internal/models/gcv.go]) *)

Module GCV.
Import GoLib Models.

Record TextAnnotation := mkTextAnnotation {
  Locale : string;
  Description : string;
  TextAnnotation_BoundingPoly : BoundingPoly
}.

Record Block := mkBlock {
  Block_BoundingBox : BoundingPoly;
  Paragraphs : list Paragraph;
  BlockType : string
}.

Record Page := mkPage {
  Page_Property : option Property;
  Page_Width : Z;
  Page_Height : Z;
  Blocks : list Block
}.

Record FullTextAnnotation := mkFullTextAnnotation {
  Pages : list Page;
  FullTextAnnotation_Text : string
}.

Record Response := mkResponse {
  TextAnnotations : list TextAnnotation;
  Response_FullTextAnnotation : option FullTextAnnotation
}.

Record GCVResponse := mkGCVResponse {
  Responses : list Response
}.

End GCV.

(** ** The encoder of the recognizer's structure into lines
    ([internal/services/hocr/converter.go], [ConvertToHOCRLines]) *)

Module LineConverter.
Import GoLib Models GCV.

(** The converter of this version: the two counters its methods advance.
    A method that advances a counter returns the converter with its
    result. *)
Record Converter := mkConverter {
  lineCounter : Z;
  wordCounter : Z
}.

(** [NewConverter]. *)
Definition NewConverter : Converter := mkConverter 1 1.

(** A returned [(value, error)] pair: the value, or the message of the
    error. *)
Inductive result (A : Type) : Type :=
| Ok (a : A)
| Err (message : string).
Arguments Ok {A} a.
Arguments Err {A} message.

(** The test of [groupWordsIntoLines] on the last symbol of a word. *)
Definition ends_line (word : Word) : bool :=
  match last (map Some (Word_Symbols word)) None with
  | Some lastSymbol => Converter.is_line_break lastSymbol
  | None => false
  end.

(** The loop of [groupWordsIntoLines]: [lines] are the lines closed so far,
    [currentLine] the words of the open one. *)
Fixpoint group_loop (words : list Word) (lines : list (list Word))
    (currentLine : list Word) : list (list Word) :=
  match words with
  | [] => lines
  | word :: rest =>
      let currentLine := currentLine ++ [word] in
      let shouldEndLine :=
        ends_line word || match rest with [] => true | _ :: _ => false end in
      if shouldEndLine then group_loop rest (lines ++ [currentLine]) []
      else group_loop rest lines currentLine
  end.

(** [groupWordsIntoLines]. *)
Definition groupWordsIntoLines (words : list Word) : list (list Word) :=
  match words with
  | [] => []
  | _ :: _ => group_loop words [] []
  end.

(** [boundingPolyToBBoxStruct]. *)
Definition boundingPolyToBBoxStruct (boundingPoly : BoundingPoly) : BBox :=
  match Vertices boundingPoly with
  | [] => mkBBox 0 0 0 0
  | vertices =>
      let '(minX, minY, maxX, maxY) :=
        Converter.bounds vertices maxInt64 maxInt64 0 0 in
      mkBBox minX minY maxX maxY
  end.

(** [calculateLineBBoxStruct]: the same loop, over the vertices of every
    word. *)
Definition calculateLineBBoxStruct (words : list Word) : BBox :=
  match words with
  | [] => mkBBox 0 0 0 0
  | _ :: _ =>
      let '(minX, minY, maxX, maxY) :=
        fold_left
          (fun '(minX, minY, maxX, maxY) word =>
             Converter.bounds (Vertices (Word_BoundingBox word))
               minX minY maxX maxY)
          words (maxInt64, maxInt64, 0%Z, 0%Z) in
      mkBBox minX minY maxX maxY
  end.

(** [x * 100] on [float64]: the product of a finite value is finite unless
    it reaches the overflow threshold. *)
Definition times100 (x : float64) : float64 :=
  match x with
  | Finite q =>
      let p := (q * 100)%Q in
      if Qle_bool (inject_Z float64_overflow) p then Inf false
      else if Qle_bool p (- inject_Z float64_overflow) then Inf true
      else Finite p
  | Inf negative => Inf negative
  | NaN => NaN
  end.

(** [convertGCVWordToHOCRWord]. *)
Definition convertGCVWordToHOCRWord (h : Converter) (gcvWord : Word)
    (lineID : string) : HOCRWord * Converter :=
  let text := Converter.symbols_text (Word_Symbols gcvWord) in
  let bbox := boundingPolyToBBoxStruct (Word_BoundingBox gcvWord) in
  let confidence :=
    match Word_Property gcvWord with
    | Some property =>
        match DetectedLanguages property with
        | language :: _ => times100 (DetectedLanguage_Confidence language)
        | [] => Finite 95
        end
    | None => Finite 95
    end in
  let wordID := "word_" +:+ itoa (wordCounter h) in
  (mkHOCRWord wordID text bbox confidence lineID,
   mkConverter (lineCounter h) (wordCounter h + 1)).

(** The loop over the words of a group. *)
Fixpoint convert_words (h : Converter) (wordsGroup : list Word)
    (lineID : string) : list HOCRWord * Converter :=
  match wordsGroup with
  | [] => ([], h)
  | gcvWord :: rest =>
      let '(hocrWord, h1) := convertGCVWordToHOCRWord h gcvWord lineID in
      let '(hocrWords, h2) := convert_words h1 rest lineID in
      (hocrWord :: hocrWords, h2)
  end.

(** The loop of [convertParagraphToLines] over the groups. *)
Fixpoint convert_groups (h : Converter) (wordsGroups : list (list Word))
  : list HOCRLine * Converter :=
  match wordsGroups with
  | [] => ([], h)
  | wordsGroup :: rest =>
      match wordsGroup with
      | [] => convert_groups h rest
      | _ :: _ =>
          let lineID := "line_" +:+ itoa (lineCounter h) in
          let lineBBox := calculateLineBBoxStruct wordsGroup in
          let '(hocrWords, h1) := convert_words h wordsGroup lineID in
          let line := mkHOCRLine lineID lineBBox hocrWords in
          let h2 := mkConverter (lineCounter h1 + 1) (wordCounter h1) in
          let '(lines, h3) := convert_groups h2 rest in
          (line :: lines, h3)
      end
  end.

(** [convertParagraphToLines]. *)
Definition convertParagraphToLines (h : Converter) (paragraph : Paragraph)
  : list HOCRLine * Converter :=
  convert_groups h (groupWordsIntoLines (Paragraph_Words paragraph)).

(** [convertBlockToLines]. *)
Fixpoint convert_paragraphs (h : Converter) (paragraphs : list Paragraph)
  : list HOCRLine * Converter :=
  match paragraphs with
  | [] => ([], h)
  | paragraph :: rest =>
      let '(paragraphLines, h1) := convertParagraphToLines h paragraph in
      let '(allLines, h2) := convert_paragraphs h1 rest in
      (paragraphLines ++ allLines, h2)
  end.

Definition convertBlockToLines (h : Converter) (block : Block)
  : list HOCRLine * Converter :=
  convert_paragraphs h (Paragraphs block).

(** [convertPageToLines]: the blocks of type [TEXT] only. *)
Fixpoint convert_blocks (h : Converter) (blocks : list Block)
  : list HOCRLine * Converter :=
  match blocks with
  | [] => ([], h)
  | block :: rest =>
      if String.eqb (BlockType block) "TEXT" then
        let '(blockLines, h1) := convertBlockToLines h block in
        let '(allLines, h2) := convert_blocks h1 rest in
        (blockLines ++ allLines, h2)
      else convert_blocks h rest
  end.

Definition convertPageToLines (h : Converter) (page : Page)
  : list HOCRLine * Converter :=
  convert_blocks h (Blocks page).

Fixpoint convert_pages (h : Converter) (pages : list Page)
  : list HOCRLine * Converter :=
  match pages with
  | [] => ([], h)
  | page :: rest =>
      let '(pageLines, h1) := convertPageToLines h page in
      let '(allLines, h2) := convert_pages h1 rest in
      (pageLines ++ allLines, h2)
  end.

(** [ConvertToHOCRLines]. *)
Definition ConvertToHOCRLines (h : Converter) (gcvResponse : GCVResponse)
  : result (list HOCRLine) * Converter :=
  match Responses gcvResponse with
  | [] => (Err "no responses found in GCV data", h)
  | response :: _ =>
      match Response_FullTextAnnotation response with
      | None => (Err "no full text annotation found", h)
      | Some annotation =>
          let '(allLines, h1) := convert_pages h (Pages annotation) in
          (Ok allLines, h1)
      end
  end.


End LineConverter.

(** ** From regions to words, lines and paragraphs
    ([internal/services/ocr/worddetection.go]) *)

Module WordDetection.
Import GoLib Models GCV Detector.

#[local] Open Scope Z_scope.

(** [abs]. *)
Definition abs (x : Z) : Z := if x <? 0 then - x else x.

(** [mergeComponents]: the box around the boxes. *)
Definition mergeComponents (components : list BoundingBox) : BoundingBox :=
  match components with
  | [] => mkBoundingBox 0 0 0 0
  | first :: rest =>
      let '(minX, minY, maxX, maxY) :=
        fold_left
          (fun '(minX, minY, maxX, maxY) comp =>
             (if X comp <? minX then X comp else minX,
              if Y comp <? minY then Y comp else minY,
              if maxX <? X comp + Width comp then X comp + Width comp
              else maxX,
              if maxY <? Y comp + Height comp then Y comp + Height comp
              else maxY))
          rest
          (X first, Y first, X first + Width first, Y first + Height first) in
      mkBoundingBox minX minY (maxX - minX) (maxY - minY)
  end.

(** The comparison of the sort of the components: by [Y], then by [X]. *)
Definition less_YX_box (a b : BoundingBox) : bool :=
  if Y a =? Y b then X a <? X b else Y a <? Y b.

(** The average height of the components of the current word; the division
    of [int] truncates. *)
Definition average_height (current : list BoundingBox) : Z :=
  fold_left (fun avgHeight comp => avgHeight + Height comp) current 0
    `quot` Z.of_nat (List.length current).

(** The test that adds a component to the current word, which is not
    empty. *)
Definition same_word (current : list BoundingBox) (component : BoundingBox)
  : bool :=
  let avgHeight := average_height current in
  let lastComponent := last current (mkBoundingBox 0 0 0 0) in
  let yDiff := abs (Y component - Y lastComponent) in
  let xGap := X component - (X lastComponent + Width lastComponent) in
  let heightDiff := abs (Height component - avgHeight) in
  (yDiff <=? avgHeight `quot` 2) && (xGap <=? avgHeight * 4) &&
  (heightDiff <=? avgHeight).

(** The loop of [groupComponentsIntoWords]: the word boxes finished so far
    and the components of the current word. *)
Fixpoint words_loop (components : list BoundingBox)
    (wordBoxes current : list BoundingBox)
  : list BoundingBox * list BoundingBox :=
  match components with
  | [] => (wordBoxes, current)
  | component :: rest =>
      match current with
      | [] => words_loop rest wordBoxes [component]
      | _ :: _ =>
          if same_word current component
          then words_loop rest wordBoxes (current ++ [component])
          else words_loop rest (wordBoxes ++ [mergeComponents current])
                 [component]
      end
  end.

(** The word a box becomes in [convertToGCVResponse]: the box as a polygon,
    and one symbol with a placeholder text, followed by a space. *)
Definition box_word (i : nat) (box : BoundingBox) : Word :=
  mkWord None (mkBoundingPoly (box_vertices box))
    [mkSymbol
       (Some (mkProperty [] (Some (mkDetectedBreak "SPACE"))))
       (mkBoundingPoly (box_vertices box))
       ("word_" +:+ itoa (Z.of_nat i + 1))].

Fixpoint box_words (i : nat) (wordBoxes : list BoundingBox) : list Word :=
  match wordBoxes with
  | [] => []
  | box :: rest => box_word i box :: box_words (S i) rest
  end.

(** [flattenLines]. *)
Definition flattenLines (lines : list (list Word)) : list Word :=
  List.concat lines.

(** The loop of [createParagraphFromWords] over the words after the first;
    [None] is an index out of range. *)
Fixpoint paragraph_bounds (words : list Word) (minX minY maxX maxY : Z)
  : option (Z * Z * Z * Z) :=
  match words with
  | [] => Some (minX, minY, maxX, maxY)
  | word :: rest =>
      match vertex word 0, vertex word 2 with
      | Some v0, Some v2 =>
          paragraph_bounds rest
            (if Vertex_X v0 <? minX then Vertex_X v0 else minX)
            (if Vertex_Y v0 <? minY then Vertex_Y v0 else minY)
            (if maxX <? Vertex_X v2 then Vertex_X v2 else maxX)
            (if maxY <? Vertex_Y v2 then Vertex_Y v2 else maxY)
      | _, _ => None
      end
  end.

(** [createParagraphFromWords]. *)
Definition createParagraphFromWords (words : list Word) : option Paragraph :=
  match words with
  | [] => Some (mkParagraph (mkBoundingPoly []) [])
  | first :: rest =>
      match vertex first 0, vertex first 2 with
      | Some v0, Some v2 =>
          match paragraph_bounds rest (Vertex_X v0) (Vertex_Y v0)
                  (Vertex_X v2) (Vertex_Y v2) with
          | Some (minX, minY, maxX, maxY) =>
              Some (mkParagraph
                      (mkBoundingPoly
                         [mkVertex minX minY; mkVertex maxX minY;
                          mkVertex maxX maxY; mkVertex minX maxY])
                      words)
          | None => None
          end
      | _, _ => None
      end
  end.

(** The three loops of [groupLinesIntoParagraphs] over the words of a
    line: the largest bottom, the smallest top and the largest height. *)
Fixpoint last_line_bottom (lastLine : list Word) (lastLineBottom : Z)
  : option Z :=
  match lastLine with
  | [] => Some lastLineBottom
  | word :: rest =>
      match vertex word 2 with
      | Some v2 =>
          last_line_bottom rest
            (if lastLineBottom <? Vertex_Y v2 then Vertex_Y v2
             else lastLineBottom)
      | None => None
      end
  end.

Fixpoint current_line_top (line : list Word) (currentLineTop : Z) : option Z :=
  match line with
  | [] => Some currentLineTop
  | word :: rest =>
      match vertex word 0 with
      | Some v0 =>
          current_line_top rest
            (if Vertex_Y v0 <? currentLineTop then Vertex_Y v0
             else currentLineTop)
      | None => None
      end
  end.

Fixpoint line_height (line : list Word) (lineHeight : Z) : option Z :=
  match line with
  | [] => Some lineHeight
  | word :: rest =>
      match vertex word 2, vertex word 0 with
      | Some v2, Some v0 =>
          let wordHeight := Vertex_Y v2 - Vertex_Y v0 in
          line_height rest
            (if lineHeight <? wordHeight then wordHeight else lineHeight)
      | _, _ => None
      end
  end.

(** The end of a paragraph: its lines flattened and, unless they have no
    word, made a paragraph that is appended. *)
Definition close_paragraph (paragraphs : list Paragraph)
    (currentParagraphLines : list (list Word)) : option (list Paragraph) :=
  match flattenLines currentParagraphLines with
  | [] => Some paragraphs
  | paragraphWords =>
      match createParagraphFromWords paragraphWords with
      | Some paragraph => Some (paragraphs ++ [paragraph])
      | None => None
      end
  end.

(** The test that starts a new paragraph at [line], after [lastLine]; both
    have words. *)
Definition starts_paragraph (lastLine line : list Word) : option bool :=
  match last_line_bottom lastLine 0 with
  | None => None
  | Some lastLineBottom =>
      match line with
      | [] => None
      | first :: _ =>
          match vertex first 0 with
          | None => None
          | Some v0 =>
              match current_line_top line (Vertex_Y v0) with
              | None => None
              | Some currentLineTop =>
                  match line_height line 0 with
                  | None => None
                  | Some lineHeight =>
                      let verticalGap := currentLineTop - lastLineBottom in
                      Some (lineHeight * 2 <? verticalGap)
                  end
              end
          end
      end
  end.

(** The loop of [groupLinesIntoParagraphs]. *)
Fixpoint paragraphs_loop (lines : list (list Word))
    (paragraphs : list Paragraph) (currentParagraphLines : list (list Word))
  : option (list Paragraph * list (list Word)) :=
  match lines with
  | [] => Some (paragraphs, currentParagraphLines)
  | line :: rest =>
      match line with
      | [] => paragraphs_loop rest paragraphs currentParagraphLines
      | _ :: _ =>
          match last (map Some currentParagraphLines) None with
          | None =>
              paragraphs_loop rest paragraphs (currentParagraphLines ++ [line])
          | Some [] =>
              paragraphs_loop rest paragraphs (currentParagraphLines ++ [line])
          | Some lastLine =>
              match starts_paragraph lastLine line with
              | None => None
              | Some true =>
                  match close_paragraph paragraphs currentParagraphLines with
                  | Some paragraphs' => paragraphs_loop rest paragraphs' [line]
                  | None => None
                  end
              | Some false =>
                  paragraphs_loop rest paragraphs
                    (currentParagraphLines ++ [line])
              end
          end
      end
  end.

(** [groupLinesIntoParagraphs]; [None] is a run-time panic. *)
Definition groupLinesIntoParagraphs (lines : list (list Word))
  : option (list Paragraph) :=
  match lines with
  | [] => Some []
  | _ :: _ =>
      match paragraphs_loop lines [] [] with
      | Some (paragraphs, currentParagraphLines) =>
          match currentParagraphLines with
          | [] => Some paragraphs
          | _ :: _ => close_paragraph paragraphs currentParagraphLines
          end
      | None => None
      end
  end.

Section WithSort.
Variable sort_Slice : sorter.

(** [groupComponentsIntoWords]. *)
Definition groupComponentsIntoWords (components : list BoundingBox)
    (imgWidth imgHeight : Z) : list BoundingBox :=
  match components with
  | [] => components
  | _ :: _ =>
      let sorted := sort_Slice BoundingBox less_YX_box components in
      let '(wordBoxes, currentWordComponents) := words_loop sorted [] [] in
      match currentWordComponents with
      | [] => wordBoxes
      | _ :: _ => wordBoxes ++ [mergeComponents currentWordComponents]
      end
  end.

(** [groupWordsIntoParagraphs]. *)
Definition groupWordsIntoParagraphs (words : list Word)
  : option (list Paragraph) :=
  match words with
  | [] => Some []
  | _ :: _ =>
      match Detector.groupWordsIntoLines sort_Slice words with
      | Some lines => groupLinesIntoParagraphs lines
      | None => None
      end
  end.

(** [convertToGCVResponse]. *)
Definition convertToGCVResponse (wordBoxes : list BoundingBox)
    (width height : Z) : option GCVResponse :=
  let words := box_words 0 wordBoxes in
  match groupWordsIntoParagraphs words with
  | Some paragraphs =>
      let block :=
        mkBlock
          (mkBoundingPoly
             [mkVertex 0 0; mkVertex width 0; mkVertex width height;
              mkVertex 0 height])
          paragraphs "TEXT" in
      let page := mkPage None width height [block] in
      Some (mkGCVResponse
              [mkResponse []
                 (Some (mkFullTextAnnotation [page]
                          "Custom word detection - text regions identified"))])
  | None => None
  end.

End WithSort.

End WordDetection.

(** * Properties of the accuracy scorer *)

Module MetricsFacts.
Import GoLib Metrics.

#[local] Open Scope nat_scope.

(** *** The filled table satisfies the recurrence of its loop body *)
Section TableFacts.
Context {A : Type}.
Variable cell : A -> A -> nat -> nat -> nat -> nat.
Variable d : A.

Lemma fill_row_length (a : A) (s2 : list A) :
  forall prev left,
    List.length prev = S (List.length s2) ->
    List.length (fill_row cell a s2 prev left) = List.length s2.
Proof.
  induction s2 as [|b s2 IH]; intros [|diag prev] left Hlen;
    simpl in *; try lia.
  rewrite IH; lia.
Qed.

Lemma fill_row_nth (a : A) (s2 : list A) :
  forall prev left j,
    List.length prev = S (List.length s2) ->
    j < List.length s2 ->
    nth (S j) (left :: fill_row cell a s2 prev left) 0 =
    cell a (nth j s2 d) (nth (S j) prev 0)
      (nth j (left :: fill_row cell a s2 prev left) 0) (nth j prev 0).
Proof.
  induction s2 as [|b s2 IH]; intros prev left j Hlen Hj;
    simpl in Hj; [lia|].
  destruct prev as [|diag [|up prev]]; simpl in Hlen; try lia.
  destruct j as [|j].
  - reflexivity.
  - change (fill_row cell a (b :: s2) (diag :: up :: prev) left)
      with (let v := cell a b up left diag in
            v :: fill_row cell a s2 (up :: prev) v).
    cbv zeta.
    change (nth (S (S j)) (left :: ?v :: ?r) 0) with (nth (S j) (v :: r) 0).
    rewrite (IH (up :: prev) _ j); [reflexivity | simpl; lia | lia].
Qed.

Lemma rows_step (s2 : list A) :
  forall s1 i0 prev i,
    i < List.length s1 ->
    nth (S i) (prev :: fill_rows cell i0 s1 s2 prev) [] =
    (i0 + i) ::
      fill_row cell (nth i s1 d) s2
        (nth i (prev :: fill_rows cell i0 s1 s2 prev) []) (i0 + i).
Proof.
  induction s1 as [|a s1 IH]; intros i0 prev i Hi; simpl in Hi; [lia|].
  destruct i as [|i].
  - simpl. now rewrite Nat.add_0_r.
  - change (nth (S (S i)) (prev :: fill_rows cell i0 (a :: s1) s2 prev) [])
      with (nth (S i)
              ((i0 :: fill_row cell a s2 prev i0) ::
               fill_rows cell (S i0) s1 s2 (i0 :: fill_row cell a s2 prev i0))
              []).
    rewrite IH by lia.
    now replace (S i0 + i) with (i0 + S i) by lia.
Qed.

Lemma table_row_S (s1 s2 : list A) (i : nat) :
  i < List.length s1 ->
  nth (S i) (table cell s1 s2) [] =
  S i :: fill_row cell (nth i s1 d) s2 (nth i (table cell s1 s2) []) (S i).
Proof.
  intros Hi. unfold table. now rewrite rows_step.
Qed.

Lemma table_row_length (s1 s2 : list A) (i : nat) :
  i <= List.length s1 ->
  List.length (nth i (table cell s1 s2) []) = S (List.length s2).
Proof.
  induction i as [|i IH]; intros Hi.
  - unfold table. simpl. now rewrite length_seq.
  - rewrite table_row_S by lia. simpl.
    rewrite fill_row_length; [reflexivity | apply IH; lia].
Qed.

(** [matrix[0][j] = j]. *)
Lemma at_row0 (s1 s2 : list A) (j : nat) :
  j <= List.length s2 -> at_ (table cell s1 s2) 0 j = j.
Proof.
  intros Hj. unfold at_, table.
  change (nth 0 (?r :: _) []) with r.
  rewrite seq_nth; lia.
Qed.

(** [matrix[i][0] = i]. *)
Lemma at_col0 (s1 s2 : list A) (i : nat) :
  i <= List.length s1 -> at_ (table cell s1 s2) i 0 = i.
Proof.
  intros Hi. destruct i as [|i].
  - apply at_row0; lia.
  - unfold at_. now rewrite table_row_S by lia.
Qed.

(** The loop body, read back from the filled matrix. *)
Lemma at_step (s1 s2 : list A) (i j : nat) :
  i < List.length s1 -> j < List.length s2 ->
  at_ (table cell s1 s2) (S i) (S j) =
  cell (nth i s1 d) (nth j s2 d)
    (at_ (table cell s1 s2) i (S j))
    (at_ (table cell s1 s2) (S i) j)
    (at_ (table cell s1 s2) i j).
Proof.
  intros Hi Hj. unfold at_.
  rewrite table_row_S by lia.
  rewrite fill_row_nth; [reflexivity | | lia].
  apply table_row_length; lia.
Qed.
End TableFacts.

(** *** The backtracking loop always takes a branch *)
Section BacktrackFacts.
Variables orig trans : list string.
Let dp := table word_cell orig trans.
Let m := List.length orig.
Let n := List.length trans.

Lemma choose_op_some (i j : nat) :
  i <= m -> j <= n -> 0 < i + j ->
  exists op, choose_op orig trans dp i j = Some op.
Proof.
  intros Hi Hj Hpos. unfold choose_op.
  destruct (admissible orig trans dp OpMatch i j) eqn:Hm; [eauto|].
  destruct (admissible orig trans dp OpSubst i j) eqn:Hs; [eauto|].
  destruct (admissible orig trans dp OpDel i j) eqn:Hd; [eauto|].
  destruct (admissible orig trans dp OpIns i j) eqn:Hin; [eauto|].
  exfalso. unfold admissible in *. subst dp m n.
  destruct i as [|i], j as [|j]; try lia.
  - (* row 0 *)
    simpl in Hin. rewrite !at_row0 in Hin by lia.
    apply Nat.eqb_neq in Hin. lia.
  - (* column 0 *)
    simpl in Hd. rewrite !(at_col0 word_cell "") in Hd by lia.
    apply Nat.eqb_neq in Hd. lia.
  - simpl in Hm, Hs, Hd, Hin.
    rewrite !Nat.sub_0_r in *.
    rewrite (at_step word_cell "") in Hs, Hd, Hin by lia.
    unfold word_cell, word_at in *. rewrite Hm in *.
    apply Nat.eqb_neq in Hs, Hd, Hin. lia.
Qed.

(** With [i + j] iterations left the loop ends, and it has counted [i]
    steps that consume a word of the original and [j] steps that consume
    a word of the transcript. *)
Lemma backtrack_total (fuel : nat) :
  forall i j co su de ins,
    i <= m -> j <= n -> i + j <= fuel ->
    exists co' su' de' ins',
      backtrack orig trans dp fuel i j (co, su, de, ins) =
        Some (co', su', de', ins') /\
      co' + su' + de' = co + su + de + i /\
      co' + su' + ins' = co + su + ins + j.
Proof.
  induction fuel as [|fuel IH]; intros i j co su de ins Hi Hj Hf.
  - assert (i = 0) by lia. assert (j = 0) by lia. subst.
    simpl. exists co, su, de, ins. repeat split; lia.
  - destruct (Nat.eq_dec (i + j) 0) as [Hz|Hnz].
    + assert (i = 0) by lia. assert (j = 0) by lia. subst.
      simpl. exists co, su, de, ins. repeat split; lia.
    + assert (Hloop : ((0 <? i) || (0 <? j)) = true).
      { destruct i, j; simpl; try reflexivity; lia. }
      destruct (choose_op_some i j Hi Hj ltac:(lia)) as [op Hop].
      cbn [backtrack]. rewrite Hloop, Hop.
      assert (Hadm : admissible orig trans dp op i j = true).
      { unfold choose_op in Hop.
        repeat match type of Hop with
               | (if ?b then _ else _) = _ =>
                   let E := fresh in destruct b eqn:E
               end; inversion Hop; subst; assumption. }
      destruct op; unfold admissible in Hadm;
        repeat (apply andb_true_iff in Hadm; destruct Hadm as [Hadm ?]);
        repeat match goal with
               | H : (0 <? _) = true |- _ => apply Nat.ltb_lt in H
               end.
      * destruct (IH (i - 1) (j - 1) (S co) su de ins)
          as (a & b & c & e & -> & ? & ?); try lia.
        exists a, b, c, e. repeat split; lia.
      * destruct (IH (i - 1) (j - 1) co (S su) de ins)
          as (a & b & c & e & -> & ? & ?); try lia.
        exists a, b, c, e. repeat split; lia.
      * destruct (IH (i - 1) j co su (S de) ins)
          as (a & b & c & e & -> & ? & ?); try lia.
        exists a, b, c, e. repeat split; lia.
      * destruct (IH i (j - 1) co su de (S ins))
          as (a & b & c & e & -> & ? & ?); try lia.
        exists a, b, c, e. repeat split; lia.
Qed.
End BacktrackFacts.

End MetricsFacts.

(** * The accuracy scorer: results *)

Module MetricsClaims.
Import GoLib Metrics MetricsFacts.

#[local] Open Scope nat_scope.

(** [totalEdits] of a result. *)
Definition total_edits (r : EvalResult) : nat :=
  Substitutions r + Deletions r + Insertions r.

(** The word error rate [calculateWordLevelMetrics] computes. *)
Definition wer_of (edits m : nat) : float :=
  if 0 <? m then (float64_of edits / float64_of m)%float else 0%float.

(** Two binary64 numbers that the comparison of floats tells apart are
    different. *)
Lemma float_eqb_neq (a b : float) :
  PrimFloat.eqb b b = true -> PrimFloat.eqb a b = false -> a <> b.
Proof. intros Hb Hab E. rewrite E in Hab. congruence. Qed.

(** The scorer returns a result for every pair of strings, built from the
    counters of the backtracking loop. *)
Lemma CalculateAccuracyMetrics_shape (original transcribed : string) :
  let origWords := Fields (normalizeText original) in
  let transWords := Fields (normalizeText transcribed) in
  exists r : EvalResult,
    CalculateAccuracyMetrics original transcribed = Some r /\
    TotalWordsOriginal r = List.length origWords /\
    TotalWordsTranscribed r = List.length transWords /\
    CorrectWords r + Substitutions r + Deletions r = List.length origWords /\
    CorrectWords r + Substitutions r + Insertions r = List.length transWords /\
    WordAccuracy r =
      (1 - wer_of (total_edits r) (List.length origWords))%float /\
    WordErrorRate r = (1 - WordAccuracy r)%float /\
    CharacterSimilarity r =
      calculateSimilarity (normalizeText original) (normalizeText transcribed).
Proof.
  intros origWords transWords.
  unfold CalculateAccuracyMetrics, calculateWordLevelMetrics.
  fold origWords transWords.
  destruct (backtrack_total origWords transWords
              (List.length origWords + List.length transWords)
              (List.length origWords) (List.length transWords) 0 0 0 0)
    as (co & su & de & ins & Hbt & Ho & Ht); try lia.
  rewrite Hbt. eexists. split; [reflexivity|].
  cbn [TotalWordsOriginal TotalWordsTranscribed CorrectWords Substitutions
       Deletions Insertions WordAccuracy WordErrorRate CharacterSimilarity].
  unfold total_edits, wer_of.
  cbn [Substitutions Deletions Insertions].
  repeat split; lia.
Qed.

(** C9.  For every pair of input strings the scorer returns a result whose
    counters account for every word: correct, substituted and deleted words
    add up to the words of the original, and correct, substituted and
    inserted words add up to the words of the transcript. *)
Theorem counters_partition_both_word_lists (original transcribed : string) :
  exists r : EvalResult,
    CalculateAccuracyMetrics original transcribed = Some r /\
    CorrectWords r + Substitutions r + Deletions r = TotalWordsOriginal r /\
    CorrectWords r + Substitutions r + Insertions r = TotalWordsTranscribed r.
Proof.
  destruct (CalculateAccuracyMetrics_shape original transcribed)
    as (r & Hr & Ho & Ht & Hco & Hct & _).
  exists r. rewrite Ho, Ht. auto.
Qed.

(** The word accuracy as the claim C2 states it, for all inputs. *)
Definition claimed_word_accuracy (r : EvalResult) : float :=
  (1 - float64_of (total_edits r) /
       float64_of (Nat.max 1 (TotalWordsOriginal r)))%float.

(** C2, as stated, fails: for an original without words and the transcript
    [a] the scorer counts one insertion and reports word accuracy 1, where
    the stated formula gives 0. *)
Lemma word_accuracy_formula_fails_on_empty_original :
  exists r : EvalResult,
    CalculateAccuracyMetrics "" "a" = Some r /\
    TotalWordsOriginal r = 0 /\ Insertions r = 1 /\
    WordAccuracy r = 1%float /\
    claimed_word_accuracy r = 0%float /\
    WordAccuracy r <> claimed_word_accuracy r.
Proof.
  eexists. split; [vm_compute; reflexivity|].
  repeat split; try reflexivity.
  apply float_eqb_neq; reflexivity.
Qed.

(** C2, amended.  The word accuracy is [1 - edits / max(1, words of the
    original)] whenever the normalized original has a word or the transcript
    has none; for an original without words it is 1 whatever the transcript;
    and the word error rate is always [1 - word accuracy].  The numbers are
    those of binary64. *)
Theorem word_accuracy_formula_guarded (original transcribed : string) :
  exists r : EvalResult,
    CalculateAccuracyMetrics original transcribed = Some r /\
    (0 < TotalWordsOriginal r \/ TotalWordsTranscribed r = 0 ->
     WordAccuracy r = claimed_word_accuracy r) /\
    (TotalWordsOriginal r = 0 -> WordAccuracy r = 1%float) /\
    WordErrorRate r = (1 - WordAccuracy r)%float.
Proof.
  destruct (CalculateAccuracyMetrics_shape original transcribed)
    as (r & Hr & Ho & Ht & Hco & Hct & Hacc & Hwer & _).
  exists r. split; [exact Hr|].
  rewrite Hwer, Hacc. unfold claimed_word_accuracy, wer_of.
  rewrite Ho, Ht. clear Hr Hacc Hwer Ho Ht.
  set (m := List.length (Fields (normalizeText original))) in *.
  set (n := List.length (Fields (normalizeText transcribed))) in *.
  split; [|split].
  - intros [Hm | Hn].
    + rewrite Nat.max_r by lia.
      destruct (Nat.ltb_spec 0 m); [reflexivity | lia].
    + destruct (Nat.ltb_spec 0 m) as [Hm | Hm].
      * rewrite Nat.max_r by lia. reflexivity.
      * assert (He : total_edits r = 0) by (unfold total_edits; lia).
        rewrite He. replace m with 0 by lia. reflexivity.
  - intros ->. reflexivity.
  - reflexivity.
Qed.

Lemma word_accuracy_formula_guarded_witness :
  exists r : EvalResult,
    CalculateAccuracyMetrics "the cat" "the cat sat" = Some r /\
    WordAccuracy r = 0.5%float /\ WordErrorRate r = 0.5%float.
Proof.
  destruct (word_accuracy_formula_guarded "the cat" "the cat sat")
    as (r & Hr & Hacc & _ & Hwer).
  exists r. split; [exact Hr|].
  vm_compute in Hr. injection Hr as <-.
  split; reflexivity.
Defined.

(** C3.  Two empty strings score character similarity 1, word accuracy 1
    and word error rate 0; and whenever the normalized original has no word
    the word error rate is 0. *)
Theorem empty_original_scores_zero_error :
  (exists r : EvalResult,
     CalculateAccuracyMetrics "" "" = Some r /\
     CharacterSimilarity r = 1%float /\
     WordAccuracy r = 1%float /\
     WordErrorRate r = 0%float) /\
  (forall original transcribed : string,
     Fields (normalizeText original) = [] ->
     exists r : EvalResult,
       CalculateAccuracyMetrics original transcribed = Some r /\
       WordErrorRate r = 0%float).
Proof.
  split.
  - eexists. split; [vm_compute; reflexivity|].
    repeat split; reflexivity.
  - intros original transcribed Hnil.
    destruct (CalculateAccuracyMetrics_shape original transcribed)
      as (r & Hr & _ & _ & _ & _ & Hacc & Hwer & _).
    exists r. split; [exact Hr|].
    rewrite Hwer, Hacc, Hnil. reflexivity.
Qed.

Lemma empty_original_scores_zero_error_witness :
  Fields (normalizeText "  ") = [] /\
  exists r : EvalResult,
    CalculateAccuracyMetrics "  " "a b" = Some r /\
    WordErrorRate r = 0%float.
Proof.
  split; [reflexivity|].
  apply (proj2 empty_original_scores_zero_error "  " "a b").
  reflexivity.
Defined.

(** The precedence the specification documents for the backtracking:
    match, then substitution, then deletion, then insertion. *)
Definition precedence (op : EditOp) : nat :=
  match op with
  | OpMatch => 0
  | OpSubst => 1
  | OpDel => 2
  | OpIns => 3
  end.

Lemma choose_op_first_admissible
    (orig trans : list string) (dp : list (list nat)) (i j : nat)
    (op : EditOp) :
  choose_op orig trans dp i j = Some op ->
  admissible orig trans dp op i j = true /\
  forall op' : EditOp,
    admissible orig trans dp op' i j = true -> precedence op <= precedence op'.
Proof.
  unfold choose_op.
  destruct (admissible orig trans dp OpMatch i j) eqn:Hm;
    [|destruct (admissible orig trans dp OpSubst i j) eqn:Hs;
      [|destruct (admissible orig trans dp OpDel i j) eqn:Hd;
        [|destruct (admissible orig trans dp OpIns i j) eqn:Hin]]];
    intros Hop; inversion Hop; subst; clear Hop;
    (split; [assumption|]);
    intros [] Hadm; simpl; try lia; congruence.
Qed.

(** The binary64 number nearest to 2/3, which is what [2.0 / 3.0]
    evaluates to. *)
Definition two_thirds : float := (2 / 3)%float.

(** C4, as stated, fails in its last figure: the word accuracy of the
    example is the binary64 value of [1.0 - 1.0/3.0], whose significand is
    6004799503160662 at exponent -53.  That is neither the binary64 number
    nearest to 2/3 (significand 6004799503160661) nor the rational 2/3:
    three times the significand exceeds [2 * 2^53] by 2. *)
Lemma cat_dog_word_accuracy_is_not_two_thirds :
  exists r : EvalResult,
    CalculateAccuracyMetrics "the cat sat" "the dog sat" = Some r /\
    Prim2SF (WordAccuracy r) = S754_finite false 6004799503160662 (-53) /\
    Prim2SF two_thirds = S754_finite false 6004799503160661 (-53) /\
    WordAccuracy r <> two_thirds /\
    (3 * 6004799503160662 - 2 * 2 ^ 53 = 2)%Z.
Proof.
  eexists. split; [vm_compute; reflexivity|].
  split; [vm_compute; reflexivity|].
  split; [vm_compute; reflexivity|].
  split; [apply float_eqb_neq; vm_compute; reflexivity | reflexivity].
Qed.

(** C4, amended.  The original [the cat sat] against the transcript
    [the dog sat] scores one substitution, no deletion, no insertion and
    two correct words; its word accuracy is the binary64 value of
    [1.0 - 1.0/3.0], which is 6004799503160662 * 2^-53, one unit in the last
    place above the binary64 number nearest to 2/3.  At every position the
    backtracking takes the admissible step that comes first in the order
    match, substitution, deletion, insertion; for [a b] against [b a]
    substitution, deletion and insertion all reach the table value at the
    last cell, and the loop counts two substitutions. *)
Theorem cat_dog_counts_and_fixed_precedence :
  (exists r : EvalResult,
     CalculateAccuracyMetrics "the cat sat" "the dog sat" = Some r /\
     Substitutions r = 1 /\ Deletions r = 0 /\ Insertions r = 0 /\
     CorrectWords r = 2 /\
     WordAccuracy r = (1 - 1 / 3)%float /\
     Prim2SF (WordAccuracy r) = S754_finite false 6004799503160662 (-53) /\
     Prim2SF two_thirds = S754_finite false 6004799503160661 (-53)) /\
  (forall (orig trans : list string) (i j : nat) (op : EditOp),
     let dp := table word_cell orig trans in
     choose_op orig trans dp i j = Some op ->
     admissible orig trans dp op i j = true /\
     forall op' : EditOp,
       admissible orig trans dp op' i j = true ->
       precedence op <= precedence op') /\
  (let orig := ["a"; "b"] in
   let trans := ["b"; "a"] in
   let dp := table word_cell orig trans in
   admissible orig trans dp OpSubst 2 2 = true /\
   admissible orig trans dp OpDel 2 2 = true /\
   admissible orig trans dp OpIns 2 2 = true /\
   choose_op orig trans dp 2 2 = Some OpSubst /\
   exists r : EvalResult,
     CalculateAccuracyMetrics "a b" "b a" = Some r /\
     Substitutions r = 2 /\ Deletions r = 0 /\ Insertions r = 0).
Proof.
  split; [|split].
  - eexists. split; [vm_compute; reflexivity|].
    repeat split; vm_compute; reflexivity.
  - intros orig trans i j op dp. apply choose_op_first_admissible.
  - cbv zeta. repeat split; try reflexivity.
    eexists. split; [vm_compute; reflexivity|].
    repeat split; reflexivity.
Qed.

Lemma cat_dog_counts_and_fixed_precedence_witness :
  let orig := ["a"; "b"] in
  let trans := ["b"; "a"] in
  let dp := table word_cell orig trans in
  choose_op orig trans dp 2 2 = Some OpSubst /\
  admissible orig trans dp OpSubst 2 2 = true /\
  precedence OpSubst <= precedence OpIns.
Proof.
  cbv zeta. split; [reflexivity|].
  destruct (proj1 (proj2 cat_dog_counts_and_fixed_precedence)
              ["a"; "b"] ["b"; "a"] 2 2 OpSubst eq_refl) as [Hadm Hmin].
  split; [exact Hadm|].
  apply Hmin. reflexivity.
Defined.

End MetricsClaims.

(** * Strings *)

Module StringFacts.
Import GoLib.

Lemma append_nil_r (s : string) : s +:+ "" = s.
Proof. induction s as [|c s IH]; simpl; [reflexivity | now rewrite IH]. Qed.

Lemma append_assoc (a b c : string) : (a +:+ b) +:+ c = a +:+ (b +:+ c).
Proof. induction a as [|x a IH]; simpl; [reflexivity | now rewrite IH]. Qed.

Lemma length_append (a b : string) :
  String.length (a +:+ b) = String.length a + String.length b.
Proof. induction a as [|x a IH]; simpl; [reflexivity | now rewrite IH]. Qed.

Lemma bytes_append (a b : string) : bytes (a +:+ b) = bytes a ++ bytes b.
Proof.
  unfold bytes. induction a as [|x a IH]; simpl; [reflexivity | now rewrite IH].
Qed.

Lemma string_of_list_ascii_app (l1 l2 : list ascii) :
  string_of_list_ascii (l1 ++ l2) =
  string_of_list_ascii l1 +:+ string_of_list_ascii l2.
Proof. induction l1 as [|x l1 IH]; simpl; [reflexivity | now rewrite IH]. Qed.

Lemma skip_lit_append (lit s : string) : skip_lit lit (lit +:+ s) = Some s.
Proof.
  induction lit as [|c lit IH]; simpl; [reflexivity|].
  now rewrite Ascii.eqb_refl.
Qed.


(** [s] ends with [suffix]. *)
Definition string_rev (s : string) : string :=
  string_of_list_ascii (rev (bytes s)).

Definition ends_with (s suffix : string) : bool :=
  match skip_lit (string_rev suffix) (string_rev s) with
  | Some _ => true
  | None => false
  end.

Lemma string_rev_append (a b : string) :
  string_rev (a +:+ b) = string_rev b +:+ string_rev a.
Proof.
  unfold string_rev. now rewrite bytes_append, rev_app_distr, string_of_list_ascii_app.
Qed.

Lemma ends_with_append (a suffix : string) :
  ends_with (a +:+ suffix) suffix = true.
Proof.
  unfold ends_with. now rewrite string_rev_append, skip_lit_append.
Qed.

End StringFacts.

(** * Properties of the detector and the grouper *)

Module SortFacts.
Import GoLib.

(** *** [insertion_sort] meets the contract of [sort.Slice] *)
Section InsertionSort.
Context {A : Type}.
Variable less : A -> A -> bool.

Lemma insert_sorted_perm (x : A) (l : list A) :
  Permutation (x :: l) (insert_sorted less x l).
Proof.
  induction l as [|y l IH]; simpl; [reflexivity|].
  destruct (less x y); [reflexivity|].
  rewrite perm_swap. now apply perm_skip.
Qed.

Lemma fold_insert_perm (l acc : list A) :
  Permutation (l ++ acc)
    (fold_left (fun acc x => insert_sorted less x acc) l acc).
Proof.
  revert acc. induction l as [|x l IH]; intros acc; simpl; [reflexivity|].
  rewrite <- IH. rewrite <- insert_sorted_perm.
  now rewrite Permutation_middle.
Qed.

Lemma insert_sorted_sorted (x : A) (l : list A) :
  strict_weak_order less ->
  StronglySorted (fun a b => less b a = false) l ->
  StronglySorted (fun a b => less b a = false) (insert_sorted less x l).
Proof.
  intros Hswo. induction l as [|y l IH]; intros Hs; simpl.
  - repeat constructor.
  - inversion Hs as [|? ? Hl Hy]; subst.
    destruct (less x y) eqn:Hxy.
    + constructor; [assumption|].
      constructor.
      * destruct (less y x) eqn:Hyx; [|reflexivity].
        pose proof (swo_trans less Hswo x y x Hxy Hyx) as Hxx.
        now rewrite (swo_irrefl less Hswo) in Hxx.
      * rewrite Forall_forall in Hy |- *. intros z Hz.
        destruct (less z x) eqn:Hzx; [|reflexivity].
        pose proof (swo_trans less Hswo z x y Hzx Hxy) as Hzy.
        now rewrite (Hy z Hz) in Hzy.
    + constructor; [auto|].
      eapply Permutation_Forall; [apply insert_sorted_perm|].
      constructor; assumption.
Qed.

Lemma fold_insert_sorted (l acc : list A) :
  strict_weak_order less ->
  StronglySorted (fun a b => less b a = false) acc ->
  StronglySorted (fun a b => less b a = false)
    (fold_left (fun acc x => insert_sorted less x acc) l acc).
Proof.
  intros Hswo. revert acc.
  induction l as [|x l IH]; intros acc Hacc; simpl; [assumption|].
  apply IH. now apply insert_sorted_sorted.
Qed.
End InsertionSort.

Lemma insertion_sort_contract : sort_contract insertion_sort.
Proof.
  intros A less l. unfold insertion_sort. split.
  - rewrite <- fold_insert_perm. now rewrite app_nil_r.
  - intros Hswo. apply fold_insert_sorted; [assumption | constructor].
Qed.

(** A comparison of integer keys is a strict weak order. *)
Lemma key_order_swo {A : Type} (key : A -> Z) :
  strict_weak_order (fun a b => (key a <? key b)%Z).
Proof.
  split; intros; rewrite ?Z.ltb_lt, ?Z.ltb_ge in *; lia.
Qed.

Lemma StronglySorted_weaken {A : Type} (R R' : A -> A -> Prop) (l : list A) :
  (forall a b, R a b -> R' a b) ->
  StronglySorted R l -> StronglySorted R' l.
Proof.
  intros Himp. induction 1 as [|a l _ IH Hall]; constructor; [assumption|].
  eapply Forall_impl; [|exact Hall]. auto.
Qed.

End SortFacts.

Module DetectorFacts.
Import GoLib Models Detector.

#[local] Open Scope Z_scope.

(** *** The flood fill ends *)

(** The text pixels of the image. *)
Definition pixel_list (img : Image) : list (Z * Z) :=
  flat_map (fun x => map (fun y => (x, y)) (seqZ 0 (Dy img))) (seqZ 0 (Dx img)).

Definition ink (img : Image) : gset (Z * Z) :=
  list_to_set
    (List.filter (fun p => isTextPixel (At img (fst p) (snd p)))
       (pixel_list img)).

Lemma elem_of_ink (img : Image) (x y : Z) :
  (x, y) ∈ ink img <->
  0 <= x < Dx img /\ 0 <= y < Dy img /\ isTextPixel (At img x y) = true.
Proof.
  unfold ink, pixel_list.
  rewrite elem_of_list_to_set, list_elem_of_In, filter_In, in_flat_map.
  simpl. split.
  - intros [(x' & Hx & Hy) Hink].
    apply in_map_iff in Hy as (y' & Heq & Hy). inversion Heq; subst.
    apply list_elem_of_In, elem_of_seqZ in Hx.
    apply list_elem_of_In, elem_of_seqZ in Hy. repeat split; try lia; auto.
  - intros (Hx & Hy & Hink). split; [|assumption].
    exists x. split.
    + apply list_elem_of_In, elem_of_seqZ. lia.
    + apply in_map_iff. exists y. split; [reflexivity|].
      apply list_elem_of_In, elem_of_seqZ. lia.
Qed.

Lemma pixel_list_length (img : Image) :
  (List.length (pixel_list img) <= Z.to_nat (Dx img * Dy img))%nat.
Proof.
  unfold pixel_list.
  assert (Hlen : forall l : list Z,
    List.length
      (flat_map (fun x => map (fun y => (x, y)) (seqZ 0 (Dy img))) l) =
    (List.length l * Z.to_nat (Dy img))%nat).
  { induction l as [|a l IH]; simpl; [reflexivity|].
    rewrite length_app, IH, length_map, length_seqZ. reflexivity. }
  rewrite Hlen, length_seqZ.
  destruct (Z_le_gt_dec (Dx img) 0); [replace (Z.to_nat (Dx img)) with 0%nat by lia; simpl; lia|].
  destruct (Z_le_gt_dec (Dy img) 0); [replace (Z.to_nat (Dy img)) with 0%nat by lia; lia|].
  rewrite Z2Nat.inj_mul by lia. lia.
Qed.

Lemma size_list_to_set_length (l : list (Z * Z)) :
  (size (list_to_set l : gset (Z * Z)) <= List.length l)%nat.
Proof.
  induction l as [|p l IH].
  - rewrite list_to_set_nil, size_empty. simpl. lia.
  - rewrite list_to_set_cons, size_union_alt, size_singleton. simpl.
    assert (size (list_to_set l ∖ {[ p ]} : gset (Z * Z)) <=
            size (list_to_set l : gset (Z * Z)))%nat
      by (apply subseteq_size; set_solver).
    lia.
Qed.

Lemma ink_size (img : Image) :
  (size (ink img) <= Z.to_nat (Dx img * Dy img))%nat.
Proof.
  etrans; [|apply pixel_list_length].
  unfold ink.
  etrans; [apply size_list_to_set_length|].
  apply List.filter_length_le.
Qed.

Lemma stops_false (img : Image) (vis : gset (Z * Z)) (x y : Z) :
  stops img vis x y = false <-> (x, y) ∈ ink img ∖ vis.
Proof.
  unfold stops. rewrite elem_of_difference, elem_of_ink.
  rewrite !orb_false_iff, negb_false_iff, bool_decide_eq_false.
  rewrite !Z.ltb_ge, !Z.leb_gt. tauto.
Qed.

(** The unvisited text pixels left. *)
Definition unvisited (img : Image) (vis : gset (Z * Z)) : nat :=
  size (ink img ∖ vis).

Lemma unvisited_mono (img : Image) (v1 v2 : gset (Z * Z)) :
  v1 ⊆ v2 -> (unvisited img v2 <= unvisited img v1)%nat.
Proof.
  intros Hsub. apply subseteq_size. set_solver.
Qed.

Lemma unvisited_mark (img : Image) (vis : gset (Z * Z)) (p : Z * Z) :
  p ∈ ink img ∖ vis ->
  (unvisited img ({[ p ]} ∪ vis) < unvisited img vis)%nat.
Proof.
  intros Hp. apply subset_size. set_solver.
Qed.

(** With as much fuel as there are unvisited text pixels, [floodFill]
    returns, and it only adds to the visited set. *)
Lemma floodFill_total (img : Image) (fuel : nat) :
  forall (st : fill_state) (x y : Z),
    (unvisited img (visited st) <= fuel)%nat ->
    exists st' : fill_state,
      floodFill fuel img st x y = Some st' /\ visited st ⊆ visited st'.
Proof.
  induction fuel as [|fuel IH]; intros st x y Hfuel.
  - cbn [floodFill]. destruct (stops img (visited st) x y) eqn:Hstop.
    + exists st. split; [reflexivity | set_solver].
    + apply stops_false in Hstop.
      assert (0 < unvisited img (visited st))%nat; [|lia].
      unfold unvisited.
      destruct (size (ink img ∖ visited st)) eqn:Hsz; [|lia].
      apply size_empty_iff in Hsz. set_solver.
  - cbn [floodFill]. destruct (stops img (visited st) x y) eqn:Hstop.
    + exists st. split; [reflexivity | set_solver].
    + apply stops_false in Hstop.
      pose proof (unvisited_mark img (visited st) (x, y) Hstop) as Hlt.
      set (st1 := {| visited := {[ (x, y) ]} ∪ visited st;
                     minX := _; minY := _; maxX := _; maxY := _ |}).
      assert (Hst1 : (unvisited img (visited st1) <= fuel)%nat)
        by (subst st1; simpl; lia).
      assert (Hsub1 : visited st ⊆ visited st1)
        by (subst st1; simpl; set_solver).
      clearbody st1.
      revert st1 Hst1 Hsub1.
      generalize directions as dirs.
      induction dirs as [|dir dirs IHd]; intros st1 Hst1 Hsub1;
        cbn [fold_left].
      * exists st1. split; [reflexivity | assumption].
      * destruct (IH st1 (x + fst dir) (y + snd dir) Hst1)
          as (st2 & -> & Hsub2).
        apply IHd.
        -- pose proof (unvisited_mono img _ _ Hsub2). lia.
        -- set_solver.
Qed.

(** *** C5: the size filter of the detector *)

(** What the filter of [findConnectedComponents] lets through. *)
Definition region_ok (img : Image) (c : BoundingBox) : Prop :=
  5 <= Width c /\ 8 <= Height c /\
  Width c <= Dx img `quot` 2 /\ Height c <= Dy img `quot` 4.

Lemma scan_pixel_ok (img : Image) (fuel : nat)
    (vis : gset (Z * Z)) (comps : list BoundingBox) (x y : Z) :
  (size (ink img) <= fuel)%nat ->
  Forall (region_ok img) comps ->
  exists vis' comps',
    scan_pixel fuel img (vis, comps) x y = Some (vis', comps') /\
    Forall (region_ok img) comps'.
Proof.
  intros Hfuel Hok. unfold scan_pixel.
  destruct (negb (bool_decide ((x, y) ∈ vis)) && isTextPixel (At img x y));
    [|eauto].
  destruct (floodFill_total img fuel (mkFill vis x y x y) x y)
    as (st & -> & _).
  { simpl. etrans; [|exact Hfuel]. apply subseteq_size. set_solver. }
  destruct ((5 <=? maxX st - minX st + 1) && (8 <=? maxY st - minY st + 1) &&
            (maxX st - minX st + 1 <=? Dx img `quot` 2) &&
            (maxY st - minY st + 1 <=? Dy img `quot` 4)) eqn:Hkeep;
    [|eauto].
  do 2 eexists. split; [reflexivity|].
  apply Forall_app. split; [assumption|].
  constructor; [|constructor].
  rewrite !andb_true_iff, !Z.leb_le in Hkeep.
  unfold region_ok. simpl. tauto.
Qed.

Lemma scan_row_ok (img : Image) (fuel : nat) (y : Z) :
  (size (ink img) <= fuel)%nat ->
  forall (xs : list Z) (vis : gset (Z * Z)) (comps : list BoundingBox),
    Forall (region_ok img) comps ->
    exists vis' comps',
      fold_left
        (fun acc x =>
           match acc with
           | Some a => scan_pixel fuel img a x y
           | None => None
           end) xs (Some (vis, comps)) = Some (vis', comps') /\
      Forall (region_ok img) comps'.
Proof.
  intros Hfuel. induction xs as [|x xs IH]; intros vis comps Hok;
    cbn [fold_left].
  - eauto.
  - destruct (scan_pixel_ok img fuel vis comps x y Hfuel Hok)
      as (vis' & comps' & -> & Hok').
    now apply IH.
Qed.

End DetectorFacts.

(** * The detector and the grouper: results *)

Module DetectorClaims.
Import GoLib Models Detector SortFacts DetectorFacts.

#[local] Open Scope Z_scope.

(** The bounding box [(x1, y1, x2, y2)] of a region, from its first and its
    third vertex. *)
Definition region_bbox (c : BoundingBox) : BBox :=
  mkBBox (X c) (Y c) (X c + Width c) (Y c + Height c).

Lemma region_bbox_vertices (c : BoundingBox) :
  exists v0 v2 : Vertex,
    nth_error (box_vertices c) 0 = Some v0 /\
    nth_error (box_vertices c) 2 = Some v2 /\
    region_bbox c = mkBBox (Vertex_X v0) (Vertex_Y v0) (Vertex_X v2) (Vertex_Y v2).
Proof. do 2 eexists. repeat split. Qed.

(** C5.  For every raster the detector returns, and every region it emits
    is at least 5 wide and 8 high, at most half the image wide and a quarter
    of the image high; so its bounding box has [x1 < x2] and [y1 < y2]. *)
Theorem detector_regions_pass_the_size_filter (img : Image) :
  exists components : list BoundingBox,
    findConnectedComponents img = Some components /\
    Forall
      (fun c =>
         5 <= Width c /\ 8 <= Height c /\
         Width c <= Dx img `quot` 2 /\ Height c <= Dy img `quot` 4 /\
         X1 (region_bbox c) < X2 (region_bbox c) /\
         Y1 (region_bbox c) < Y2 (region_bbox c))
      components.
Proof.
  unfold findConnectedComponents.
  set (fuel := Z.to_nat (Dx img * Dy img)).
  assert (Hfuel : (size (ink img) <= fuel)%nat) by apply ink_size.
  assert (Hrows : forall (ys : list Z) (vis : gset (Z * Z)) comps,
    Forall (region_ok img) comps ->
    exists vis' comps',
      fold_left (scan_row fuel img) ys (Some (vis, comps)) =
        Some (vis', comps') /\
      Forall (region_ok img) comps').
  { induction ys as [|y ys IH]; intros vis comps Hok; cbn [fold_left].
    - eauto.
    - unfold scan_row at 2.
      destruct (scan_row_ok img fuel y Hfuel (seqZ 0 (Dx img)) vis comps Hok)
        as (vis' & comps' & -> & Hok').
      now apply IH. }
  destruct (Hrows (seqZ 0 (Dy img)) ∅ []) as (vis & comps & -> & Hok);
    [constructor|].
  exists comps. split; [reflexivity|].
  eapply Forall_impl; [|exact Hok].
  intros c (Hw & Hh & Hw2 & Hh4). simpl. repeat split; lia.
Qed.

(** *** Words to lines on a single line *)

Definition word_top (w : Word) : Z := Vertex_Y (vertex_or_zero w 0).
Definition word_bottom (w : Word) : Z := Vertex_Y (vertex_or_zero w 2).
Definition word_left (w : Word) : Z := Vertex_X (vertex_or_zero w 0).

(** The word has the vertices the grouping reads. *)
Definition has_box (w : Word) : Prop :=
  (3 <= List.length (Vertices (Word_BoundingBox w)))%nat.

(** The vertical extent of [a] overlaps that of [b] within half the height
    of [a]. *)
Definition overlaps (a b : Word) : Prop :=
  let tolerance := (word_bottom a - word_top a) `quot` 2 in
  word_top b - tolerance <= word_bottom a /\
  word_top a <= word_bottom b + tolerance.

Lemma has_box_vertex (w : Word) :
  has_box w ->
  vertex w 0 = Some (vertex_or_zero w 0) /\
  vertex w 2 = Some (vertex_or_zero w 2).
Proof.
  unfold has_box, vertex, vertex_or_zero. intros Hlen.
  split; apply nth_error_nth'; lia.
Qed.

Lemma widen_spec (line : list Word) :
  Forall has_box line ->
  forall t b : Z,
    exists t' b' : Z,
      widen line t b = Some (t', b') /\
      (t' = t \/ exists m, In m line /\ word_top m = t') /\
      (b' = b \/ exists m, In m line /\ word_bottom m = b').
Proof.
  induction 1 as [|w line Hw _ IH]; intros t b; cbn [widen].
  - exists t, b. auto.
  - destruct (has_box_vertex w Hw) as [-> ->].
    fold (word_top w) (word_bottom w).
    destruct (IH (if word_top w <? t then word_top w else t)
                 (if b <? word_bottom w then word_bottom w else b))
      as (t' & b' & -> & Ht & Hb).
    exists t', b'. split; [reflexivity|]. split.
    + destruct Ht as [-> | (m & Hm & <-)].
      * destruct (word_top w <? t); [right; exists w; simpl; auto | auto].
      * right. exists m. simpl. auto.
    + destruct Hb as [-> | (m & Hm & <-)].
      * destruct (b <? word_bottom w); [right; exists w; simpl; auto | auto].
      * right. exists m. simpl. auto.
Qed.

Lemma line_range_spec (line : list Word) :
  line <> [] -> Forall has_box line ->
  exists lt lb : Z,
    line_range line = Some (lt, lb) /\
    (exists m, In m line /\ word_top m = lt) /\
    (exists m, In m line /\ word_bottom m = lb).
Proof.
  destruct line as [|first rest]; [congruence|]. intros _ Hall.
  unfold line_range.
  destruct (has_box_vertex first) as [-> ->]; [now inversion Hall|].
  fold (word_top first) (word_bottom first).
  destruct (widen_spec (first :: rest) Hall (word_top first) (word_bottom first))
    as (t' & b' & -> & Ht & Hb).
  exists t', b'. split; [reflexivity|]. split.
  - destruct Ht as [-> | ?]; [exists first; simpl; auto | assumption].
  - destruct Hb as [-> | ?]; [exists first; simpl; auto | assumption].
Qed.

(** A word that overlaps every word of the only line joins it. *)
Lemma place_word_joins (line : list Word) (w : Word) :
  line <> [] -> Forall has_box line -> has_box w ->
  (forall m, In m line -> overlaps w m) ->
  place_word [line] w = Some [line ++ [w]].
Proof.
  intros Hne Hall Hw Hov. unfold place_word.
  destruct (has_box_vertex w Hw) as [-> ->].
  fold (word_top w) (word_bottom w).
  cbn [add_to_line].
  destruct (line_range_spec line Hne Hall)
    as (lt & lb & Hrange & (mt & Hmt & <-) & (mb & Hmb & <-)).
  destruct line as [|first rest]; [congruence|].
  rewrite Hrange.
  destruct (Hov mt Hmt) as [Htop _].
  destruct (Hov mb Hmb) as [_ Hbot].
  cbv zeta in Htop, Hbot.
  apply Z.leb_le in Htop, Hbot. now rewrite Htop, Hbot.
Qed.

Lemma place_words_single_line (ws : list Word) :
  forall line : list Word,
    line <> [] -> Forall has_box (line ++ ws) ->
    (forall a b, In a ws -> In b (line ++ ws) -> overlaps a b) ->
    fold_left
      (fun acc word =>
         match acc with
         | Some lines => place_word lines word
         | None => None
         end) ws (Some [line]) = Some [line ++ ws].
Proof.
  induction ws as [|w ws IH]; intros line Hne Hall Hov; cbn [fold_left].
  - now rewrite app_nil_r.
  - apply Forall_app in Hall as [Hline Hws].
    inversion Hws as [|? ? Hw Hws']; subst.
    rewrite place_word_joins; try assumption.
    + rewrite IH.
      * now rewrite <- app_assoc.
      * now destruct line.
      * rewrite <- app_assoc. apply Forall_app. split; assumption.
      * intros a b Ha Hb. apply Hov; [now right|].
        now rewrite <- app_assoc in Hb.
    + intros m Hm. apply Hov; [now left|].
      apply in_or_app. now left.
Qed.

(** C6.  For every sorting function that meets the contract of
    [sort.Slice], the grouping stage run on a non-empty list of words with
    mutually overlapping vertical extents (each within half its own height
    of every other) returns exactly one line, which holds the same words,
    ordered by X. *)
Theorem grouping_one_line_again (sort_Slice : sorter) (words : list Word) :
  sort_contract sort_Slice ->
  words <> [] ->
  Forall has_box words ->
  (forall a b, In a words -> In b words -> overlaps a b) ->
  exists line : list Word,
    groupWordsIntoLines sort_Slice words = Some [line] /\
    Permutation words line /\
    StronglySorted (fun a b => word_left a <= word_left b) line.
Proof.
  intros Hsort Hne Hall Hov.
  unfold groupWordsIntoLines.
  destruct words as [|w0 ws0] eqn:Hwords; [congruence|].
  rewrite <- Hwords in *. clear Hwords w0 ws0.
  destruct (Hsort Word less_YX words) as [Hperm _].
  set (sortedWords := sort_Slice Word less_YX words) in *.
  assert (Hall' : Forall has_box sortedWords)
    by (eapply Permutation_Forall; eassumption).
  assert (Hov' : forall a b,
             In a sortedWords -> In b sortedWords -> overlaps a b).
  { intros a b Ha Hb.
    apply Hov; eapply Permutation_in; try eassumption;
      now apply Permutation_sym. }
  destruct sortedWords as [|w ws] eqn:Hsorted.
  { apply Permutation_sym, Permutation_nil in Hperm. congruence. }
  cbn [fold_left].
  assert (Hfirst : place_word [] w = Some [[w]]).
  { unfold place_word.
    destruct (has_box_vertex w) as [-> ->]; [now inversion Hall'|].
    reflexivity. }
  rewrite Hfirst.
  rewrite (place_words_single_line ws [w]); [|congruence|assumption|].
  - cbn [map].
    destruct (Hsort Word less_X ([w] ++ ws)) as [Hperm2 Hsorted2].
    eexists. split; [reflexivity|]. split.
    + etrans; [exact Hperm | exact Hperm2].
    + eapply StronglySorted_weaken;
        [|apply Hsorted2, (key_order_swo word_left)].
      intros a b Hab. now apply Z.ltb_ge in Hab.
  - intros a b Ha Hb. apply Hov'; [now right | exact Hb].
Qed.

Definition demo_word (x y x2 y2 : Z) : Word :=
  mkWord None
    (mkBoundingPoly (box_vertices (mkBoundingBox x y (x2 - x) (y2 - y)))) [].

Lemma grouping_one_line_again_witness :
  let words := [demo_word 50 10 80 30; demo_word 10 12 40 32] in
  exists line : list Word,
    groupWordsIntoLines insertion_sort words = Some [line] /\
    Permutation words line /\
    StronglySorted (fun a b => word_left a <= word_left b) line.
Proof.
  cbv zeta.
  apply (grouping_one_line_again insertion_sort
           [demo_word 50 10 80 30; demo_word 10 12 40 32]
           insertion_sort_contract).
  - discriminate.
  - repeat constructor; unfold has_box; simpl; lia.
  - intros a b [<- | [<- | []]] [<- | [<- | []]];
      unfold overlaps; vm_compute; split; discriminate.
Defined.

End DetectorClaims.

(** * The encoder: the separator after a word *)

Module ConverterClaims.
Import GoLib Models Converter StringFacts.

(** The last symbol of a word, if it has one. *)
Definition last_symbol (word : Word) : option Symbol :=
  last (map Some (Word_Symbols word)) None.

(** The word is immediately followed by a structural line break: the break
    detected after its last symbol is a line break. *)
Definition followed_by_line_break (word : Word) : bool :=
  match last_symbol word with
  | Some symbol => is_line_break symbol
  | None => false
  end.

(** The element [convertWord] writes for the word, without what follows
    it. *)
Definition word_element (h : Converter) (word : Word) : string :=
  let lang :=
    match Word_Property word with
    | Some property =>
        match DetectedLanguages property with
        | language :: _ => "; x_lang " +:+ LanguageCode language
        | [] => ""
        end
    | None => ""
    end in
  "<span class='ocrx_word' id='word_" +:+ itoa (wordCounter h) +:+
  "' title='" +:+
  (boundingPolyToBBox (Word_BoundingBox word) +:+ "; x_wconf 95" +:+ lang) +:+
  "'>" +:+ EscapeString (symbols_text (Word_Symbols word)) +:+ "</span>".

Lemma word_element_ends (h : Converter) (word : Word) :
  exists p : string, word_element h word = p +:+ "</span>".
Proof.
  unfold word_element. eexists.
  rewrite <- !append_assoc. reflexivity.
Qed.

Lemma convertWord_shape (h : Converter) (word : Word) :
  fst (convertWord h word) =
  word_element h word +:+
  match last_symbol word with
  | Some symbol => if is_line_break symbol then "" else " "
  | None => ""
  end.
Proof.
  unfold convertWord, word_element, last_symbol. cbn [fst].
  destruct (last (map Some (Word_Symbols word)) None) as [symbol|].
  - destruct (is_line_break symbol); cbn [negb];
      [now rewrite append_nil_r | reflexivity].
  - now rewrite append_nil_r.
Qed.

(** C7, as stated, fails: a word without symbols is followed by no line
    break, and [convertWord] writes no space after it. *)
Lemma word_without_symbols_gets_no_space :
  let word := mkWord None (mkBoundingPoly []) [] in
  followed_by_line_break word = false /\
  fst (convertWord NewConverter word) =
    "<span class='ocrx_word' id='word_1' title='bbox 0 0 0 0; x_wconf 95'></span>" /\
  ends_with (fst (convertWord NewConverter word)) " " = false.
Proof. cbv zeta. repeat split. Qed.

(** C7, amended.  [convertWord] writes one space after the element of a
    word that has symbols and whose last symbol is not followed by a line
    break ([LINE_BREAK] or [EOL_SURE_SPACE]); after a word whose last symbol
    is followed by a line break, and after a word without symbols, it writes
    nothing.  [convertHOCRWordToXML], which encodes a word of a line list,
    writes one space after every word. *)
Theorem word_separator_by_last_symbol (h : Converter) (word : Word) :
  (match last_symbol word with
   | Some symbol =>
       if is_line_break symbol
       then fst (convertWord h word) = word_element h word /\
            ends_with (fst (convertWord h word)) "</span>" = true /\
            ends_with (fst (convertWord h word)) " " = false
       else fst (convertWord h word) = word_element h word +:+ " " /\
            ends_with (fst (convertWord h word)) "</span> " = true
   | None =>
       fst (convertWord h word) = word_element h word /\
       ends_with (fst (convertWord h word)) "</span>" = true /\
       ends_with (fst (convertWord h word)) " " = false
   end) /\
  (forall w : HOCRWord, ends_with (convertHOCRWordToXML w) "</span> " = true).
Proof.
  split.
  - rewrite convertWord_shape.
    destruct (word_element_ends h word) as [p Hp].
    assert (Hno : ends_with (word_element h word) "</span>" = true /\
                  ends_with (word_element h word) " " = false).
    { rewrite Hp. split; [apply ends_with_append|].
      unfold ends_with. rewrite string_rev_append. reflexivity. }
    destruct (last_symbol word) as [symbol|].
    + destruct (is_line_break symbol).
      * rewrite append_nil_r. tauto.
      * split; [reflexivity|].
        rewrite Hp, append_assoc. apply ends_with_append.
    + rewrite append_nil_r. tauto.
  - intros w. unfold convertHOCRWordToXML.
    rewrite <- !append_assoc. apply ends_with_append.
Qed.

End ConverterClaims.

(** * The decoder: failures and skipped words *)

Module ParserClaims.
Import GoLib Models Xml Parser StringFacts.

(** The repository's own test of [ParseHOCRWords]
    ([pkg/hocr/parser/parser_test.go]), run on the model. *)
Definition testXML : string :=
  "<?xml version=" +:+ dq +:+ "1.0" +:+ dq +:+ " encoding=" +:+ dq +:+
  "UTF-8" +:+ dq +:+ "?>" +:+ Converter.nl +:+
  "<!DOCTYPE html PUBLIC " +:+ dq +:+
  "-//W3C//DTD XHTML 1.0 Transitional//EN" +:+ dq +:+ " " +:+ dq +:+
  "http://www.w3.org/TR/xhtml1/DTD/xhtml1-transitional.dtd" +:+ dq +:+ ">" +:+
  Converter.nl +:+
  "<html xmlns=" +:+ dq +:+ "http://www.w3.org/1999/xhtml" +:+ dq +:+
  " xml:lang=" +:+ dq +:+ "en" +:+ dq +:+ " lang=" +:+ dq +:+ "en" +:+ dq +:+
  ">" +:+ Converter.nl +:+
  "<head><title></title></head>" +:+ Converter.nl +:+
  "<body>" +:+ Converter.nl +:+
  "<div class='ocr_page' id='page_1' title='bbox 0 0 1120 1368'>" +:+
  Converter.nl +:+
  "<span class='ocr_line' id='line_1' title='bbox 161 80 435 129'>" +:+
  Converter.nl +:+
  "<span class='ocrx_word' id='word_1' title='bbox 161 84 300 129; x_wconf 95'>Dear</span> "
  +:+ Converter.nl +:+
  "<span class='ocrx_word' id='word_2' title='bbox 324 80 417 123; x_wconf 95'>Sir</span>"
  +:+ Converter.nl +:+
  "</span>" +:+ Converter.nl +:+
  "<span class='ocr_line' id='line_2' title='bbox 599 41 674 69'>" +:+
  Converter.nl +:+
  "<span class='ocrx_word' id='word_3' title='bbox 599 41 674 69; x_wconf 95'>ALS</span>"
  +:+ Converter.nl +:+
  "</span>" +:+ Converter.nl +:+
  "</div>" +:+ Converter.nl +:+
  "</body>" +:+ Converter.nl +:+
  "</html>".

Example TestParseHOCRWords :
  ParseHOCRWords testXML =
  Got [ mkHOCRWord "word_1" "Dear" (mkBBox 161 84 300 129) (Finite 95) "line_1";
        mkHOCRWord "word_2" "Sir" (mkBBox 324 80 417 123) (Finite 95) "line_1";
        mkHOCRWord "word_3" "ALS" (mkBBox 599 41 674 69) (Finite 95) "line_2" ].
Proof. vm_compute. reflexivity. Qed.

(** *** What follows the root element *)





(** *** The title attribute *)

Lemma parseTitleAttribute_ID (title : string) (word : HOCRWord) :
  HOCRWord_ID (fst (parseTitleAttribute title word)) = HOCRWord_ID word.
Proof.
  unfold parseTitleAttribute.
  destruct (find_bbox title) as [[[[m1 m2] m3] m4]|].
  - destruct (Atoi m1) as [v1 [e1|]]; [reflexivity|].
    destruct (Atoi m2) as [v2 [e2|]]; [reflexivity|].
    destruct (Atoi m3) as [v3 [e3|]]; [reflexivity|].
    destruct (Atoi m4) as [v4 [e4|]]; [reflexivity|].
    destruct (find_wconf title) as [[d f]|]; [|reflexivity].
    destruct (ParseFloat d f) as [v [e|]]; reflexivity.
  - destruct (find_wconf title) as [[d f]|]; [|reflexivity].
    destruct (ParseFloat d f) as [v [e|]]; reflexivity.
Qed.

(** The error of [parseTitleAttribute] depends on the title only. *)
Definition title_error (title : string) : option TitleError :=
  snd (parseTitleAttribute title zero_HOCRWord).

Lemma parseTitleAttribute_error (title : string) (word : HOCRWord) :
  snd (parseTitleAttribute title word) = title_error title.
Proof.
  unfold title_error, parseTitleAttribute.
  destruct (find_bbox title) as [[[[m1 m2] m3] m4]|].
  - destruct (Atoi m1) as [v1 [e1|]]; [reflexivity|].
    destruct (Atoi m2) as [v2 [e2|]]; [reflexivity|].
    destruct (Atoi m3) as [v3 [e3|]]; [reflexivity|].
    destruct (Atoi m4) as [v4 [e4|]]; [reflexivity|].
    destruct (find_wconf title) as [[d f]|]; [|reflexivity].
    destruct (ParseFloat d f) as [v [e|]]; reflexivity.
  - destruct (find_wconf title) as [[d f]|]; [|reflexivity].
    destruct (ParseFloat d f) as [v [e|]]; reflexivity.
Qed.







End ParserClaims.

(** * The decoder: word elements that are left out *)

Module ParserSkips.
Import GoLib Models Xml Parser StringFacts ParserClaims.

(** The title has a bounding-box pattern or a confidence pattern with a
    number that [strconv] does not parse. *)
Definition unparsable_title (title : string) : Prop :=
  (exists m1 m2 m3 m4 : string,
     find_bbox title = Some (m1, m2, m3, m4) /\
     (snd (Atoi m1) <> None \/ snd (Atoi m2) <> None \/
      snd (Atoi m3) <> None \/ snd (Atoi m4) <> None)) \/
  (exists (d : string) (f : option string),
     find_wconf title = Some (d, f) /\ snd (ParseFloat d f) <> None).

Lemma unparsable_title_error (title : string) :
  unparsable_title title -> title_error title <> None.
Proof.
  unfold title_error, parseTitleAttribute.
  intros [(m1 & m2 & m3 & m4 & -> & Hbad) | (d & f & Hc & Hbad)].
  - destruct (Atoi m1) as [v1 [e1|]]; [discriminate|].
    destruct (Atoi m2) as [v2 [e2|]]; [discriminate|].
    destruct (Atoi m3) as [v3 [e3|]]; [discriminate|].
    destruct (Atoi m4) as [v4 [e4|]]; [discriminate|].
    simpl in Hbad. tauto.
  - rewrite Hc.
    destruct (find_bbox title) as [[[[m1 m2] m3] m4]|].
    + destruct (Atoi m1) as [v1 [e1|]]; [discriminate|].
      destruct (Atoi m2) as [v2 [e2|]]; [discriminate|].
      destruct (Atoi m3) as [v3 [e3|]]; [discriminate|].
      destruct (Atoi m4) as [v4 [e4|]]; [discriminate|].
      destruct (ParseFloat d f) as [v [e|]]; [discriminate|].
      simpl in Hbad. congruence.
    + destruct (ParseFloat d f) as [v [e|]]; [discriminate|].
      simpl in Hbad. congruence.
Qed.

Lemma parse_attrs_title_error (attrs : list Attr) :
  (exists a : Attr,
     In a attrs /\ Local (Attr_Name a) = "title" /\
     title_error (Value a) <> None) ->
  forall word : HOCRWord, snd (parse_attrs attrs word) <> None.
Proof.
  induction attrs as [|a attrs IH]; intros (b & Hin & Hname & Herr) word.
  - destruct Hin.
  - simpl.
    destruct (String.eqb (Local (Attr_Name a)) "id") eqn:Hid.
    + apply IH. destruct Hin as [-> | Hin]; [|eauto].
      rewrite Hname in Hid. discriminate.
    + destruct (String.eqb (Local (Attr_Name a)) "title") eqn:Htitle.
      * pose proof (parseTitleAttribute_error (Value a) word) as Hsame.
        destruct (parseTitleAttribute (Value a) word) as [w [e|]];
          [discriminate|].
        simpl in Hsame.
        destruct Hin as [-> | Hin]; [congruence|].
        apply IH. eauto.
      * apply IH. destruct Hin as [-> | Hin]; [|eauto].
        rewrite Hname in Htitle. discriminate.
Qed.

Lemma parse_attrs_empty_id (attrs : list Attr) :
  (forall a : Attr,
     In a attrs -> Local (Attr_Name a) = "id" -> Value a = "") ->
  forall word : HOCRWord,
    HOCRWord_ID word = "" ->
    HOCRWord_ID (fst (parse_attrs attrs word)) = "".
Proof.
  induction attrs as [|a attrs IH]; intros Hids word Hword; simpl.
  - assumption.
  - assert (Hrest : forall b, In b attrs ->
                      Local (Attr_Name b) = "id" -> Value b = "")
      by (intros b Hb; apply Hids; now right).
    destruct (String.eqb (Local (Attr_Name a)) "id") eqn:Hid.
    + apply IH; [assumption|]. simpl.
      apply Hids; [now left | now apply String.eqb_eq].
    + destruct (String.eqb (Local (Attr_Name a)) "title").
      * pose proof (parseTitleAttribute_ID (Value a) word) as Hsame.
        destruct (parseTitleAttribute (Value a) word) as [w [e|]];
          simpl in *; [congruence|].
        apply IH; [assumption | congruence].
      * now apply IH.
Qed.

(** C10.  After a successful XML decoding [ParseHOCRWords] returns the
    words of the traversal and no error; and a word-class element all of
    whose id attributes are empty (in particular one without id attribute),
    or with a title attribute that has a bounding-box or confidence pattern
    with an unparsable number, adds no word of its own: the traversal goes
    on to its children with the word list as it was. *)
Theorem faulty_word_elements_are_left_out :
  (forall (s : string) (doc : XMLElement),
     Decode s = Got doc ->
     ParseHOCRWords s = Got (traverseElementsWithLineContext doc [] "")) /\
  (forall (element : XMLElement) (words : list HOCRWord)
          (currentLineID : string),
     isWordElement element = true ->
     (forall a : Attr,
        In a (Attrs element) -> Local (Attr_Name a) = "id" -> Value a = "") \/
     (exists a : Attr,
        In a (Attrs element) /\ Local (Attr_Name a) = "title" /\
        unparsable_title (Value a)) ->
     word_here element (line_context element currentLineID) = [] /\
     traverseElementsWithLineContext element words currentLineID =
     fold_left
       (fun words child =>
          traverseElementsWithLineContext child words
            (line_context element currentLineID))
       (Children element) words).
Proof.
  split.
  - intros s doc Hs. unfold ParseHOCRWords. now rewrite Hs.
  - intros element words currentLineID Hword Hfaulty.
    assert (Hnone :
      word_here element (line_context element currentLineID) = []).
    { unfold word_here. rewrite Hword. unfold parseWordElement.
      destruct Hfaulty as [Hids | (a & Hin & Hname & Hbad)].
      - pose proof (parse_attrs_empty_id (Attrs element) Hids
                      zero_HOCRWord eq_refl) as Hid.
        destruct (parse_attrs (Attrs element) zero_HOCRWord) as [w [e|]];
          [reflexivity|].
        simpl in *. now rewrite Hid.
      - pose proof (parse_attrs_title_error (Attrs element)) as Herr.
        specialize (Herr ltac:(exists a; repeat split; try assumption;
                                now apply unparsable_title_error)
                         zero_HOCRWord).
        destruct (parse_attrs (Attrs element) zero_HOCRWord) as [w [e|]];
          [reflexivity | now simpl in Herr]. }
    split; [exact Hnone|].
    destruct element as [n attrs content children].
    cbn [traverseElementsWithLineContext Children].
    now rewrite Hnone, app_nil_r.
Qed.

Lemma faulty_word_elements_are_left_out_witness :
  let element :=
    mkXMLElement (mkName "" "span")
      [ mkAttr (mkName "" "class") "ocrx_word";
        mkAttr (mkName "" "id") "word_9";
        mkAttr (mkName "" "title") "bbox 1 2 3 99999999999999999999" ]
      "x" [] in
  isWordElement element = true /\
  traverseElementsWithLineContext element [] "line_1" = [] /\
  ParseHOCRWords
    "<p><span class='ocrx_word' id='word_9' title='bbox 1 2 3 99999999999999999999'>x</span><span class='ocrx_word' title='bbox 1 2 3 4'>y</span></p>"
  = Got [].
Proof.
  cbv zeta. split; [reflexivity|].
  destruct faulty_word_elements_are_left_out as [Hdecode Hskip].
  split.
  - destruct (Hskip
                (mkXMLElement (mkName "" "span")
                   [ mkAttr (mkName "" "class") "ocrx_word";
                     mkAttr (mkName "" "id") "word_9";
                     mkAttr (mkName "" "title")
                       "bbox 1 2 3 99999999999999999999" ] "x" [])
                [] "line_1" eq_refl) as [_ Htrav]; [|exact Htrav].
    right. eexists. split; [right; right; left; reflexivity|].
    split; [reflexivity|].
    left. do 4 eexists. split; [reflexivity|].
    right. right. right. discriminate.
  - eapply eq_trans; [apply Hdecode; vm_compute; reflexivity | reflexivity].
Defined.

End ParserSkips.

(** * Reading back what the encoder writes: bytes, numbers and text *)

Module LexFacts.
Import GoLib Xml StringFacts.

(** Every byte of [s] satisfies [p]. *)
Definition all (p : ascii -> bool) (s : string) : bool := forallb p (bytes s).

Lemma all_append (p : ascii -> bool) (a b : string) :
  all p (a +:+ b) = all p a && all p b.
Proof. unfold all. now rewrite bytes_append, forallb_app. Qed.

Lemma all_cons (p : ascii -> bool) (c : ascii) (s : string) :
  all p (String c s) = p c && all p s.
Proof. reflexivity. Qed.

Lemma all_impl (p q : ascii -> bool) (s : string) :
  (forall c, p c = true -> q c = true) -> all p s = true -> all q s = true.
Proof.
  intros Himp. unfold all. rewrite !forallb_forall. auto.
Qed.

Lemma string_of_bytes (s : string) : string_of_list_ascii (bytes s) = s.
Proof. apply string_of_list_ascii_of_string. Qed.

(** The bytes an identifier or a title may hold inside a single-quoted
    attribute and come back unchanged: printable ASCII other than the quote
    and the three markup characters. *)
Definition attr_char (c : ascii) : bool :=
  in_range 32 126 c && negb (Ascii.eqb c "'") && negb (Ascii.eqb c "<") &&
  negb (Ascii.eqb c "&") && negb (Ascii.eqb c ">").

(** The bytes of a text that come back unchanged: the ASCII characters XML
    allows, other than the carriage return. *)
Definition text_char (c : ascii) : bool :=
  (byte_of c =? 9) || (byte_of c =? 10) || in_range 32 127 c.

Ltac by_cases c :=
  destruct c as [[] [] [] [] [] [] [] []]; vm_compute; intuition congruence.

Lemma attr_char_facts (c : ascii) :
  attr_char c = true ->
  Ascii.eqb c ">" = false /\ Ascii.eqb c "<" = false /\
  Ascii.eqb c "&" = false /\ Ascii.eqb c "'" = false /\
  Ascii.eqb c CR = false /\ Ascii.eqb c LF = false /\
  in_character_range c = true /\ (byte_of c <? 128) = true.
Proof. by_cases c. Qed.

Lemma text_char_facts (c : ascii) :
  text_char c = true ->
  Ascii.eqb c CR = false /\ in_character_range c = true /\
  (byte_of c <? 128) = true.
Proof. by_cases c. Qed.

Lemma re_digit_facts (c : ascii) :
  re_digit c = true ->
  attr_char c = true /\ re_space c = false /\ Ascii.eqb c "x" = false /\
  Ascii.eqb c "b" = false /\ Ascii.eqb c "+" = false /\
  Ascii.eqb c "-" = false /\ Ascii.eqb c "." = false.
Proof. by_cases c. Qed.

(** *** Decimal numbers *)

Lemma string_of_uint_digits (d : Decimal.uint) :
  all re_digit (NilEmpty.string_of_uint d) = true.
Proof. induction d; simpl; auto. Qed.

Lemma to_uint_not_nil (n : N) : N.to_uint n <> Decimal.Nil.
Proof.
  destruct n as [|p]; [discriminate|].
  simpl. unfold Pos.to_uint.
  pose proof (DecimalPos.Unsigned.to_of (Pos.to_uint p)) as H.
  intros Hnil. unfold Pos.to_uint in Hnil.
  pose proof (DecimalPos.Unsigned.of_to p) as Hp.
  unfold Pos.to_uint in Hp. rewrite Hnil in Hp. discriminate.
Qed.

(** A number that is not negative prints as a non-empty string of digits. *)
Lemma itoa_digits (z : Z) :
  (0 <= z)%Z ->
  all re_digit (itoa z) = true /\
  exists (c : ascii) (s : string), itoa z = String c s.
Proof.
  intros Hz. unfold itoa.
  destruct (Z.ltb_spec z 0) as [?|_]; [lia|].
  split; [apply string_of_uint_digits|].
  pose proof (to_uint_not_nil (Z.to_N z)) as Hnil.
  destruct (N.to_uint (Z.to_N z)); try contradiction; simpl; eauto.
Qed.

Lemma digits_value_itoa (z : Z) :
  (0 <= z)%Z -> digits_value (itoa z) = z.
Proof.
  intros Hz. unfold digits_value, itoa.
  destruct (Z.ltb_spec z 0) as [?|_]; [lia|].
  rewrite NilEmpty.usu, DecimalN.Unsigned.of_to. lia.
Qed.

(** [Atoi] reads back what [%d] prints. *)
Lemma Atoi_itoa (z : Z) :
  (0 <= z <= maxInt64)%Z -> Atoi (itoa z) = (z, None).
Proof.
  intros Hz.
  destruct (itoa_digits z) as [Hdig (c & s & Hcs)]; [lia|].
  pose proof (digits_value_itoa z ltac:(lia)) as Hval.
  unfold Atoi. rewrite Hcs in *.
  rewrite all_cons in Hdig. apply andb_true_iff in Hdig as [Hc _].
  destruct (re_digit_facts c Hc) as (_ & _ & _ & _ & Hplus & Hminus & _).
  assert (Hsign :
    match String c s with
    | String "+" r => (false, r)
    | String "-" r => (true, r)
    | _ => (false, String c s)
    end = (false, String c s)).
  { clear - Hplus Hminus.
    destruct c as [[] [] [] [] [] [] [] []]; try reflexivity; discriminate. }
  rewrite Hsign.
  unfold digits_value in Hval.
  destruct (NilEmpty.uint_of_string (String c s)) as [d|] eqn:Hd.
  - rewrite Hval. destruct (Z.leb_spec z maxInt64); [reflexivity | lia].
  - unfold itoa in Hcs.
    destruct (Z.ltb_spec z 0) as [?|_]; [lia|].
    rewrite <- Hcs, NilEmpty.usu in Hd. discriminate.
Qed.

(** *** Prefixes of digits and spaces *)

Lemma span_all (p : ascii -> bool) (a : string) (c : ascii) (r : string) :
  all p a = true -> p c = false ->
  span p (a +:+ String c r) = (a, String c r).
Proof.
  intros Ha Hc. induction a as [|x a IH]; simpl.
  - now rewrite Hc.
  - rewrite all_cons in Ha. apply andb_true_iff in Ha as [Hx Ha].
    now rewrite Hx, IH.
Qed.

Lemma span_all_end (p : ascii -> bool) (a : string) :
  all p a = true -> span p a = (a, "").
Proof.
  intros Ha. induction a as [|x a IH]; simpl; [reflexivity|].
  rewrite all_cons in Ha. apply andb_true_iff in Ha as [Hx Ha].
  now rewrite Hx, IH.
Qed.

(** One space, then a number. *)
Lemma re_spaces1_before_number (z : Z) (r : string) :
  (0 <= z)%Z ->
  re_spaces1 (String " " (itoa z +:+ r)) = Some (itoa z +:+ r).
Proof.
  intros Hz. destruct (itoa_digits z Hz) as [Hdig (c & s & Hcs)].
  unfold re_spaces1. rewrite Hcs in *. simpl.
  rewrite all_cons in Hdig. apply andb_true_iff in Hdig as [Hc _].
  destruct (re_digit_facts c Hc) as (_ & -> & _). reflexivity.
Qed.

Lemma re_digits1_number (z : Z) (c : ascii) (r : string) :
  (0 <= z)%Z -> re_digit c = false ->
  re_digits1 (itoa z +:+ String c r) = Some (itoa z, String c r).
Proof.
  intros Hz Hc. destruct (itoa_digits z Hz) as [Hdig (x & s & Hxs)].
  unfold re_digits1. rewrite (span_all re_digit _ c r Hdig Hc).
  now rewrite Hxs.
Qed.

Lemma re_digits1_number_end (z : Z) :
  (0 <= z)%Z -> re_digits1 (itoa z) = Some (itoa z, "").
Proof.
  intros Hz. destruct (itoa_digits z Hz) as [Hdig (x & s & Hxs)].
  unfold re_digits1. rewrite (span_all_end re_digit _ Hdig).
  now rewrite Hxs.
Qed.

(** *** Attribute values and text *)

Lemma text_plain_step (quote : option ascii) (c b0 b1 : ascii)
    (acc : list ascii) (s : string) :
  Ascii.eqb c ">" = false -> Ascii.eqb c "<" = false ->
  Ascii.eqb c "&" = false -> Ascii.eqb c CR = false ->
  match quote with
  | Some q => Ascii.eqb c q = false
  | None => True
  end ->
  Ascii.eqb b1 CR && Ascii.eqb c LF = false ->
  text_loop quote false (TPlain b0 b1) acc (String c s) =
  text_loop quote false (TPlain b1 c) (c :: acc) s.
Proof.
  intros Hgt Hlt Hamp Hcr Hq Hcrlf. cbn [text_loop].
  rewrite Hgt, Hlt, Hamp, Hcr, Hcrlf, andb_false_r. cbn [andb negb].
  destruct quote as [q|]; [now rewrite Hq | reflexivity].
Qed.

(** A value of attribute bytes in single quotes reads back as it is. *)
Lemma attr_value_loop (v : string) :
  all attr_char v = true ->
  forall (b0 b1 : ascii) (acc : list ascii) (rest : string),
    text_loop (Some "'"%char) false (TPlain b0 b1) acc
      (v +:+ String "'" rest) =
    finish_text (rev (bytes v) ++ acc) rest.
Proof.
  induction v as [|c v IH]; intros Hall b0 b1 acc rest.
  - cbn [String.append text_loop].
    now rewrite andb_false_r.
  - rewrite all_cons in Hall. apply andb_true_iff in Hall as [Hc Hall].
    destruct (attr_char_facts c Hc)
      as (Hgt & Hlt & Hamp & Hq & Hcr & Hlf & _).
    cbn [String.append].
    rewrite text_plain_step; try assumption;
      [|now rewrite Hlf, andb_false_r].
    rewrite IH by assumption.
    unfold bytes. simpl. now rewrite <- app_assoc.
Qed.

Lemma attr_value (v rest : string) :
  all attr_char v = true ->
  text (Some "'"%char) false (v +:+ String "'" rest) = Got (v, rest).
Proof.
  intros Hall. unfold text. rewrite attr_value_loop by assumption.
  unfold finish_text. rewrite app_nil_r.
  assert (Hrange : forallb in_character_range (rev (bytes v)) = true).
  { apply forallb_forall. intros c Hc. apply in_rev in Hc.
    unfold all in Hall. rewrite forallb_forall in Hall.
    now apply attr_char_facts, Hall. }
  now rewrite Hrange, rev_involutive, string_of_bytes.
Qed.

(** The five references [html.EscapeString] writes. *)
Lemma escaped_char_step (c b0 b1 : ascii) (acc : list ascii) (s : string) :
  text_char c = true ->
  Ascii.eqb b1 CR = false ->
  exists b0' b1' : ascii,
    Ascii.eqb b1' CR = false /\
    text_loop None false (TPlain b0 b1) acc
      (EscapeString (String c EmptyString) +:+ s) =
    text_loop None false (TPlain b0' b1') (c :: acc) s.
Proof.
  intros Hc Hb1. cbn [EscapeString].
  destruct (Ascii.eqb_spec c "&") as [->|Hamp].
  { exists NUL, NUL. split; [reflexivity|].
    cbn [String.append text_loop]. now rewrite andb_false_r. }
  destruct (Ascii.eqb_spec c "'") as [->|Hq].
  { exists NUL, NUL. split; [reflexivity|].
    cbn [String.append text_loop]. now rewrite andb_false_r. }
  destruct (Ascii.eqb_spec c "<") as [->|Hlt].
  { exists NUL, NUL. split; [reflexivity|].
    cbn [String.append text_loop]. now rewrite andb_false_r. }
  destruct (Ascii.eqb_spec c ">") as [->|Hgt].
  { exists NUL, NUL. split; [reflexivity|].
    cbn [String.append text_loop]. now rewrite andb_false_r. }
  destruct (Ascii.eqb_spec c dquote) as [->|Hdq].
  { exists NUL, NUL. split; [reflexivity|].
    cbn [String.append text_loop]. now rewrite andb_false_r. }
  destruct (text_char_facts c Hc) as (Hcr & _).
  exists b1, c. split; [assumption|].
  cbn [String.append].
  apply text_plain_step; try (now apply Ascii.eqb_neq); try assumption;
    [exact I | now rewrite Hb1].
Qed.

Lemma EscapeString_cons (c : ascii) (t : string) :
  EscapeString (String c t) =
  EscapeString (String c EmptyString) +:+ EscapeString t.
Proof.
  cbn [EscapeString]. now rewrite append_nil_r.
Qed.

(** An escaped text reads back as it was. *)
Lemma escaped_text_loop (t : string) :
  all text_char t = true ->
  forall (b0 b1 : ascii) (acc : list ascii) (rest : string),
    Ascii.eqb b1 CR = false ->
    text_loop None false (TPlain b0 b1) acc
      (EscapeString t +:+ String "<" rest) =
    finish_text (rev (bytes t) ++ acc) (String "<" rest).
Proof.
  induction t as [|c t IH]; intros Hall b0 b1 acc rest Hb1.
  - cbn [EscapeString String.append text_loop].
    now rewrite andb_false_r.
  - rewrite all_cons in Hall. apply andb_true_iff in Hall as [Hc Hall].
    rewrite EscapeString_cons, append_assoc.
    destruct (escaped_char_step c b0 b1 acc
                (EscapeString t +:+ String "<" rest) Hc Hb1)
      as (b0' & b1' & Hb1' & ->).
    rewrite IH by assumption.
    unfold bytes. simpl. now rewrite <- app_assoc.
Qed.

Lemma escaped_text (t rest : string) :
  all text_char t = true ->
  text None false (EscapeString t +:+ String "<" rest) =
  Got (t, String "<" rest).
Proof.
  intros Hall. unfold text.
  rewrite escaped_text_loop by (assumption || reflexivity).
  unfold finish_text. rewrite app_nil_r.
  assert (Hrange : forallb in_character_range (rev (bytes t)) = true).
  { apply forallb_forall. intros c Hc. apply in_rev in Hc.
    unfold all in Hall. rewrite forallb_forall in Hall.
    now apply text_char_facts, Hall. }
  now rewrite Hrange, rev_involutive, string_of_bytes.
Qed.

(** An escaped text starts with no tag. *)
Lemma escaped_text_head (c : ascii) (t : string) :
  exists (x : ascii) (s : string),
    EscapeString (String c t) = String x s /\ Ascii.eqb x "<" = false.
Proof.
  cbn [EscapeString].
  destruct (Ascii.eqb c "&"); [simpl; eauto|].
  destruct (Ascii.eqb c "'"); [simpl; eauto|].
  destruct (Ascii.eqb_spec c "<") as [->|Hlt]; [simpl; eauto|].
  destruct (Ascii.eqb c ">"); [simpl; eauto|].
  destruct (Ascii.eqb c dquote); [simpl; eauto|].
  simpl. exists c, (EscapeString t). split; [reflexivity|].
  now apply Ascii.eqb_neq.
Qed.

End LexFacts.

(** * Reading back what the encoder writes: tags and elements *)

Module DecodeFacts.
Import GoLib Models Xml Parser Converter StringFacts LexFacts.

Definition attr (name value : string) : Attr := mkAttr (mkName "" name) value.

(** One attribute [ name='value'] of a start tag. *)
Lemma attrs_loop_step (name value rest : string) (acc : list Attr) (f : nat) :
  name = "class" \/ name = "id" \/ name = "title" ->
  all attr_char value = true ->
  attrs_loop (S f) acc
    (String " " (name +:+ "='" +:+ value +:+ String "'" rest)) =
  attrs_loop f (acc ++ [attr name value]) rest.
Proof.
  intros Hname Hvalue.
  transitivity
    (let* (v, r4) := text (Some "'"%char) false (value +:+ String "'" rest) in
     attrs_loop f (acc ++ [attr name v]) r4).
  - destruct Hname as [-> | [-> | ->]]; reflexivity.
  - now rewrite (attr_value _ _ Hvalue).
Qed.

Lemma attrs_loop_end (rest : string) (acc : list Attr) (f : nat) :
  attrs_loop (S f) acc (String ">" rest) = Got (acc, false, rest).
Proof. reflexivity. Qed.

(** A start tag with the three attributes the encoder writes. *)
Lemma rawToken_start (el cls id title rest : string) :
  el = "span" \/ el = "div" ->
  all attr_char cls = true -> all attr_char id = true ->
  all attr_char title = true ->
  rawToken
    ("<" +:+ el +:+ " class='" +:+ cls +:+ "' id='" +:+ id +:+ "' title='" +:+
     title +:+ "'>" +:+ rest) =
  Got (Some (StartElement (mkName "" el)
               [attr "class" cls; attr "id" id; attr "title" title] false,
             rest)).
Proof.
  intros Hel Hcls Hid Htitle.
  set (tail := cls +:+ String "'"
              (String " " ("id" +:+ "='" +:+ id +:+ String "'"
                 (String " " ("title" +:+ "='" +:+ title +:+ String "'"
                    (String ">" rest)))))).
  transitivity
    (let* (a, empty, rest') :=
       attrs_loop (S (S (S (S (4 + String.length tail))))) []
         (String " " ("class" +:+ "='" +:+ tail)) in
     Got (Some (StartElement (mkName "" el) a empty, rest'))).
  - destruct Hel as [-> | ->]; reflexivity.
  - subst tail.
    rewrite attrs_loop_step by auto.
    rewrite attrs_loop_step by auto.
    rewrite attrs_loop_step by auto.
    rewrite attrs_loop_end. reflexivity.
Qed.

Lemma rawToken_end_span (rest : string) :
  rawToken ("</span>" +:+ rest) = Got (Some (EndElement (mkName "" "span"), rest)).
Proof. reflexivity. Qed.

Lemma rawToken_end_div (rest : string) :
  rawToken ("</div>" +:+ rest) = Got (Some (EndElement (mkName "" "div"), rest)).
Proof. reflexivity. Qed.

(** The separator after a word or a line, before the next tag. *)
Lemma rawToken_separator (c : ascii) (rest : string) :
  c = " "%char \/ c = LF ->
  rawToken (String c (String "<" rest)) =
  Got (Some (CharData (String c ""), String "<" rest)).
Proof. intros [-> | ->]; reflexivity. Qed.

Lemma rawToken_text (x : ascii) (s : string) :
  Ascii.eqb x "<" = false ->
  rawToken (String x s) =
  (let* (data, rest) := text None false (String x s) in
   Got (Some (CharData data, rest))).
Proof. intros Hx. unfold rawToken. now rewrite Hx. Qed.

Lemma unmarshal_unfold (f : nat) (depth : N) (name : Name) (attrs : list Attr)
    (content : string) (children : list XMLElement) (s : string) :
  unmarshal (S f) depth name attrs content children s =
  (let* tok := rawToken s in
   match tok with
   | None => Fail
   | Some (StartElement n a empty, rest) =>
       if (5000 <=? depth + 1)%N then Unmodelled
       else
         let* (child, rest') :=
           if empty then Got (mkXMLElement n a "" [], rest)
           else unmarshal f (depth + 1) n a "" [] rest in
         unmarshal f depth name attrs content (children ++ [child]) rest'
   | Some (EndElement n, rest) =>
       if name_eqb n name
       then Got (mkXMLElement name attrs content children, rest)
       else Fail
   | Some (CharData data, rest) =>
       unmarshal f depth name attrs (content +:+ data) children rest
   | Some (_, rest) => unmarshal f depth name attrs content children rest
   end).
Proof. reflexivity. Qed.

Definition span_name : Name := mkName "" "span".

(** The inside of a word element: its escaped text and its end tag. *)
Lemma unmarshal_word_body (f : nat) (depth : N) (attrs : list Attr)
    (t rest : string) :
  all text_char t = true ->
  unmarshal (S (S f)) depth span_name attrs "" []
    (EscapeString t +:+ "</span>" +:+ rest) =
  Got (mkXMLElement span_name attrs t [], rest).
Proof.
  intros Ht. destruct t as [|c t].
  - reflexivity.
  - destruct (escaped_text_head c t) as (x & s & Hxs & Hx).
    rewrite unmarshal_unfold.
    change ("</span>" +:+ rest) with (String "<" ("/span>" +:+ rest)).
    assert (Htok :
      rawToken (EscapeString (String c t) +:+ String "<" ("/span>" +:+ rest)) =
      Got (Some (CharData (String c t), String "<" ("/span>" +:+ rest)))).
    { pose proof (escaped_text (String c t) ("/span>" +:+ rest) Ht) as Htext.
      rewrite Hxs in *. cbn [String.append] in *.
      rewrite rawToken_text by assumption. now rewrite Htext. }
    rewrite Htok. reflexivity.
Qed.

End DecodeFacts.

(** * Reading back what the encoder writes: words, lines and the page *)

Module ElementFacts.
Import GoLib Models Xml Parser Converter StringFacts LexFacts DecodeFacts.

#[local] Open Scope Z_scope.

(** *** The structures the round trip is proved for *)

Definition valid_coord (z : Z) : Prop := 0 <= z <= maxInt64.

Definition valid_box (b : BBox) : Prop :=
  valid_coord (X1 b) /\ valid_coord (Y1 b) /\
  valid_coord (X2 b) /\ valid_coord (Y2 b).

Definition valid_confidence (x : float64) : Prop :=
  exists q : Q, x = Finite q /\ (0 <= q)%Q /\ (q <= 100)%Q.

Record valid_word (w : HOCRWord) : Prop := mk_valid_word {
  word_id_chars : all attr_char (HOCRWord_ID w) = true;
  word_id_given : HOCRWord_ID w <> "";
  word_text_chars : all text_char (HOCRWord_Text w) = true;
  word_box : valid_box (HOCRWord_BBox w);
  word_confidence : valid_confidence (HOCRWord_Confidence w)
}.

Record valid_line (l : HOCRLine) : Prop := mk_valid_line {
  line_id_chars : all attr_char (HOCRLine_ID l) = true;
  line_words : Forall valid_word (HOCRLine_Words l)
}.

(** *** The elements the decoder builds *)

Definition word_title (w : HOCRWord) : string :=
  bbox_string (X1 (HOCRWord_BBox w)) (Y1 (HOCRWord_BBox w))
    (X2 (HOCRWord_BBox w)) (Y2 (HOCRWord_BBox w)) +:+
  "; x_wconf " +:+ format_f0 (HOCRWord_Confidence w).

Definition word_element (w : HOCRWord) : XMLElement :=
  mkXMLElement span_name
    [attr "class" "ocrx_word"; attr "id" (HOCRWord_ID w);
     attr "title" (word_title w)]
    (HOCRWord_Text w) [].

Definition line_title (l : HOCRLine) : string :=
  bbox_string (X1 (HOCRLine_BBox l)) (Y1 (HOCRLine_BBox l))
    (X2 (HOCRLine_BBox l)) (Y2 (HOCRLine_BBox l)).

(** One separator for every element of the list. *)
Definition separators {A : Type} (sep : string) (l : list A) : string :=
  String.concat "" (map (fun _ => sep) l).

Definition line_element (l : HOCRLine) : XMLElement :=
  mkXMLElement span_name
    [attr "class" "ocr_line"; attr "id" (HOCRLine_ID l);
     attr "title" (line_title l)]
    (separators " " (HOCRLine_Words l))
    (map word_element (HOCRLine_Words l)).

Lemma concat_cons (x : string) (xs : list string) :
  String.concat "" (x :: xs) = x +:+ String.concat "" xs.
Proof.
  destruct xs as [|y ys]; simpl; [now rewrite append_nil_r | reflexivity].
Qed.

(** *** Titles are attribute bytes *)

Lemma itoa_attr_char (z : Z) : all attr_char (itoa z) = true.
Proof.
  assert (Hdig : forall d, all attr_char (NilEmpty.string_of_uint d) = true).
  { intros d. eapply all_impl; [|apply string_of_uint_digits].
    intros c Hc. now apply re_digit_facts. }
  unfold itoa. destruct (z <? 0); [|apply Hdig].
  rewrite all_cons. now rewrite Hdig.
Qed.

Lemma bbox_string_attr_char (x1 y1 x2 y2 : Z) :
  all attr_char (bbox_string x1 y1 x2 y2) = true.
Proof.
  unfold bbox_string.
  rewrite !all_append, !itoa_attr_char. reflexivity.
Qed.

Lemma round_half_even_nonneg (q : Q) :
  (0 <= q)%Q -> 0 <= round_half_even q.
Proof.
  intros Hq. unfold round_half_even.
  assert (Hn : 0 <= Qnum q).
  { unfold Qle in Hq. simpl in Hq. lia. }
  pose proof (Z.div_pos (Qnum q) (Z.pos (Qden q)) Hn ltac:(lia)).
  repeat match goal with |- context [if ?b then _ else _] => destruct b end;
    lia.
Qed.

Lemma format_f0_valid (x : float64) :
  valid_confidence x ->
  exists r : Z, 0 <= r /\ format_f0 x = itoa r /\
                x = Finite (match x with Finite q => q | _ => 0%Q end) /\
                r = round_half_even (match x with Finite q => q | _ => 0%Q end).
Proof.
  intros (q & -> & Hq & _). exists (round_half_even q).
  split; [now apply round_half_even_nonneg|].
  split; [|split; reflexivity].
  unfold format_f0.
  assert (Hn : 0 <= Qnum q).
  { unfold Qle in Hq. simpl in Hq. lia. }
  destruct (Z.ltb_spec (Qnum q) 0); [lia | reflexivity].
Qed.

Lemma word_title_attr_char (w : HOCRWord) :
  valid_word w -> all attr_char (word_title w) = true.
Proof.
  intros Hw. unfold word_title.
  destruct (format_f0_valid _ (word_confidence w Hw)) as (r & _ & -> & _).
  rewrite !all_append, bbox_string_attr_char, itoa_attr_char. reflexivity.
Qed.

(** *** Elements *)

Lemma word_xml_shape (w : HOCRWord) (rest : string) :
  convertHOCRWordToXML w +:+ rest =
  "<" +:+ "span" +:+ " class='" +:+ "ocrx_word" +:+ "' id='" +:+
  HOCRWord_ID w +:+ "' title='" +:+ word_title w +:+ "'>" +:+
  (EscapeString (HOCRWord_Text w) +:+ "</span>" +:+ String " " rest).
Proof.
  unfold convertHOCRWordToXML, word_title.
  cbv zeta. rewrite !append_assoc. reflexivity.
Qed.

Lemma line_xml_shape (l : HOCRLine) (rest : string) :
  convertHOCRLineToXML l +:+ rest =
  "<" +:+ "span" +:+ " class='" +:+ "ocr_line" +:+ "' id='" +:+
  HOCRLine_ID l +:+ "' title='" +:+ line_title l +:+ "'>" +:+
  (String.concat "" (map convertHOCRWordToXML (HOCRLine_Words l)) +:+
   String "<" ("/span>" +:+ String LF rest)).
Proof.
  unfold convertHOCRLineToXML, line_title.
  cbv zeta. rewrite !append_assoc. reflexivity.
Qed.

(** What the encoder writes for a list of elements starts with a tag when
    what follows does. *)
Lemma words_xml_head (ws : list HOCRWord) (rest : string) :
  exists r : string,
    String.concat "" (map convertHOCRWordToXML ws) +:+ String "<" rest =
    String "<" r.
Proof.
  destruct ws as [|w ws]; [simpl; eauto|].
  cbn [map]. rewrite concat_cons, append_assoc, word_xml_shape.
  cbn [String.append]. eauto.
Qed.

Lemma lines_xml_head (ls : list HOCRLine) (rest : string) :
  exists r : string,
    String.concat "" (map convertHOCRLineToXML ls) +:+ String "<" rest =
    String "<" r.
Proof.
  destruct ls as [|l ls]; [simpl; eauto|].
  cbn [map]. rewrite concat_cons, append_assoc, line_xml_shape.
  cbn [String.append]. eauto.
Qed.

(** The words of a line, read inside the element that holds them. *)
Lemma unmarshal_words (ws : list HOCRWord) :
  Forall valid_word ws ->
  forall (k : nat) (depth : N) (name : Name) (attrs : list Attr)
         (content : string) (children : list XMLElement) (rest : string),
    (5000 <=? depth + 1)%N = false ->
    unmarshal (2 * List.length ws + S k) depth name attrs content children
      (String.concat "" (map convertHOCRWordToXML ws) +:+ String "<" rest) =
    unmarshal (S k) depth name attrs (content +:+ separators " " ws)
      (children ++ map word_element ws) (String "<" rest).
Proof.
  induction 1 as [|w ws Hw Hws IH];
    intros k depth name attrs content children rest Hdepth.
  - cbn [List.length map String.concat String.append separators].
    now rewrite append_nil_r, app_nil_r.
  - cbn [map]. unfold separators. cbn [map].
    rewrite !concat_cons, append_assoc.
    replace (2 * List.length (w :: ws) + S k)%nat
      with (S (S (2 * List.length ws + S k)))%nat by (simpl; lia).
    rewrite unmarshal_unfold, word_xml_shape.
    rewrite rawToken_start;
      [|auto|reflexivity|apply (word_id_chars w Hw)
       |now apply word_title_attr_char].
    cbn [bind]. rewrite Hdepth.
    replace (S (2 * List.length ws + S k))%nat
      with (S (S (2 * List.length ws + k)))%nat by lia.
    rewrite unmarshal_word_body by apply (word_text_chars w Hw).
    cbn [bind].
    destruct (words_xml_head ws rest) as [r Hr]. rewrite Hr.
    rewrite unmarshal_unfold.
    rewrite rawToken_separator by auto. cbn [bind].
    rewrite <- Hr.
    replace (S (2 * List.length ws + k))%nat
      with (2 * List.length ws + S k)%nat by lia.
    rewrite IH by assumption.
    fold (word_element w).
    now rewrite <- app_assoc, append_assoc.
Qed.

(** A line element. *)
Lemma unmarshal_line (l : HOCRLine) (k : nat) (depth : N) (rest : string) :
  valid_line l ->
  (5000 <=? depth + 1)%N = false ->
  unmarshal (2 * List.length (HOCRLine_Words l) + S k) depth span_name
    [attr "class" "ocr_line"; attr "id" (HOCRLine_ID l);
     attr "title" (line_title l)] "" []
    (String.concat "" (map convertHOCRWordToXML (HOCRLine_Words l)) +:+
     String "<" ("/span>" +:+ rest)) =
  Got (line_element l, rest).
Proof.
  intros Hl Hdepth.
  rewrite unmarshal_words by (try apply (line_words l Hl); assumption).
  reflexivity.
Qed.

(** The number of words of the longest line. *)
Definition widest (ls : list HOCRLine) : nat :=
  fold_right (fun l n => Nat.max (List.length (HOCRLine_Words l)) n) 0%nat ls.

(** The lines of the page, read inside the element that holds them. *)
Lemma unmarshal_lines (ls : list HOCRLine) :
  Forall valid_line ls ->
  forall (k : nat) (depth : N) (name : Name) (attrs : list Attr)
         (content : string) (children : list XMLElement) (rest : string),
    (5000 <=? depth + 1)%N = false ->
    (5000 <=? depth + 1 + 1)%N = false ->
    (2 * widest ls + 2 <= k)%nat ->
    unmarshal (2 * List.length ls + k) depth name attrs content children
      (String.concat "" (map convertHOCRLineToXML ls) +:+ String "<" rest) =
    unmarshal k depth name attrs (content +:+ separators (String LF "") ls)
      (children ++ map line_element ls) (String "<" rest).
Proof.
  induction 1 as [|l ls Hl Hls IH];
    intros k depth name attrs content children rest Hdepth Hdepth' Hk.
  - cbn [List.length map String.concat String.append separators].
    now rewrite append_nil_r, app_nil_r.
  - cbn [map]. unfold separators. cbn [map].
    rewrite !concat_cons, append_assoc.
    cbn [widest fold_right] in Hk. fold (widest ls) in Hk.
    replace (2 * List.length (l :: ls) + k)%nat
      with (S (S (2 * List.length ls + k)))%nat by (simpl; lia).
    rewrite unmarshal_unfold, line_xml_shape.
    rewrite rawToken_start;
      [|auto|reflexivity|apply (line_id_chars l Hl)
       |apply bbox_string_attr_char].
    cbn [bind]. rewrite Hdepth.
    replace (S (2 * List.length ls + k))%nat
      with (2 * List.length (HOCRLine_Words l) +
            S (2 * List.length ls + k - 2 * List.length (HOCRLine_Words l)))%nat
      by lia.
    rewrite unmarshal_line by assumption.
    cbn [bind].
    destruct (lines_xml_head ls rest) as [r Hr].
    cbn [String.append]. rewrite Hr.
    replace (2 * List.length (HOCRLine_Words l) +
             S (2 * List.length ls + k - 2 * List.length (HOCRLine_Words l)))%nat
      with (S (2 * List.length ls + k))%nat by lia.
    rewrite unmarshal_unfold.
    rewrite rawToken_separator by auto. cbn [bind].
    rewrite <- Hr.
    rewrite IH by (assumption || lia).
    now rewrite <- app_assoc, append_assoc.
Qed.

End ElementFacts.

(** * The decoder: documents that are rejected, and titles without a
      pattern *)

Module ParserErrors.
Import GoLib Models Xml Parser StringFacts ParserClaims LexFacts DecodeFacts.

(** *** Text without markup *)






(** *** Tags with a simple name *)













(** *** Documents that [ParseHOCRWords] rejects *)





(** *** The error of a title *)







(** *** A document of one word element *)










End ParserErrors.

(** * The accuracy scorer: distances, similarity and bounds *)

Module MetricsExtra.
Import GoLib Metrics MetricsFacts MetricsClaims.

#[local] Open Scope nat_scope.

Lemma length_bytes (s : string) : List.length (bytes s) = String.length s.
Proof.
  unfold bytes. induction s as [|c s IH]; simpl; [reflexivity | now rewrite IH].
Qed.

Lemma bytes_inj (s1 s2 : string) : bytes s1 = bytes s2 -> s1 = s2.
Proof.
  unfold bytes. intros H.
  rewrite <- (string_of_list_ascii_of_string s1), H.
  apply string_of_list_ascii_of_string.
Qed.

Lemma firstn_snoc {A : Type} (d : A) (l : list A) :
  forall i, i < List.length l -> firstn (S i) l = firstn i l ++ [nth i l d].
Proof.
  induction l as [|x l IH]; intros i Hi; simpl in Hi; [lia|].
  destruct i as [|i]; [reflexivity|].
  change (firstn (S (S i)) (x :: l)) with (x :: firstn (S i) l).
  rewrite IH by lia. reflexivity.
Qed.

Lemma lev_cell_sym (a b : ascii) (up left diag : nat) :
  lev_cell a b up left diag = lev_cell b a left up diag.
Proof. unfold lev_cell. rewrite Ascii.eqb_sym. lia. Qed.

(** *** The character table *)
Section Levenshtein.
Variables l1 l2 : list ascii.

(** A cell is at most the larger of its two indices. *)
Lemma lev_at_le_max :
  forall i j, i <= List.length l1 -> j <= List.length l2 ->
    at_ (table lev_cell l1 l2) i j <= Nat.max i j.
Proof.
  induction i as [|i IH]; intros j Hi Hj.
  - rewrite at_row0 by lia. lia.
  - destruct j as [|j].
    + rewrite (at_col0 lev_cell Ascii.zero) by lia. lia.
    + rewrite (at_step lev_cell Ascii.zero) by lia. unfold lev_cell at 1.
      specialize (IH j ltac:(lia) ltac:(lia)).
      destruct (Ascii.eqb _ _); lia.
Qed.

(** A cell is zero only on the diagonal, for equal prefixes. *)
Lemma lev_at_zero :
  forall i j, i <= List.length l1 -> j <= List.length l2 ->
    at_ (table lev_cell l1 l2) i j = 0 ->
    i = j /\ firstn i l1 = firstn j l2.
Proof.
  induction i as [|i IH]; intros j Hi Hj H0.
  - rewrite at_row0 in H0 by lia. subst j. split; reflexivity.
  - destruct j as [|j].
    + rewrite (at_col0 lev_cell Ascii.zero) in H0 by lia. discriminate.
    + rewrite (at_step lev_cell Ascii.zero) in H0 by lia.
      unfold lev_cell at 1 in H0.
      destruct (Ascii.eqb_spec (nth i l1 Ascii.zero) (nth j l2 Ascii.zero))
        as [Heq | Hne]; [|lia].
      assert (Hd : at_ (table lev_cell l1 l2) i j = 0) by lia.
      destruct (IH j ltac:(lia) ltac:(lia) Hd) as [-> Hf].
      split; [reflexivity|].
      rewrite !(firstn_snoc Ascii.zero) by lia. now rewrite Hf, Heq.
Qed.
End Levenshtein.

Lemma lev_at_diag (l : list ascii) :
  forall i, i <= List.length l -> at_ (table lev_cell l l) i i = 0.
Proof.
  induction i as [|i IH]; intros Hi.
  - now rewrite at_row0 by lia.
  - rewrite (at_step lev_cell Ascii.zero) by lia. unfold lev_cell at 1.
    rewrite Ascii.eqb_refl, IH by lia. lia.
Qed.

(** The table of the swapped strings is the transposed table. *)
Lemma lev_at_sym (l1 l2 : list ascii) :
  forall k i j, i + j <= k ->
    i <= List.length l1 -> j <= List.length l2 ->
    at_ (table lev_cell l1 l2) i j = at_ (table lev_cell l2 l1) j i.
Proof.
  induction k as [|k IH]; intros i j Hk Hi Hj.
  - assert (i = 0) by lia. assert (j = 0) by lia. subst.
    now rewrite !at_row0 by lia.
  - destruct i as [|i], j as [|j].
    + now rewrite !at_row0 by lia.
    + rewrite at_row0, (at_col0 lev_cell Ascii.zero) by lia. reflexivity.
    + rewrite at_row0, (at_col0 lev_cell Ascii.zero) by lia. reflexivity.
    + rewrite !(at_step lev_cell Ascii.zero) by lia.
      rewrite (IH i (S j)), (IH (S i) j), (IH i j) by lia.
      apply lev_cell_sym.
Qed.

(** *** [levenshteinDistance] *)

Lemma levenshteinDistance_le (s1 s2 : string) :
  levenshteinDistance s1 s2 <= Nat.max (String.length s1) (String.length s2).
Proof.
  unfold levenshteinDistance.
  destruct (Nat.eqb_spec (String.length s1) 0); [lia|].
  destruct (Nat.eqb_spec (String.length s2) 0); [lia|].
  apply lev_at_le_max; rewrite length_bytes; lia.
Qed.

Lemma levenshteinDistance_zero (s1 s2 : string) :
  levenshteinDistance s1 s2 = 0 <-> s1 = s2.
Proof.
  unfold levenshteinDistance. split.
  - destruct (Nat.eqb_spec (String.length s1) 0) as [H1 | H1].
    { intros H2. destruct s1, s2; simpl in *; congruence. }
    destruct (Nat.eqb_spec (String.length s2) 0) as [H2 | H2]; [lia|].
    intros H0. apply lev_at_zero in H0; rewrite ?length_bytes; try lia.
    destruct H0 as [Hlen Hf]. apply bytes_inj.
    rewrite <- (firstn_all (bytes s1)), <- (firstn_all (bytes s2)).
    now rewrite !length_bytes.
  - intros <-.
    destruct (Nat.eqb_spec (String.length s1) 0) as [H1 | H1]; [exact H1|].
    rewrite <- length_bytes. apply lev_at_diag. lia.
Qed.

Lemma levenshteinDistance_sym (s1 s2 : string) :
  levenshteinDistance s1 s2 = levenshteinDistance s2 s1.
Proof.
  unfold levenshteinDistance.
  destruct (Nat.eqb_spec (String.length s1) 0) as [H1 | H1];
    destruct (Nat.eqb_spec (String.length s2) 0) as [H2 | H2]; try lia.
  apply (lev_at_sym _ _ (String.length s1 + String.length s2));
    rewrite ?length_bytes; lia.
Qed.

(** X1.  The character distance of two strings is at most the length of
    the longer one, and it is zero exactly when the two strings are
    equal. *)
Theorem distance_bounded_and_zero_iff_equal (s1 s2 : string) :
  levenshteinDistance s1 s2 <=
    Nat.max (String.length s1) (String.length s2) /\
  (levenshteinDistance s1 s2 = 0 <-> s1 = s2).
Proof.
  split; [apply levenshteinDistance_le | apply levenshteinDistance_zero].
Qed.

(** *** [calculateSimilarity] *)

(** X2.  Neither the character distance nor the similarity depends on
    which of the two strings is the original. *)
Theorem similarity_symmetric (s1 s2 : string) :
  levenshteinDistance s1 s2 = levenshteinDistance s2 s1 /\
  calculateSimilarity s1 s2 = calculateSimilarity s2 s1.
Proof.
  split; [apply levenshteinDistance_sym|].
  unfold calculateSimilarity.
  now rewrite levenshteinDistance_sym, Nat.max_comm.
Qed.

(** *** The word table and the edit script *)
Section WordTable.
Variables orig trans : list string.

Lemma word_at_le_max :
  forall i j, i <= List.length orig -> j <= List.length trans ->
    at_ (table word_cell orig trans) i j <= Nat.max i j.
Proof.
  induction i as [|i IH]; intros j Hi Hj.
  - rewrite at_row0 by lia. lia.
  - destruct j as [|j].
    + rewrite (at_col0 word_cell "") by lia. lia.
    + rewrite (at_step word_cell "") by lia. unfold word_cell at 1.
      specialize (IH j ltac:(lia) ltac:(lia)).
      destruct (String.eqb _ _); lia.
Qed.

Lemma word_at_zero :
  forall i j, i <= List.length orig -> j <= List.length trans ->
    at_ (table word_cell orig trans) i j = 0 ->
    i = j /\ firstn i orig = firstn j trans.
Proof.
  induction i as [|i IH]; intros j Hi Hj H0.
  - rewrite at_row0 in H0 by lia. subst j. split; reflexivity.
  - destruct j as [|j].
    + rewrite (at_col0 word_cell "") in H0 by lia. discriminate.
    + rewrite (at_step word_cell "") in H0 by lia.
      unfold word_cell at 1 in H0.
      destruct (String.eqb_spec (nth i orig "") (nth j trans ""))
        as [Heq | Hne]; [|lia].
      destruct (IH j ltac:(lia) ltac:(lia) H0) as [-> Hf].
      split; [reflexivity|].
      rewrite !(firstn_snoc "") by lia. now rewrite Hf, Heq.
Qed.

(** Every step of the backtracking that counts an edit moves to a cell
    whose value is one less, and a match moves to a cell of the same value:
    the edits counted from [(i, j)] are the value of that cell. *)
Lemma backtrack_edits (fuel : nat) :
  forall i j co su de ins co' su' de' ins',
    i <= List.length orig -> j <= List.length trans ->
    backtrack orig trans (table word_cell orig trans) fuel i j
      (co, su, de, ins) = Some (co', su', de', ins') ->
    su' + de' + ins' = su + de + ins + at_ (table word_cell orig trans) i j.
Proof.
  induction fuel as [|fuel IH];
    intros i j co su de ins co' su' de' ins' Hi Hj Hbt;
    cbn [backtrack] in Hbt;
    destruct ((0 <? i) || (0 <? j)) eqn:Hloop.
  - discriminate.
  - injection Hbt as <- <- <- <-.
    destruct i, j; try discriminate. rewrite at_row0 by lia. lia.
  - destruct (choose_op orig trans (table word_cell orig trans) i j)
      as [op|] eqn:Hop.
    + apply choose_op_first_admissible in Hop as [Hadm _].
      destruct op; apply IH in Hbt; try lia;
        unfold admissible in Hadm;
        repeat (apply andb_prop in Hadm as [Hadm ?]);
        repeat match goal with
               | H : (_ <? _) = true |- _ => apply Nat.ltb_lt in H
               | H : (_ =? _) = true |- _ => apply Nat.eqb_eq in H
               end; try lia.
      (* a match: the cell is its diagonal neighbour *)
      destruct i as [|i], j as [|j]; try lia.
      rewrite (at_step word_cell "") by lia. unfold word_cell at 1.
      simpl in *. rewrite !Nat.sub_0_r in *.
      unfold word_at in *.
      match goal with H : String.eqb _ _ = true |- _ => rewrite H end.
      exact Hbt.
    + apply IH in Hbt; assumption.
  - injection Hbt as <- <- <- <-.
    destruct i, j; try discriminate. rewrite at_row0 by lia. lia.
Qed.
End WordTable.

Lemma word_at_diag (l : list string) :
  forall i, i <= List.length l -> at_ (table word_cell l l) i i = 0.
Proof.
  induction i as [|i IH]; intros Hi.
  - now rewrite at_row0 by lia.
  - rewrite (at_step word_cell "") by lia. unfold word_cell at 1.
    rewrite String.eqb_refl. apply IH. lia.
Qed.

(** The edits a result reports are the value of the last cell of the word
    table. *)
Lemma CalculateAccuracyMetrics_edits (original transcribed : string) :
  let origWords := Fields (normalizeText original) in
  let transWords := Fields (normalizeText transcribed) in
  exists r : EvalResult,
    CalculateAccuracyMetrics original transcribed = Some r /\
    total_edits r =
      at_ (table word_cell origWords transWords)
        (List.length origWords) (List.length transWords).
Proof.
  intros origWords transWords.
  unfold CalculateAccuracyMetrics, calculateWordLevelMetrics.
  fold origWords transWords.
  destruct (backtrack_total origWords transWords
              (List.length origWords + List.length transWords)
              (List.length origWords) (List.length transWords) 0 0 0 0)
    as (co & su & de & ins & Hbt & _ & _); try lia.
  rewrite Hbt. eexists. split; [reflexivity|].
  unfold total_edits. cbn [Substitutions Deletions Insertions].
  apply backtrack_edits in Hbt; lia.
Qed.

(** X3.  The scorer reports no edit exactly when the two texts have the
    same words after normalization, and every word of both is then counted
    correct. *)
Theorem no_edits_iff_same_words (original transcribed : string) :
  exists r : EvalResult,
    CalculateAccuracyMetrics original transcribed = Some r /\
    (total_edits r = 0 <->
     Fields (normalizeText original) = Fields (normalizeText transcribed)) /\
    (total_edits r = 0 ->
     CorrectWords r = TotalWordsOriginal r /\
     CorrectWords r = TotalWordsTranscribed r).
Proof.
  destruct (CalculateAccuracyMetrics_shape original transcribed)
    as (r & Hr & Ho & Ht & Hco & Hct & _).
  destruct (CalculateAccuracyMetrics_edits original transcribed)
    as (r' & Hr' & He).
  rewrite Hr in Hr'. injection Hr' as <-.
  exists r. split; [exact Hr|]. split.
  - rewrite He. split.
    + intros H0. apply word_at_zero in H0; try lia.
      destruct H0 as [Hlen Hf].
      rewrite <- (firstn_all (Fields (normalizeText original))).
      rewrite <- (firstn_all (Fields (normalizeText transcribed))).
      exact Hf.
    + intros <-. apply word_at_diag. lia.
  - intros H0. unfold total_edits in H0. lia.
Qed.

(** X4.  The edits a result reports are at most the larger of the two word
    counts, so they can exceed the number of words of the original: for a
    transcript of three words against an original of one, the word accuracy
    is [1 - 3/1 = -2]. *)
Theorem edits_bounded_by_longer_text :
  (forall original transcribed : string,
     exists r : EvalResult,
       CalculateAccuracyMetrics original transcribed = Some r /\
       total_edits r <=
         Nat.max (TotalWordsOriginal r) (TotalWordsTranscribed r)) /\
  (exists r : EvalResult,
     CalculateAccuracyMetrics "a" "b c d" = Some r /\
     total_edits r = 3 /\ TotalWordsOriginal r = 1 /\
     WordAccuracy r = (-2)%float /\ WordErrorRate r = 3%float).
Proof.
  split.
  - intros original transcribed.
    destruct (CalculateAccuracyMetrics_shape original transcribed)
      as (r & Hr & Ho & Ht & _).
    destruct (CalculateAccuracyMetrics_edits original transcribed)
      as (r' & Hr' & He).
    rewrite Hr in Hr'. injection Hr' as <-.
    exists r. split; [exact Hr|].
    rewrite He, Ho, Ht. apply word_at_le_max; lia.
  - eexists. split; [vm_compute; reflexivity|].
    repeat split; vm_compute; reflexivity.
Qed.

End MetricsExtra.

(** * The line converter: grouping, boxes and identifiers *)

Module LineConverterFacts.
Import GoLib Models GCV LineConverter LexFacts.

#[local] Open Scope Z_scope.

(** *** [groupWordsIntoLines] *)

(** A line that was closed at its last word: no word before it ends a
    line. *)
Definition closed_line (line : list Word) : Prop :=
  exists (front : list Word) (w : Word),
    line = front ++ [w] /\ Forall (fun x => ends_line x = false) front.

(** A line that was closed by a line break. *)
Definition broken_line (line : list Word) : Prop :=
  exists (front : list Word) (w : Word),
    line = front ++ [w] /\ ends_line w = true.

Lemma closed_line_not_nil (line : list Word) : closed_line line -> line <> [].
Proof. intros (front & w & -> & _). now destruct front. Qed.

Lemma concat_closed_nil (lines : list (list Word)) :
  Forall closed_line lines -> List.concat lines = [] -> lines = [].
Proof.
  intros Hall Hnil. destruct lines as [|l lines]; [reflexivity|].
  inversion Hall as [|? ? Hl _]; subst.
  apply closed_line_not_nil in Hl. simpl in Hnil.
  destruct l; [congruence | discriminate].
Qed.

Lemma group_loop_spec (words : list Word) :
  forall (lines : list (list Word)) (currentLine : list Word),
    Forall (fun x => ends_line x = false) currentLine ->
    words <> [] \/ currentLine = [] ->
    exists new : list (list Word),
      group_loop words lines currentLine = lines ++ new /\
      List.concat new = currentLine ++ words /\
      Forall closed_line new /\
      Forall broken_line (removelast new).
Proof.
  induction words as [|word rest IH]; intros lines currentLine Hcur Hne.
  - destruct Hne as [Hne | ->]; [congruence|].
    exists []. simpl. rewrite app_nil_r. repeat split; constructor.
  - cbn [group_loop].
    destruct (ends_line word ||
              match rest with [] => true | _ :: _ => false end) eqn:Hend.
    + destruct (IH (lines ++ [currentLine ++ [word]]) [] (Forall_nil _)
                  (or_intror eq_refl))
        as (new & Hrun & Hcat & Hclosed & Hbroken).
      exists ((currentLine ++ [word]) :: new).
      rewrite Hrun, <- app_assoc. split; [reflexivity|].
      split; [simpl; rewrite Hcat, <- app_assoc; reflexivity|].
      split; [constructor; [exists currentLine, word; auto | assumption]|].
      destruct new as [|l new]; [constructor|].
      change (removelast ((currentLine ++ [word]) :: l :: new))
        with ((currentLine ++ [word]) :: removelast (l :: new)).
      constructor; [|assumption].
      exists currentLine, word. split; [reflexivity|].
      destruct (ends_line word); [reflexivity|].
      destruct rest as [|r rest]; [|discriminate].
      apply concat_closed_nil in Hcat; [discriminate | assumption].
    + apply orb_false_elim in Hend as [Hword Hrest].
      destruct (IH lines (currentLine ++ [word])) as
        (new & Hrun & Hcat & Hclosed & Hbroken).
      * apply Forall_app. split; [assumption | now constructor].
      * left. destruct rest; [discriminate | discriminate].
      * exists new. rewrite Hcat, <- app_assoc. auto.
Qed.

(** X5.  [groupWordsIntoLines] cuts the words of a paragraph into lines
    without losing or reordering a word: the lines, concatenated, are the
    words.  No line is empty; inside a line only the last word may carry a
    line break, and every line but the last ends with a word that carries
    one. *)
Theorem groupWordsIntoLines_partition (words : list Word) :
  List.concat (groupWordsIntoLines words) = words /\
  Forall closed_line (groupWordsIntoLines words) /\
  Forall broken_line (removelast (groupWordsIntoLines words)).
Proof.
  unfold groupWordsIntoLines. destruct words as [|w words].
  - repeat split; constructor.
  - assert (Hne : w :: words <> [] \/ @nil Word = []) by (left; discriminate).
    destruct (group_loop_spec (w :: words) [] [] (Forall_nil _) Hne)
      as (new & Hrun & Hcat & Hclosed & Hbroken).
    rewrite Hrun. rewrite app_nil_l. auto.
Qed.

(** *** Bounding boxes *)

(** The running minimum and maximum of a coordinate, as the loops of
    [boundingPolyToBBoxStruct] and [calculateLineBBoxStruct] keep them. *)
Definition run_min {A : Type} (key : A -> Z) (vs : list A) (m : Z) : Z :=
  fold_left (fun m v => if key v <? m then key v else m) vs m.

Definition run_max {A : Type} (key : A -> Z) (vs : list A) (m : Z) : Z :=
  fold_left (fun m v => if m <? key v then key v else m) vs m.

Lemma run_min_spec {A : Type} (key : A -> Z) (vs : list A) :
  forall m,
    run_min key vs m <= m /\
    (forall v, In v vs -> run_min key vs m <= key v) /\
    (run_min key vs m = m \/ exists v, In v vs /\ key v = run_min key vs m).
Proof.
  induction vs as [|x vs IH]; intros m; cbn [run_min fold_left].
  - split; [lia|]. split; [intros v []|]. now left.
  - fold (run_min key vs (if key x <? m then key x else m)).
    destruct (IH (if key x <? m then key x else m)) as (Hle & Hall & Hatt).
    destruct (Z.ltb_spec (key x) m) as [Hlt | Hge].
    + split; [lia|]. split.
      * intros v [<- | Hv]; [assumption | now apply Hall].
      * right. destruct Hatt as [Heq | (v & Hv & Hkey)].
        -- exists x. split; [now left | now rewrite Heq].
        -- exists v. split; [now right | assumption].
    + split; [lia|]. split.
      * intros v [<- | Hv]; [lia | now apply Hall].
      * destruct Hatt as [Heq | (v & Hv & Hkey)]; [now left|].
        right. exists v. split; [now right | assumption].
Qed.

Lemma run_max_spec {A : Type} (key : A -> Z) (vs : list A) :
  forall m,
    m <= run_max key vs m /\
    (forall v, In v vs -> key v <= run_max key vs m) /\
    (run_max key vs m = m \/ exists v, In v vs /\ key v = run_max key vs m).
Proof.
  induction vs as [|x vs IH]; intros m; cbn [run_max fold_left].
  - split; [lia|]. split; [intros v []|]. now left.
  - fold (run_max key vs (if m <? key x then key x else m)).
    destruct (IH (if m <? key x then key x else m)) as (Hle & Hall & Hatt).
    destruct (Z.ltb_spec m (key x)) as [Hlt | Hge].
    + split; [lia|]. split.
      * intros v [<- | Hv]; [assumption | now apply Hall].
      * right. destruct Hatt as [Heq | (v & Hv & Hkey)].
        -- exists x. split; [now left | now rewrite Heq].
        -- exists v. split; [now right | assumption].
    + split; [lia|]. split.
      * intros v [<- | Hv]; [lia | now apply Hall].
      * destruct Hatt as [Heq | (v & Hv & Hkey)]; [now left|].
        right. exists v. split; [now right | assumption].
Qed.

(** The loop over the vertices keeps the four bounds independently. *)
Lemma bounds_runs (vs : list Vertex) :
  forall minX minY maxX maxY,
    Converter.bounds vs minX minY maxX maxY =
    (run_min Vertex_X vs minX, run_min Vertex_Y vs minY,
     run_max Vertex_X vs maxX, run_max Vertex_Y vs maxY).
Proof.
  induction vs as [|v vs IH]; intros minX minY maxX maxY.
  - reflexivity.
  - cbn [Converter.bounds]. rewrite IH. reflexivity.
Qed.

Lemma fold_left_flat_map {A B C : Type} (f : A -> B -> A) (g : C -> list B)
    (l : list C) :
  forall a,
    fold_left f (flat_map g l) a =
    fold_left (fun acc x => fold_left f (g x) acc) l a.
Proof.
  induction l as [|x l IH]; intros a; simpl; [reflexivity|].
  now rewrite fold_left_app, IH.
Qed.

(** All the vertices of the words of a line. *)
Definition line_vertices (words : list Word) : list Vertex :=
  flat_map (fun word => Vertices (Word_BoundingBox word)) words.

Lemma line_bounds_runs (words : list Word) :
  forall minX minY maxX maxY,
    fold_left
      (fun '(minX, minY, maxX, maxY) word =>
         Converter.bounds (Vertices (Word_BoundingBox word))
           minX minY maxX maxY)
      words (minX, minY, maxX, maxY) =
    (run_min Vertex_X (line_vertices words) minX,
     run_min Vertex_Y (line_vertices words) minY,
     run_max Vertex_X (line_vertices words) maxX,
     run_max Vertex_Y (line_vertices words) maxY).
Proof.
  unfold line_vertices, run_min, run_max.
  induction words as [|w words IH]; intros minX minY maxX maxY.
  - reflexivity.
  - cbn [fold_left flat_map]. rewrite bounds_runs, IH.
    unfold run_min, run_max. now rewrite !fold_left_app.
Qed.

(** The coordinates of a Go [int] that is not negative. *)
Definition coordinate (z : Z) : Prop := 0 <= z <= maxInt64.

Definition in_quadrant (v : Vertex) : Prop :=
  coordinate (Vertex_X v) /\ coordinate (Vertex_Y v).

Lemma run_min_attained (key : Vertex -> Z) (vs : list Vertex) :
  vs <> [] -> (forall v, In v vs -> key v <= maxInt64) ->
  exists v, In v vs /\ key v = run_min key vs maxInt64.
Proof.
  intros Hne Hmax.
  destruct (run_min_spec key vs maxInt64) as (_ & Hall & [Heq | Hatt]);
    [|assumption].
  destruct vs as [|x vs]; [congruence|].
  exists x. split; [now left|].
  specialize (Hall x (or_introl eq_refl)). specialize (Hmax x (or_introl eq_refl)).
  lia.
Qed.

Lemma run_max_attained (key : Vertex -> Z) (vs : list Vertex) :
  vs <> [] -> (forall v, In v vs -> 0 <= key v) ->
  exists v, In v vs /\ key v = run_max key vs 0.
Proof.
  intros Hne Hmin.
  destruct (run_max_spec key vs 0) as (_ & Hall & [Heq | Hatt]);
    [|assumption].
  destruct vs as [|x vs]; [congruence|].
  exists x. split; [now left|].
  specialize (Hall x (or_introl eq_refl)). specialize (Hmin x (or_introl eq_refl)).
  lia.
Qed.

Lemma boundingPolyToBBoxStruct_runs (poly : BoundingPoly) :
  Vertices poly <> [] ->
  boundingPolyToBBoxStruct poly =
  mkBBox (run_min Vertex_X (Vertices poly) maxInt64)
    (run_min Vertex_Y (Vertices poly) maxInt64)
    (run_max Vertex_X (Vertices poly) 0)
    (run_max Vertex_Y (Vertices poly) 0).
Proof.
  intros Hne. unfold boundingPolyToBBoxStruct.
  destruct (Vertices poly) as [|v vs]; [congruence|].
  now rewrite bounds_runs.
Qed.

Lemma calculateLineBBoxStruct_runs (words : list Word) :
  words <> [] ->
  calculateLineBBoxStruct words =
  mkBBox (run_min Vertex_X (line_vertices words) maxInt64)
    (run_min Vertex_Y (line_vertices words) maxInt64)
    (run_max Vertex_X (line_vertices words) 0)
    (run_max Vertex_Y (line_vertices words) 0).
Proof.
  intros Hne. unfold calculateLineBBoxStruct.
  destruct words as [|w words]; [congruence|].
  now rewrite line_bounds_runs.
Qed.

(** X6.  The box [boundingPolyToBBoxStruct] gives a polygon encloses every
    vertex of it; a polygon without vertices gets the zero box; and when the
    polygon has a vertex and all its coordinates are non-negative, every side
    of the box passes through a vertex (the box is the smallest one). *)
Theorem bbox_of_polygon_is_tight (poly : BoundingPoly) :
  let b := boundingPolyToBBoxStruct poly in
  (Vertices poly = [] -> b = mkBBox 0 0 0 0) /\
  (forall v, In v (Vertices poly) ->
     X1 b <= Vertex_X v <= X2 b /\ Y1 b <= Vertex_Y v <= Y2 b) /\
  (Vertices poly <> [] -> Forall in_quadrant (Vertices poly) ->
   (exists v, In v (Vertices poly) /\ Vertex_X v = X1 b) /\
   (exists v, In v (Vertices poly) /\ Vertex_Y v = Y1 b) /\
   (exists v, In v (Vertices poly) /\ Vertex_X v = X2 b) /\
   (exists v, In v (Vertices poly) /\ Vertex_Y v = Y2 b)).
Proof.
  cbv zeta. split; [|split].
  - intros Hnil. unfold boundingPolyToBBoxStruct. now rewrite Hnil.
  - intros v Hv.
    rewrite boundingPolyToBBoxStruct_runs by (intros E; now rewrite E in Hv).
    cbn [X1 X2 Y1 Y2].
    pose proof (proj1 (proj2 (run_min_spec Vertex_X (Vertices poly) maxInt64)) v Hv).
    pose proof (proj1 (proj2 (run_min_spec Vertex_Y (Vertices poly) maxInt64)) v Hv).
    pose proof (proj1 (proj2 (run_max_spec Vertex_X (Vertices poly) 0)) v Hv).
    pose proof (proj1 (proj2 (run_max_spec Vertex_Y (Vertices poly) 0)) v Hv).
    lia.
  - intros Hne Hquad. rewrite boundingPolyToBBoxStruct_runs by assumption.
    cbn [X1 X2 Y1 Y2]. rewrite List.Forall_forall in Hquad.
    repeat split;
      (apply run_min_attained || apply run_max_attained); try assumption;
      intros v Hv; destruct (Hquad v Hv) as [[? ?] [? ?]]; assumption.
Qed.

(** X7.  The box [calculateLineBBoxStruct] gives the words of a line
    encloses every vertex of every word, and the box of every word that
    has a vertex.  When the line has words but none of them has a vertex,
    the box is the inverted box the loop starts from. *)
Theorem line_box_encloses_its_words (words : list Word) :
  let b := calculateLineBBoxStruct words in
  (forall w v, In w words -> In v (Vertices (Word_BoundingBox w)) ->
     X1 b <= Vertex_X v <= X2 b /\ Y1 b <= Vertex_Y v <= Y2 b) /\
  (forall w, In w words -> Vertices (Word_BoundingBox w) <> [] ->
     let bw := boundingPolyToBBoxStruct (Word_BoundingBox w) in
     X1 b <= X1 bw /\ X2 bw <= X2 b /\ Y1 b <= Y1 bw /\ Y2 bw <= Y2 b) /\
  (words <> [] ->
   (forall w, In w words -> Vertices (Word_BoundingBox w) = []) ->
   b = mkBBox maxInt64 maxInt64 0 0).
Proof.
  cbv zeta.
  assert (Hin : forall w v, In w words ->
            In v (Vertices (Word_BoundingBox w)) -> In v (line_vertices words)).
  { intros w v Hw Hv. unfold line_vertices. apply in_flat_map. eauto. }
  assert (Hne : forall w, In w words -> words <> []).
  { intros w Hw E. now rewrite E in Hw. }
  destruct (run_min_spec Vertex_X (line_vertices words) maxInt64)
    as (HaX & HallX & _).
  destruct (run_min_spec Vertex_Y (line_vertices words) maxInt64)
    as (HaY & HallY & _).
  destruct (run_max_spec Vertex_X (line_vertices words) 0)
    as (HbX & HmaxX & _).
  destruct (run_max_spec Vertex_Y (line_vertices words) 0)
    as (HbY & HmaxY & _).
  split; [|split].
  - intros w v Hw Hv.
    rewrite calculateLineBBoxStruct_runs by eauto. cbn [X1 X2 Y1 Y2].
    specialize (Hin w v Hw Hv).
    specialize (HallX v Hin). specialize (HallY v Hin).
    specialize (HmaxX v Hin). specialize (HmaxY v Hin). lia.
  - intros w Hw Hvs.
    rewrite calculateLineBBoxStruct_runs by eauto.
    rewrite boundingPolyToBBoxStruct_runs by assumption.
    cbn [X1 X2 Y1 Y2].
    set (vs := Vertices (Word_BoundingBox w)) in *.
    destruct (run_min_spec Vertex_X vs maxInt64) as (_ & _ & [-> | (v1 & Hv1 & <-)]);
    destruct (run_min_spec Vertex_Y vs maxInt64) as (_ & _ & [-> | (v2 & Hv2 & <-)]);
    destruct (run_max_spec Vertex_X vs 0) as (_ & _ & [-> | (v3 & Hv3 & <-)]);
    destruct (run_max_spec Vertex_Y vs 0) as (_ & _ & [-> | (v4 & Hv4 & <-)]);
    repeat match goal with
           | H : In ?v vs |- _ =>
               pose proof (HallX v (Hin w v Hw H));
               pose proof (HallY v (Hin w v Hw H));
               pose proof (HmaxX v (Hin w v Hw H));
               pose proof (HmaxY v (Hin w v Hw H));
               clear H
           end; lia.
  - intros Hwords Hnone.
    rewrite calculateLineBBoxStruct_runs by assumption.
    assert (Hnil : line_vertices words = []).
    { unfold line_vertices. clear - Hnone.
      induction words as [|w words IH]; [reflexivity|].
      simpl. rewrite (Hnone w (or_introl eq_refl)). apply IH.
      intros w' Hw'. apply Hnone. now right. }
    rewrite Hnil. reflexivity.
Qed.

(** *** Identifiers *)

(** [%d] is injective: the number is read back from its digits. *)
Definition itoa_value (s : string) : Z :=
  match s with
  | String c r => if Ascii.eqb c "-" then - digits_value r else digits_value s
  | EmptyString => 0
  end.

Lemma itoa_value_itoa (z : Z) : itoa_value (itoa z) = z.
Proof.
  destruct (Z.ltb_spec z 0) as [Hneg | Hpos].
  - unfold itoa. destruct (Z.ltb_spec z 0) as [_ | ?]; [|lia].
    unfold itoa_value, digits_value.
    rewrite Ascii.eqb_refl, NilEmpty.usu, DecimalN.Unsigned.of_to. lia.
  - destruct (itoa_digits z Hpos) as [Hdig (c & r & Hcr)].
    pose proof (digits_value_itoa z Hpos) as Hval.
    rewrite Hcr in *. rewrite all_cons in Hdig.
    apply andb_true_iff in Hdig as [Hc _].
    destruct (re_digit_facts c Hc) as (_ & _ & _ & _ & _ & Hminus & _).
    unfold itoa_value. now rewrite Hminus.
Qed.

Lemma itoa_inj (a b : Z) : itoa a = itoa b -> a = b.
Proof.
  intros H. rewrite <- (itoa_value_itoa a), <- (itoa_value_itoa b).
  now rewrite H.
Qed.

Definition line_id (i : Z) : string := "line_" +:+ itoa i.
Definition word_id (i : Z) : string := "word_" +:+ itoa i.

Lemma line_id_inj (a b : Z) : line_id a = line_id b -> a = b.
Proof. unfold line_id. intros H. apply itoa_inj. now inversion H. Qed.

Lemma word_id_inj (a b : Z) : word_id a = word_id b -> a = b.
Proof. unfold word_id. intros H. apply itoa_inj. now inversion H. Qed.

(** The [n] consecutive integers from [c]. *)
Fixpoint count_from (c : Z) (n : nat) : list Z :=
  match n with
  | O => []
  | S n' => c :: count_from (c + 1) n'
  end.

Lemma count_from_app (n1 n2 : nat) :
  forall c,
    count_from c (n1 + n2) =
    count_from c n1 ++ count_from (c + Z.of_nat n1) n2.
Proof.
  induction n1 as [|n1 IH]; intros c.
  - simpl. now rewrite Z.add_0_r.
  - cbn [Nat.add count_from app]. rewrite IH. do 3 f_equal. lia.
Qed.

Lemma in_count_from (n : nat) :
  forall c x, In x (count_from c n) <-> c <= x < c + Z.of_nat n.
Proof.
  induction n as [|n IH]; intros c x; cbn [count_from In].
  - lia.
  - rewrite IH. lia.
Qed.

Lemma NoDup_count_from (n : nat) : forall c, NoDup (count_from c n).
Proof.
  induction n as [|n IH]; intros c; cbn [count_from]; constructor.
  - rewrite in_count_from. lia.
  - apply IH.
Qed.

Lemma NoDup_map_inj {A B : Type} (f : A -> B) (l : list A) :
  (forall a b, f a = f b -> a = b) -> NoDup l -> NoDup (map f l).
Proof.
  intros Hinj Hl. induction Hl as [|x l Hx Hl IH]; simpl; constructor.
  - intros Hin. apply in_map_iff in Hin as (y & Hy & Hyl).
    apply Hinj in Hy. now subst.
  - assumption.
Qed.

Lemma nth_error_map_count (f : Z -> string) (n : nat) :
  forall c k x,
    nth_error (map f (count_from c n)) k = Some x ->
    x = f (c + Z.of_nat k).
Proof.
  induction n as [|n IH]; intros c k x H.
  - destruct k; discriminate.
  - destruct k as [|k]; cbn in H.
    + injection H as <-. f_equal. lia.
    + apply IH in H. subst. f_equal. lia.
Qed.

(** All the words of a list of lines. *)
Definition all_words (lines : list HOCRLine) : list HOCRWord :=
  flat_map HOCRLine_Words lines.

Definition word_text (w : Word) : string :=
  Converter.symbols_text (Word_Symbols w).

Definition word_box (w : Word) : BBox :=
  boundingPolyToBBoxStruct (Word_BoundingBox w).

(** What a method that went from the converter [h] to [h'] and produced
    [lines] for the recognizer's words [source] has done: it numbered the
    lines and the words from the counters of [h], advanced the counters
    past them, gave every word the identifier of its line, and kept the
    words, their texts and their boxes in order. *)
Record converted (h : Converter) (source : list Word) (lines : list HOCRLine)
    (h' : Converter) : Prop := {
  conv_lineCounter :
    lineCounter h' = lineCounter h + Z.of_nat (List.length lines);
  conv_wordCounter :
    wordCounter h' = wordCounter h + Z.of_nat (List.length (all_words lines));
  conv_line_ids :
    map HOCRLine_ID lines =
    map line_id (count_from (lineCounter h) (List.length lines));
  conv_word_ids :
    map HOCRWord_ID (all_words lines) =
    map word_id (count_from (wordCounter h) (List.length (all_words lines)));
  conv_members :
    Forall
      (fun line =>
         HOCRLine_Words line <> [] /\
         Forall (fun w => HOCRWord_LineID w = HOCRLine_ID line)
           (HOCRLine_Words line))
      lines;
  conv_texts : map HOCRWord_Text (all_words lines) = map word_text source;
  conv_boxes : map HOCRWord_BBox (all_words lines) = map word_box source
}.

Lemma converted_nil (h : Converter) : converted h [] [] h.
Proof.
  split; simpl; try reflexivity; try lia. constructor.
Qed.

Lemma converted_app (h h1 h2 : Converter) (s1 s2 : list Word)
    (l1 l2 : list HOCRLine) :
  converted h s1 l1 h1 -> converted h1 s2 l2 h2 ->
  converted h (s1 ++ s2) (l1 ++ l2) h2.
Proof.
  intros [L1 W1 LI1 WI1 M1 T1 B1] [L2 W2 LI2 WI2 M2 T2 B2].
  assert (Hall : all_words (l1 ++ l2) = all_words l1 ++ all_words l2)
    by apply flat_map_app.
  split; rewrite ?Hall, ?map_app, ?length_app, ?count_from_app, ?map_app.
  - rewrite L2, L1. lia.
  - rewrite W2, W1. lia.
  - now rewrite LI1, LI2, L1.
  - now rewrite WI1, WI2, W1.
  - apply Forall_app. now split.
  - now rewrite T1, T2.
  - now rewrite B1, B2.
Qed.

Lemma convert_words_spec (wordsGroup : list Word) (lineID : string) :
  forall h hocrWords h',
    convert_words h wordsGroup lineID = (hocrWords, h') ->
    lineCounter h' = lineCounter h /\
    wordCounter h' = wordCounter h + Z.of_nat (List.length wordsGroup) /\
    List.length hocrWords = List.length wordsGroup /\
    map HOCRWord_ID hocrWords =
      map word_id (count_from (wordCounter h) (List.length wordsGroup)) /\
    Forall (fun w => HOCRWord_LineID w = lineID) hocrWords /\
    map HOCRWord_Text hocrWords = map word_text wordsGroup /\
    map HOCRWord_BBox hocrWords = map word_box wordsGroup.
Proof.
  induction wordsGroup as [|w ws IH]; intros h hocrWords h' Hrun;
    cbn [convert_words] in Hrun.
  - injection Hrun as <- <-. simpl. repeat split; try lia. constructor.
  - unfold convertGCVWordToHOCRWord in Hrun.
    destruct (convert_words _ ws lineID) as [hws h2] eqn:Hrest.
    injection Hrun as <- <-.
    apply IH in Hrest as (HL & HW & Hlen & Hids & Hmem & Htext & Hbox).
    cbn [lineCounter wordCounter] in *.
    cbn [List.length map count_from HOCRWord_ID HOCRWord_LineID HOCRWord_Text
         HOCRWord_BBox].
    split; [lia|]. split; [lia|]. split; [now rewrite Hlen|].
    split; [now rewrite Hids|].
    split; [constructor; [reflexivity | assumption]|].
    split; [now rewrite Htext | now rewrite Hbox].
Qed.

Lemma convert_groups_spec (wordsGroups : list (list Word)) :
  forall h lines h',
    convert_groups h wordsGroups = (lines, h') ->
    converted h (List.concat wordsGroups) lines h'.
Proof.
  induction wordsGroups as [|g gs IH]; intros h lines h' Hrun;
    cbn [convert_groups] in Hrun.
  - injection Hrun as <- <-. apply converted_nil.
  - destruct g as [|w ws]; [now apply IH|].
    destruct (convert_words h (w :: ws) _) as [hws h1] eqn:Hwords.
    destruct (convert_groups _ gs) as [ls h3] eqn:Hrest.
    injection Hrun as <- <-.
    apply convert_words_spec in Hwords
      as (HL & HW & Hlen & Hids & Hmem & Htext & Hbox).
    apply IH in Hrest.
    change (List.concat ((w :: ws) :: gs))
      with ((w :: ws) ++ List.concat gs).
    change (?l :: ls) with ([l] ++ ls).
    eapply converted_app; [|exact Hrest].
    split; cbn [List.length all_words flat_map HOCRLine_Words HOCRLine_ID map
                count_from lineCounter wordCounter];
      rewrite ?app_nil_r; try assumption; try lia.
    + reflexivity.
    + now rewrite Hids, Hlen.
    + constructor; [|constructor]. cbn [HOCRLine_Words HOCRLine_ID].
      split; [|exact Hmem].
      intros E. rewrite E in Hlen. discriminate.
Qed.

Lemma convert_paragraphs_spec (paragraphs : list Paragraph) :
  forall h lines h',
    convert_paragraphs h paragraphs = (lines, h') ->
    converted h (flat_map Paragraph_Words paragraphs) lines h'.
Proof.
  induction paragraphs as [|p ps IH]; intros h lines h' Hrun;
    cbn [convert_paragraphs] in Hrun.
  - injection Hrun as <- <-. apply converted_nil.
  - unfold convertParagraphToLines in Hrun.
    destruct (convert_groups h _) as [pl h1] eqn:Hgroups.
    destruct (convert_paragraphs h1 ps) as [al h2] eqn:Hrest.
    injection Hrun as <- <-.
    apply convert_groups_spec in Hgroups.
    rewrite (proj1 (groupWordsIntoLines_partition _)) in Hgroups.
    cbn [flat_map]. eapply converted_app; eauto.
Qed.

(** The words of the blocks of type [TEXT]. *)
Definition text_block_words (blocks : list Block) : list Word :=
  flat_map
    (fun block =>
       if String.eqb (BlockType block) "TEXT"
       then flat_map Paragraph_Words (Paragraphs block)
       else [])
    blocks.

Lemma convert_blocks_spec (blocks : list Block) :
  forall h lines h',
    convert_blocks h blocks = (lines, h') ->
    converted h (text_block_words blocks) lines h'.
Proof.
  induction blocks as [|b bs IH]; intros h lines h' Hrun;
    cbn [convert_blocks] in Hrun.
  - injection Hrun as <- <-. apply converted_nil.
  - unfold text_block_words. cbn [flat_map]. fold (text_block_words bs).
    destruct (String.eqb (BlockType b) "TEXT").
    + unfold convertBlockToLines in Hrun.
      destruct (convert_paragraphs h _) as [bl h1] eqn:Hpars.
      destruct (convert_blocks h1 bs) as [al h2] eqn:Hrest.
      injection Hrun as <- <-.
      apply convert_paragraphs_spec in Hpars.
      eapply converted_app; eauto.
    + now apply IH.
Qed.

(** The words [ConvertToHOCRLines] encodes. *)
Definition page_words (pages : list Page) : list Word :=
  flat_map (fun page => text_block_words (Blocks page)) pages.

Lemma convert_pages_spec (pages : list Page) :
  forall h lines h',
    convert_pages h pages = (lines, h') ->
    converted h (page_words pages) lines h'.
Proof.
  induction pages as [|p ps IH]; intros h lines h' Hrun;
    cbn [convert_pages] in Hrun.
  - injection Hrun as <- <-. apply converted_nil.
  - unfold convertPageToLines in Hrun.
    destruct (convert_blocks h _) as [pl h1] eqn:Hblocks.
    destruct (convert_pages h1 ps) as [al h2] eqn:Hrest.
    injection Hrun as <- <-.
    apply convert_blocks_spec in Hblocks.
    unfold page_words. cbn [flat_map]. eapply converted_app; eauto.
Qed.

Lemma ConvertToHOCRLines_converted (h h' : Converter)
    (gcvResponse : GCVResponse) (lines : list HOCRLine) :
  ConvertToHOCRLines h gcvResponse = (Ok lines, h') ->
  exists (response : Response) (rest : list Response)
         (annotation : FullTextAnnotation),
    Responses gcvResponse = response :: rest /\
    Response_FullTextAnnotation response = Some annotation /\
    converted h (page_words (Pages annotation)) lines h'.
Proof.
  unfold ConvertToHOCRLines. intros Hrun.
  destruct (Responses gcvResponse) as [|response rest]; [discriminate|].
  destruct (Response_FullTextAnnotation response) as [annotation|] eqn:Hann;
    [|discriminate].
  destruct (convert_pages h (Pages annotation)) as [ls h1] eqn:Hpages.
  injection Hrun as <- <-.
  exists response, rest, annotation.
  split; [reflexivity|]. split; [exact Hann|].
  now apply convert_pages_spec.
Qed.

(** X8.  The lines [ConvertToHOCRLines] returns are numbered consecutively
    from the line counter of the converter and their words, in reading
    order, from its word counter; so no two lines and no two words share an
    identifier.  No line is empty, every word carries the identifier of the
    line it is in, and the counters end past the last numbers used. *)
Theorem line_and_word_ids_are_sequential (h h' : Converter)
    (gcvResponse : GCVResponse) (lines : list HOCRLine) :
  ConvertToHOCRLines h gcvResponse = (Ok lines, h') ->
  (forall k line, nth_error lines k = Some line ->
     HOCRLine_ID line = "line_" +:+ itoa (lineCounter h + Z.of_nat k)) /\
  (forall k word, nth_error (all_words lines) k = Some word ->
     HOCRWord_ID word = "word_" +:+ itoa (wordCounter h + Z.of_nat k)) /\
  NoDup (map HOCRLine_ID lines) /\
  NoDup (map HOCRWord_ID (all_words lines)) /\
  Forall
    (fun line =>
       HOCRLine_Words line <> [] /\
       Forall (fun w => HOCRWord_LineID w = HOCRLine_ID line)
         (HOCRLine_Words line))
    lines /\
  lineCounter h' = lineCounter h + Z.of_nat (List.length lines) /\
  wordCounter h' = wordCounter h + Z.of_nat (List.length (all_words lines)).
Proof.
  intros Hrun.
  apply ConvertToHOCRLines_converted in Hrun
    as (response & rest & annotation & _ & _ & [HL HW HLI HWI HM _ _]).
  split; [|split; [|split; [|split; [|split; [|split]]]]];
    try assumption.
  - intros k line Hk.
    apply (map_nth_error HOCRLine_ID) in Hk. rewrite HLI in Hk.
    now apply nth_error_map_count in Hk.
  - intros k word Hk.
    apply (map_nth_error HOCRWord_ID) in Hk. rewrite HWI in Hk.
    now apply nth_error_map_count in Hk.
  - rewrite HLI. apply NoDup_map_inj;
      [apply line_id_inj | apply NoDup_count_from].
  - rewrite HWI. apply NoDup_map_inj;
      [apply word_id_inj | apply NoDup_count_from].
Qed.

(** X9.  [ConvertToHOCRLines] keeps the words of the blocks of type [TEXT]
    of all pages, in order, none lost and none added: the texts of the
    words of the lines are the concatenated symbols of those words and
    their boxes the boxes of their polygons.  Blocks of another type are
    left out. *)
Theorem words_are_kept_in_order (h h' : Converter)
    (gcvResponse : GCVResponse) (lines : list HOCRLine) :
  ConvertToHOCRLines h gcvResponse = (Ok lines, h') ->
  exists (response : Response) (rest : list Response)
         (annotation : FullTextAnnotation),
    Responses gcvResponse = response :: rest /\
    Response_FullTextAnnotation response = Some annotation /\
    map HOCRWord_Text (all_words lines) =
      map word_text (page_words (Pages annotation)) /\
    map HOCRWord_BBox (all_words lines) =
      map word_box (page_words (Pages annotation)).
Proof.
  intros Hrun.
  apply ConvertToHOCRLines_converted in Hrun
    as (response & rest & annotation & Hresp & Hann & [_ _ _ _ _ HT HB]).
  exists response, rest, annotation. auto.
Qed.

(** A response of one page with a text block of two words, the first of
    which ends a line, and a block that is not text. *)
Definition sample_symbol (text break : string) : Symbol :=
  mkSymbol (Some (mkProperty [] (Some (mkDetectedBreak break))))
    (mkBoundingPoly []) text.

Definition sample_word (text break : string) (x y : Z) : Word :=
  mkWord None
    (mkBoundingPoly
       [mkVertex x y; mkVertex (x + 30) y; mkVertex (x + 30) (y + 10);
        mkVertex x (y + 10)])
    [sample_symbol text break].

Definition sample_response : GCVResponse :=
  mkGCVResponse
    [mkResponse []
       (Some (mkFullTextAnnotation
                [mkPage None 200 100
                   [mkBlock (mkBoundingPoly [])
                      [mkParagraph (mkBoundingPoly [])
                         [sample_word "one" "LINE_BREAK" 5 5;
                          sample_word "two" "SPACE" 5 25]]
                      "TEXT";
                    mkBlock (mkBoundingPoly [])
                      [mkParagraph (mkBoundingPoly [])
                         [sample_word "seal" "SPACE" 90 60]]
                      "PICTURE"]]
                "one two"))].

Lemma line_and_word_ids_are_sequential_witness :
  exists (lines : list HOCRLine) (h' : Converter),
    ConvertToHOCRLines NewConverter sample_response = (Ok lines, h') /\
    map HOCRLine_ID lines = ["line_1"; "line_2"] /\
    map HOCRWord_ID (all_words lines) = ["word_1"; "word_2"] /\
    NoDup (map HOCRWord_ID (all_words lines)) /\
    lineCounter h' = 3 /\ wordCounter h' = 3.
Proof.
  eexists. eexists. split; [reflexivity|].
  split; [reflexivity|]. split; [reflexivity|].
  pose proof (line_and_word_ids_are_sequential NewConverter _ sample_response _
                eq_refl) as (_ & _ & _ & Hnodup & _ & HL & HW).
  split; [exact Hnodup|]. split; [exact HL | exact HW].
Defined.

Lemma words_are_kept_in_order_witness :
  exists (lines : list HOCRLine) (h' : Converter),
    ConvertToHOCRLines NewConverter sample_response = (Ok lines, h') /\
    map HOCRWord_Text (all_words lines) = ["one"; "two"] /\
    map HOCRWord_BBox (all_words lines) =
      [mkBBox 5 5 35 15; mkBBox 5 25 35 35].
Proof.
  eexists. eexists. split; [reflexivity|].
  destruct (words_are_kept_in_order NewConverter _ sample_response _ eq_refl)
    as (response & rest & annotation & Hresp & Hann & HT & HB).
  injection Hresp as <- <-. injection Hann as <-.
  split; [exact HT | exact HB].
Defined.


End LineConverterFacts.

(** * From regions to words: what is kept *)

Module WordDetectionFacts.
Import GoLib Models GCV Detector WordDetection SortFacts DetectorFacts.
Import DetectorClaims LineConverterFacts.

#[local] Open Scope Z_scope.

(** *** [mergeComponents] *)

Definition right_edge (c : BoundingBox) : Z := X c + Width c.
Definition bottom_edge (c : BoundingBox) : Z := Y c + Height c.

(** [outer] encloses [inner]. *)
Definition encloses (outer inner : BoundingBox) : Prop :=
  X outer <= X inner /\ Y outer <= Y inner /\
  right_edge inner <= right_edge outer /\
  bottom_edge inner <= bottom_edge outer.

Lemma merge_loop_runs (rest : list BoundingBox) :
  forall minX minY maxX maxY,
    fold_left
      (fun '(minX, minY, maxX, maxY) comp =>
         (if X comp <? minX then X comp else minX,
          if Y comp <? minY then Y comp else minY,
          if maxX <? X comp + Width comp then X comp + Width comp else maxX,
          if maxY <? Y comp + Height comp then Y comp + Height comp
          else maxY))
      rest (minX, minY, maxX, maxY) =
    (run_min X rest minX, run_min Y rest minY,
     run_max right_edge rest maxX, run_max bottom_edge rest maxY).
Proof.
  induction rest as [|c rest IH]; intros minX minY maxX maxY.
  - reflexivity.
  - cbn [fold_left]. rewrite IH. reflexivity.
Qed.

Lemma mergeComponents_runs (first : BoundingBox) (rest : list BoundingBox) :
  mergeComponents (first :: rest) =
  mkBoundingBox (run_min X rest (X first)) (run_min Y rest (Y first))
    (run_max right_edge rest (right_edge first) - run_min X rest (X first))
    (run_max bottom_edge rest (bottom_edge first) - run_min Y rest (Y first)).
Proof.
  unfold mergeComponents. now rewrite merge_loop_runs.
Qed.

Lemma merged_box_hull_facts (components : list BoundingBox) :
  (forall c, In c components -> encloses (mergeComponents components) c) /\
  (components <> [] ->
   (exists c, In c components /\ X c = X (mergeComponents components)) /\
   (exists c, In c components /\ Y c = Y (mergeComponents components)) /\
   (exists c, In c components /\
      right_edge c = right_edge (mergeComponents components)) /\
   (exists c, In c components /\
      bottom_edge c = bottom_edge (mergeComponents components))).
Proof.
  destruct components as [|first rest].
  { split; [intros c []|]. congruence. }
  rewrite mergeComponents_runs.
  destruct (run_min_spec X rest (X first)) as (HaX & HallX & HattX).
  destruct (run_min_spec Y rest (Y first)) as (HaY & HallY & HattY).
  destruct (run_max_spec right_edge rest (right_edge first))
    as (HbX & HmaxX & HatmX).
  destruct (run_max_spec bottom_edge rest (bottom_edge first))
    as (HbY & HmaxY & HatmY).
  set (a := run_min X rest (X first)) in *.
  set (b := run_min Y rest (Y first)) in *.
  set (c := run_max right_edge rest (right_edge first)) in *.
  set (d := run_max bottom_edge rest (bottom_edge first)) in *.
  assert (Hr : right_edge (mkBoundingBox a b (c - a) (d - b)) = c)
    by (unfold right_edge; simpl; lia).
  assert (Hb : bottom_edge (mkBoundingBox a b (c - a) (d - b)) = d)
    by (unfold bottom_edge; simpl; lia).
  unfold encloses. rewrite Hr, Hb. cbn [X Y].
  split.
  - intros x [<- | Hx]; [lia|].
    specialize (HallX x Hx). specialize (HallY x Hx).
    specialize (HmaxX x Hx). specialize (HmaxY x Hx). lia.
  - intros _.
    assert (Hpick : forall (key : BoundingBox -> Z) (v : Z),
              v = key first \/ (exists x, In x rest /\ key x = v) ->
              exists x, In x (first :: rest) /\ key x = v).
    { intros key v [-> | (x & Hx & <-)]; [exists first | exists x];
        split; auto; [now left | now right]. }
    split; [apply Hpick; tauto|]. split; [apply Hpick; tauto|].
    split; apply Hpick; tauto.
Qed.

(** X11.  The box [mergeComponents] returns encloses every component, and
    each of its four sides is a side of some component; a single component
    is returned as it is, and no component gives the zero box. *)
Theorem merged_box_is_the_hull (components : list BoundingBox) :
  let m := mergeComponents components in
  (components = [] -> m = mkBoundingBox 0 0 0 0) /\
  (forall c, components = [c] -> m = c) /\
  (forall c, In c components -> encloses m c) /\
  (components <> [] ->
   (exists c, In c components /\ X c = X m) /\
   (exists c, In c components /\ Y c = Y m) /\
   (exists c, In c components /\ right_edge c = right_edge m) /\
   (exists c, In c components /\ bottom_edge c = bottom_edge m)).
Proof.
  cbv zeta. split; [intros ->; reflexivity|].
  split.
  { intros c ->. destruct c as [x y w h]. unfold mergeComponents. simpl.
    f_equal; lia. }
  apply merged_box_hull_facts.
Qed.

(** *** [groupComponentsIntoWords] *)

(** The loop cuts the components it reads into consecutive groups, none
    empty: the finished ones are merged into word boxes, the last one is
    the current word. *)
Lemma words_loop_spec (components : list BoundingBox) :
  forall wordBoxes current wordBoxes' current',
    words_loop components wordBoxes current = (wordBoxes', current') ->
    exists groups : list (list BoundingBox),
      wordBoxes' = wordBoxes ++ map mergeComponents groups /\
      Forall (fun g => g <> []) groups /\
      List.concat groups ++ current' = current ++ components /\
      (current ++ components <> [] -> current' <> []).
Proof.
  induction components as [|c rest IH];
    intros wordBoxes current wordBoxes' current' Hrun;
    cbn [words_loop] in Hrun.
  - injection Hrun as <- <-. exists []. simpl.
    rewrite !app_nil_r. repeat split; auto.
  - destruct current as [|x current].
    + apply IH in Hrun as (groups & Hboxes & Hne & Hcat & Hcur).
      exists groups. repeat split; auto;
        intros _; apply Hcur; discriminate.
    + destruct (same_word (x :: current) c).
      * apply IH in Hrun as (groups & Hboxes & Hne & Hcat & Hcur).
        exists groups. rewrite <- app_assoc in Hcat. repeat split; auto;
          intros _; apply Hcur; destruct current; discriminate.
      * apply IH in Hrun as (groups & Hboxes & Hne & Hcat & Hcur).
        exists ((x :: current) :: groups).
        rewrite <- app_assoc in Hboxes. split; [exact Hboxes|].
        split; [constructor; [discriminate | assumption]|].
        split.
        -- cbn [List.concat]. rewrite <- app_assoc, Hcat. reflexivity.
        -- intros _. apply Hcur. discriminate.
Qed.

Lemma groupComponentsIntoWords_groups (sort_Slice : sorter)
    (components : list BoundingBox) (imgWidth imgHeight : Z) :
  exists groups : list (list BoundingBox),
    groupComponentsIntoWords sort_Slice components imgWidth imgHeight =
      map mergeComponents groups /\
    Forall (fun g => g <> []) groups /\
    (components <> [] ->
     List.concat groups = sort_Slice BoundingBox less_YX_box components) /\
    (components = [] -> groups = []).
Proof.
  unfold groupComponentsIntoWords.
  destruct components as [|c0 components].
  - exists []. repeat split; auto. congruence.
  - destruct (words_loop _ [] []) as [wordBoxes current] eqn:Hrun.
    apply words_loop_spec in Hrun as (groups & -> & Hne & Hcat & Hcur).
    cbn [app] in *.
    destruct current as [|x current].
    + exists groups. rewrite app_nil_r in Hcat.
      repeat split; auto. discriminate.
    + exists (groups ++ [x :: current]).
      rewrite map_app. split; [reflexivity|].
      split; [apply Forall_app; split; [assumption|];
              constructor; [discriminate | constructor]|].
      split; [|discriminate].
      intros _. rewrite concat_app. cbn [List.concat].
      now rewrite app_nil_r.
Qed.

(** X12.  For every sorting function that meets the contract of
    [sort.Slice], [groupComponentsIntoWords] loses no component: every
    component lies inside one of the word boxes returned, every side of a
    word box is a side of a component, and there are no more word boxes
    than components.  Word boxes are at least as wide and as high as the
    lower bounds that hold for all components. *)
Theorem word_boxes_cover_the_components (sort_Slice : sorter)
    (components : list BoundingBox) (imgWidth imgHeight : Z) :
  sort_contract sort_Slice ->
  let wordBoxes :=
    groupComponentsIntoWords sort_Slice components imgWidth imgHeight in
  (forall c, In c components -> exists w, In w wordBoxes /\ encloses w c) /\
  (forall w, In w wordBoxes ->
     (exists c, In c components /\ X c = X w) /\
     (exists c, In c components /\ Y c = Y w) /\
     (exists c, In c components /\ right_edge c = right_edge w) /\
     (exists c, In c components /\ bottom_edge c = bottom_edge w)) /\
  (List.length wordBoxes <= List.length components)%nat /\
  (forall minWidth minHeight : Z,
     Forall (fun c => minWidth <= Width c /\ minHeight <= Height c)
       components ->
     Forall (fun w => minWidth <= Width w /\ minHeight <= Height w)
       wordBoxes).
Proof.
  intros Hsort. cbv zeta.
  destruct (groupComponentsIntoWords_groups sort_Slice components imgWidth
              imgHeight) as (groups & -> & Hne & Hcat & Hnil).
  destruct components as [|c0 components].
  { rewrite Hnil by reflexivity. simpl.
    split; [intros ? []|]. split; [intros ? []|]. split; [lia|].
    intros; constructor. }
  specialize (Hcat ltac:(discriminate)). clear Hnil.
  destruct (Hsort BoundingBox less_YX_box (c0 :: components)) as [Hperm _].
  rewrite <- Hcat in Hperm. clear Hcat.
  set (cs := c0 :: components) in *. clearbody cs. clear c0 components.
  assert (Hin : forall c, In c cs <-> exists g, In g groups /\ In c g).
  { intros c. split.
    - intros Hc. apply (Permutation_in _ Hperm) in Hc.
      apply in_concat in Hc as (g & Hg & Hcg). eauto.
    - intros (g & Hg & Hcg). apply (Permutation_in _ (Permutation_sym Hperm)).
      apply in_concat. eauto. }
  split; [|split; [|split]].
  - intros c Hc. apply Hin in Hc as (g & Hg & Hcg).
    exists (mergeComponents g). split; [now apply in_map|].
    now apply (merged_box_hull_facts g).
  - intros w Hw. apply in_map_iff in Hw as (g & <- & Hg).
    rewrite List.Forall_forall in Hne. specialize (Hne g Hg).
    destruct (proj2 (merged_box_hull_facts g) Hne)
      as ((c1 & H1 & E1) & (c2 & H2 & E2) & (c3 & H3 & E3) & (c4 & H4 & E4)).
    repeat split; [exists c1 | exists c2 | exists c3 | exists c4];
      (split; [apply Hin; eauto | assumption]).
  - rewrite length_map, (Permutation_length Hperm).
    clear - Hne. induction Hne as [|g groups Hg _ IH]; simpl; [lia|].
    rewrite length_app. destruct g; [congruence | simpl; lia].
  - intros minWidth minHeight Hall.
    rewrite List.Forall_forall in Hall |- *.
    intros w Hw. apply in_map_iff in Hw as (g & <- & Hg).
    rewrite List.Forall_forall in Hne. specialize (Hne g Hg).
    destruct g as [|c g]; [congruence|].
    pose proof (proj1 (merged_box_hull_facts (c :: g)) c (or_introl eq_refl))
      as (Hx & Hy & Hr & Hb).
    destruct (Hall c) as [Hw Hh]; [apply Hin; exists (c :: g); split;
                                   [assumption | now left]|].
    unfold right_edge, bottom_edge in *. lia.
Qed.

Lemma word_boxes_cover_the_components_witness :
  let components :=
    [mkBoundingBox 10 10 6 9; mkBoundingBox 18 11 5 8;
     mkBoundingBox 200 10 7 9] in
  let wordBoxes := groupComponentsIntoWords insertion_sort components 1000 1000 in
  wordBoxes = [mkBoundingBox 10 10 6 9; mkBoundingBox 18 10 189 9] /\
  Forall (fun w => 5 <= Width w /\ 8 <= Height w) wordBoxes.
Proof.
  cbv zeta. split; [reflexivity|].
  apply (word_boxes_cover_the_components insertion_sort _ 1000 1000
           insertion_sort_contract).
  repeat constructor; simpl; lia.
Defined.

(** *** [groupWordsIntoLines]: no word is lost *)

(** The lines the loop has built: none is empty and every word has the
    vertices the loop reads. *)
Definition good_lines (lines : list (list Word)) : Prop :=
  Forall (fun line => line <> [] /\ Forall has_box line) lines.

Lemma add_to_line_spec (word : Word) (wordTop wordBottom : Z)
    (lines : list (list Word)) :
  good_lines lines ->
  add_to_line lines word wordTop wordBottom = Some None \/
  exists l1 line l2,
    lines = l1 ++ line :: l2 /\
    add_to_line lines word wordTop wordBottom =
      Some (Some (l1 ++ (line ++ [word]) :: l2)).
Proof.
  induction lines as [|line rest IH]; intros Hgood.
  - now left.
  - inversion Hgood as [|? ? [Hne Hbox] Hrest]; subst.
    cbn [add_to_line].
    destruct line as [|x xs]; [congruence|].
    destruct (line_range_spec (x :: xs) Hne Hbox) as (lt & lb & -> & _).
    destruct ((lt - (wordBottom - wordTop) `quot` 2 <=? wordBottom) &&
              (wordTop <=? lb + (wordBottom - wordTop) `quot` 2)).
    + right. exists [], (x :: xs), rest. split; reflexivity.
    + destruct (IH Hrest) as [-> | (l1 & line & l2 & -> & ->)].
      * now left.
      * right. exists ((x :: xs) :: l1), line, l2. split; reflexivity.
Qed.

Lemma place_word_spec (lines : list (list Word)) (word : Word) :
  good_lines lines -> has_box word ->
  exists lines',
    place_word lines word = Some lines' /\
    good_lines lines' /\
    Permutation (List.concat lines') (word :: List.concat lines).
Proof.
  intros Hgood Hbox. unfold place_word.
  destruct (has_box_vertex word Hbox) as [-> ->].
  destruct (add_to_line_spec word (Vertex_Y (vertex_or_zero word 0))
              (Vertex_Y (vertex_or_zero word 2)) lines Hgood)
    as [-> | (l1 & line & l2 & -> & ->)].
  - exists (lines ++ [[word]]). split; [reflexivity|]. split.
    + apply Forall_app. split; [assumption|].
      constructor; [|constructor].
      split; [discriminate | now constructor].
    + rewrite concat_app. cbn [List.concat]. rewrite ?app_nil_r.
      apply Permutation_sym, Permutation_cons_append.
  - eexists. split; [reflexivity|].
    unfold good_lines in *.
    apply Forall_app in Hgood as [H1 H2].
    inversion H2 as [|? ? [Hne Hline] H3]; subst.
    split.
    + apply Forall_app. split; [assumption|]. constructor; [|assumption].
      split; [now destruct line|].
      apply Forall_app. split; [assumption | now constructor].
    + rewrite !concat_app. cbn [List.concat].
      rewrite <- !app_assoc. cbn [app].
      apply Permutation_sym.
      etrans; [apply Permutation_middle|].
      apply Permutation_app_head.
      etrans; [apply Permutation_middle|]. reflexivity.
Qed.

Lemma place_word_panics (lines : list (list Word)) (word : Word) :
  ~ has_box word -> place_word lines word = None.
Proof.
  unfold has_box, place_word, vertex. intros Hno.
  destruct (nth_error (Vertices (Word_BoundingBox word)) 0);
    [|reflexivity].
  destruct (nth_error (Vertices (Word_BoundingBox word)) 2) eqn:H2;
    [|reflexivity].
  exfalso. apply Hno.
  assert (2 < List.length (Vertices (Word_BoundingBox word)))%nat; [|lia].
  apply nth_error_Some. congruence.
Qed.

(** The loop over the sorted words. *)
Definition place_words (sortedWords : list Word)
    (acc : option (list (list Word))) : option (list (list Word)) :=
  fold_left
    (fun acc word =>
       match acc with
       | Some lines => place_word lines word
       | None => None
       end)
    sortedWords acc.

Lemma place_words_None (ws : list Word) : place_words ws None = None.
Proof. induction ws as [|w ws IH]; [reflexivity | exact IH]. Qed.

Lemma place_words_spec (ws : list Word) :
  forall lines,
    good_lines lines -> Forall has_box ws ->
    exists lines',
      place_words ws (Some lines) = Some lines' /\
      good_lines lines' /\
      Permutation (List.concat lines') (List.concat lines ++ ws).
Proof.
  induction ws as [|w ws IH]; intros lines Hgood Hall.
  - exists lines. rewrite app_nil_r. repeat split; auto.
  - inversion Hall as [|? ? Hw Hws]; subst.
    destruct (place_word_spec lines w Hgood Hw) as (l1 & Hl1 & Hg1 & Hp1).
    destruct (IH l1 Hg1 Hws) as (l2 & Hl2 & Hg2 & Hp2).
    exists l2. unfold place_words in *. cbn [fold_left]. rewrite Hl1.
    split; [exact Hl2|]. split; [exact Hg2|].
    etrans; [exact Hp2|].
    etrans; [apply Permutation_app_tail, Hp1|].
    cbn [app]. apply Permutation_middle.
Qed.

Lemma place_words_panics (ws : list Word) :
  forall acc, ~ Forall has_box ws -> place_words ws acc = None.
Proof.
  induction ws as [|w ws IH]; intros acc Hno.
  - exfalso. apply Hno. constructor.
  - unfold place_words. cbn [fold_left]. fold (place_words ws).
    destruct acc as [lines|]; [|apply place_words_None].
    destruct (le_dec 3 (List.length (Vertices (Word_BoundingBox w))))
      as [Hw | Hw].
    + apply IH. intros Hws. apply Hno. now constructor.
    + rewrite place_word_panics by exact Hw. apply place_words_None.
Qed.

Lemma Permutation_concat_map {A : Type} (f : list A -> list A)
    (ls : list (list A)) :
  (forall l, Permutation l (f l)) ->
  Permutation (List.concat ls) (List.concat (map f ls)).
Proof.
  intros Hf. induction ls as [|l ls IH]; simpl; [constructor|].
  now apply Permutation_app.
Qed.

(** X13.  For every sorting function that meets the contract of
    [sort.Slice]: when every word has at least three vertices,
    [groupWordsIntoLines] returns lines that hold the words given, each
    once; no line is empty and every line is ordered by the X of its
    words.  When a word has fewer than three vertices the function does
    not return (an index is out of range). *)
Theorem lines_keep_every_word (sort_Slice : sorter) (words : list Word) :
  sort_contract sort_Slice ->
  (Forall has_box words ->
   exists lines : list (list Word),
     Detector.groupWordsIntoLines sort_Slice words = Some lines /\
     Permutation (List.concat lines) words /\
     Forall (fun line => line <> []) lines /\
     Forall (StronglySorted (fun a b => word_left a <= word_left b)) lines) /\
  (~ Forall has_box words ->
   Detector.groupWordsIntoLines sort_Slice words = None).
Proof.
  intros Hsort. unfold Detector.groupWordsIntoLines.
  destruct words as [|w0 ws0] eqn:Hwords.
  { split; [|intros Hno; exfalso; apply Hno; constructor].
    intros _. exists []. repeat split; constructor. }
  rewrite <- Hwords. clear Hwords w0 ws0.
  destruct (Hsort Word less_YX words) as [Hperm _].
  fold (place_words (sort_Slice Word less_YX words) (Some [])).
  split.
  - intros Hall.
    destruct (place_words_spec (sort_Slice Word less_YX words) [])
      as (lines & -> & Hgood & Hp); [constructor | |].
    { eapply Permutation_Forall; eassumption. }
    eexists. split; [reflexivity|]. split; [|split].
    + etrans; [apply Permutation_sym, Permutation_concat_map;
               intros l; apply (Hsort Word less_X l)|].
      etrans; [exact Hp|]. now apply Permutation_sym.
    + apply Forall_map. eapply Forall_impl; [|exact Hgood].
      intros l [Hne _] Hnil. apply Hne.
      destruct (Hsort Word less_X l) as [Hpl _].
      rewrite Hnil in Hpl. apply Permutation_sym in Hpl.
      now apply Permutation_nil in Hpl.
    + apply Forall_map. apply Forall_forall. intros l _.
      destruct (Hsort Word less_X l) as [_ Hsorted].
      eapply StronglySorted_weaken;
        [|apply Hsorted, (key_order_swo word_left)].
      intros a b Hab. now apply Z.ltb_ge in Hab.
  - intros Hno. rewrite place_words_panics; [reflexivity|].
    intros Hall. apply Hno.
    eapply Permutation_Forall; [apply Permutation_sym|]; eassumption.
Qed.

Lemma lines_keep_every_word_witness :
  let words :=
    [demo_word 50 10 80 30; demo_word 10 12 40 32; demo_word 10 200 40 220] in
  exists lines : list (list Word),
    Detector.groupWordsIntoLines insertion_sort words = Some lines /\
    Permutation (List.concat lines) words /\
    List.length lines = 2%nat.
Proof.
  cbv zeta.
  destruct (proj1 (lines_keep_every_word insertion_sort
                     [demo_word 50 10 80 30; demo_word 10 12 40 32;
                      demo_word 10 200 40 220]
                     insertion_sort_contract))
    as (lines & Hrun & Hperm & _).
  { repeat constructor; unfold has_box; simpl; lia. }
  exists lines. split; [exact Hrun|]. split; [exact Hperm|].
  vm_compute in Hrun. injection Hrun as <-. reflexivity.
Defined.

End WordDetectionFacts.
